(** * SAE-Aerothon-2025 ground station: mission planner and telemetry overlay

    A shallow embedding of the client-side state handling found in
    [frontend/src/pages/home/components/MissionPlannerPanel.jsx] and
    [frontend/src/pages/home/components/TelemetryOverlay.jsx]:
    the waypoint store, the Cesium entity reconciliation effect, the
    telemetry pollers, the fleet-status handler, the manual mission upload
    and the guards between the manual and the KML planner; then the pointer
    handlers and the teardown of the planner, and the connection bar, the
    drone pins, the KML layer and the surveillance path of the overlay, with
    the helpers of [utils/cesiumHelpers.js] and [utils/pathGenerator.js]
    they call.

    JavaScript numbers are IEEE doubles ([float]); arrays are lists; array
    indices and lengths are [nat]; React state is a record that the
    handlers transform. The file has two parts: the definitions, then the
    properties. *)

From Stdlib Require Import Floats Ascii String.
From stdpp Require Import gmap strings list sorting pretty.

Set Default Proof Using "Type".
Open Scope string_scope.
Open Scope nat_scope.
Open Scope list_scope.

(* ================================================================== *)
(** * Part I: definitions *)
(* ================================================================== *)

(** ** The Cesium capability set

    [window.Cesium] and the viewer's camera are external; the code only
    calls them.  They are taken as an interface. *)

Record Cartographic := mkCartographic {
  carto_longitude : float;   (* radians *)
  carto_latitude : float;    (* radians *)
  carto_height : float;
}.

Class CesiumAPI := {
  Cartesian3 : Type;
  ScreenPos : Type;
  (* Cesium.Cartesian3.fromDegrees(lon, lat, height) *)
  fromDegrees : float → float → float → Cartesian3;
  (* Cesium.Ellipsoid.WGS84.cartesianToCartographic; undefined at the centre *)
  cartesianToCartographic : Cartesian3 → option Cartographic;
  (* Cesium.Math.toDegrees *)
  mathToDegrees : float → float;
  (* viewer.camera.pickEllipsoid(pos, WGS84); undefined off the globe *)
  pickEllipsoid : ScreenPos → option Cartesian3;
}.

(** A stand-in rendering surface for running the handlers on concrete
    inputs: positions are kept as the triple they were built from. *)
Definition flatCesium : CesiumAPI := {|
  Cartesian3 := float * float * float;
  ScreenPos := float * float;
  fromDegrees := λ lon lat h, (lon, lat, h);
  cartesianToCartographic := λ c, Some (mkCartographic c.1.1 c.1.2 c.2);
  mathToDegrees := λ r, r;
  pickEllipsoid := λ p, Some (p.1, p.2, 0%float);
|}.

(** ** JavaScript truthiness of the values the handlers test *)

(** [!!s] for a string. *)
Definition truthy_string (s : string) : bool :=
  match s with EmptyString => false | _ => true end.

(** [a || b] where [a] is a string or [undefined]. *)
Definition string_or (a : option string) (b : string) : string :=
  match a with
  | Some x => if truthy_string x then x else b
  | None => b
  end.

(** [!!id] for a system id or [null]: [null] and [0] are falsy. *)
Definition truthy_id (i : option N) : bool :=
  match i with
  | Some n => negb (n =? 0)%N
  | None => false
  end.

(** [x || 0] on a number: 0, -0 and NaN are falsy. *)
Definition float_or_zero (x : float) : float :=
  if (PrimFloat.is_zero x || PrimFloat.is_nan x)%bool then 0%float else x.

(** ** Events dispatched on [window] *)

Inductive WindowEvent :=
  | EvTelemetryConnected            (* "telemetry-connected" *)
  | EvTelemetryDisconnected         (* "telemetry-disconnected" *)
  | EvDroneSelected (sysId : option N)  (* "drone-selected", detail.sysId *)
  | EvStartKmlMission               (* "start-kml-mission" *)
  | EvClearKml                      (* "clear-kml" *)
  | EvGenerateKmlPath.              (* "generate-kml-path" *)

(** ** The state shared through CesiumContext.jsx *)

Record SharedCtx := mkSharedCtx {
  kmlUploaded : bool;
  manualWaypointsCount : nat;
}.

(** ** A telemetry response body: the part the pollers look at *)

Record Snapshot := mkSnapshot {
  data_fleet : bool;      (* [data.fleet] is truthy *)
  data_body : string;     (* the rest of the object *)
}.

(** How a [fetch] of a telemetry URL settles. *)
Inductive Settled :=
  | Rejects                                  (* network error *)
  | Responds (ok : bool) (data : Snapshot).  (* [resp.ok], [await resp.json()] *)

(* ------------------------------------------------------------------ *)
(** ** MissionPlannerPanel.jsx *)
(* ------------------------------------------------------------------ *)

Module Planner.

Definition DEFAULT_ALTITUDE_M : float := 5%float.

Definition MODES : list string := ["HOLD"; "WAYPOINT"; "LOITER"; "TAKEOFF"; "LAND"].

Record Waypoint := mkWaypoint {
  id : string;
  longitude : float;
  latitude : float;
  altitude : float;
  mode : string;
}.

(** The object given to [updateWaypoint]: any subset of the fields. *)
Record Patch := mkPatch {
  p_id : option string;
  p_longitude : option float;
  p_latitude : option float;
  p_altitude : option float;
  p_mode : option string;
}.

(** [{ ...wp, ...patch }] *)
Definition spread (wp : Waypoint) (patch : Patch) : Waypoint :=
  {| id := default (id wp) (p_id patch);
     longitude := default (longitude wp) (p_longitude patch);
     latitude := default (latitude wp) (p_latitude patch);
     altitude := default (altitude wp) (p_altitude patch);
     mode := default (mode wp) (p_mode patch) |}.

Inductive PlannerMode := MANUAL | KML.

Global Instance PlannerMode_eq_dec : EqDecision PlannerMode.
Proof. solve_decision. Defined.

(** The React state of the planner panel that the handlers below touch. *)
Record Panel := mkPanel {
  addMode : bool;
  selectedIdx : option nat;
  waypoints : list Waypoint;
  missionStatus : string;
  plannerMode : PlannerMode;
  selectedDroneId : option N;
}.

(** The [useState] initial values. *)
Definition initialPanel : Panel :=
  {| addMode := false; selectedIdx := None; waypoints := [];
     missionStatus := EmptyString; plannerMode := MANUAL; selectedDroneId := None |}.

Definition setWaypoints (f : list Waypoint → list Waypoint) (s : Panel) : Panel :=
  {| addMode := addMode s; selectedIdx := selectedIdx s;
     waypoints := f (waypoints s); missionStatus := missionStatus s;
     plannerMode := plannerMode s; selectedDroneId := selectedDroneId s |}.

Definition setSelectedIdx (i : option nat) (s : Panel) : Panel :=
  {| addMode := addMode s; selectedIdx := i;
     waypoints := waypoints s; missionStatus := missionStatus s;
     plannerMode := plannerMode s; selectedDroneId := selectedDroneId s |}.

Definition setMissionStatus (m : string) (s : Panel) : Panel :=
  {| addMode := addMode s; selectedIdx := selectedIdx s;
     waypoints := waypoints s; missionStatus := m;
     plannerMode := plannerMode s; selectedDroneId := selectedDroneId s |}.

(** The tab buttons (lines 796-815) and the Add Waypoints button (line 825). *)
Definition setPlannerMode (m : PlannerMode) (s : Panel) : Panel :=
  {| addMode := addMode s; selectedIdx := selectedIdx s;
     waypoints := waypoints s; missionStatus := missionStatus s;
     plannerMode := m; selectedDroneId := selectedDroneId s |}.

Definition toggleAddMode (s : Panel) : Panel :=
  {| addMode := negb (addMode s); selectedIdx := selectedIdx s;
     waypoints := waypoints s; missionStatus := missionStatus s;
     plannerMode := plannerMode s; selectedDroneId := selectedDroneId s |}.

(** *** The waypoint store (lines 62-89) *)

(** [addWaypointAt]: [uuid] is the value [crypto.randomUUID()] returns at
    this call; [alt] is [None] when the argument is left out. *)
Definition addWaypointAt (uuid : string) (lng lat : float) (alt : option float)
    (s : Panel) : Panel :=
  setWaypoints (λ prev,
    prev ++ [ {| id := uuid; longitude := lng; latitude := lat;
                 altitude := default DEFAULT_ALTITUDE_M alt;
                 mode := "WAYPOINT" |} ]) s.

(** [prev.map((wp, i) => (i === idx ? { ...wp, ...patch } : wp))] *)
Definition updateWaypoint (idx : nat) (patch : Patch) (s : Panel) : Panel :=
  setWaypoints (imap (λ i wp, if decide (i = idx) then spread wp patch else wp)) s.

(** [arr.filter((x, i) => f(x, i))], with the index of the head in [i]. *)
Fixpoint filter_with_index {A} (f : A → nat → bool) (i : nat) (l : list A) : list A :=
  match l with
  | [] => []
  | x :: l' =>
      if f x i then x :: filter_with_index f (S i) l'
      else filter_with_index f (S i) l'
  end.

(** [prev.filter((_, i) => i !== idx)], then the selection is dropped when
    it was on [idx]. *)
Definition removeWaypoint (idx : nat) (s : Panel) : Panel :=
  let s1 := setWaypoints (filter_with_index (λ _ i, negb (bool_decide (i = idx))) 0) s in
  if decide (selectedIdx s = Some idx) then setSelectedIdx None s1 else s1.

Definition clearWaypoints (s : Panel) : Panel :=
  setSelectedIdx None (setWaypoints (λ _, []) s).

(** *** Pointer interaction (lines 51-60 and 442-452) *)

Record Degrees := mkDegrees {
  deg_longitude : float;
  deg_latitude : float;
  deg_altitude : float;
}.

Section Interaction.
Context `{CesiumAPI}.

Definition toDegrees (cartesian : option Cartesian3) : option Degrees :=
  match cartesian with
  | None => None
  | Some c =>
      match cartesianToCartographic c with
      | None => None
      | Some carto =>
          Some {| deg_longitude := mathToDegrees (carto_longitude carto);
                  deg_latitude := mathToDegrees (carto_latitude carto);
                  deg_altitude := float_or_zero (carto_height carto) |}
      end
  end.

(** The LEFT_CLICK action; [uuid] is what [crypto.randomUUID()] returns
    if the handler gets as far as calling it. *)
Definition leftClickFn (uuid : string) (click : ScreenPos) (s : Panel) : Panel :=
  if (negb (addMode s) || negb (bool_decide (plannerMode s = MANUAL)))%bool then s
  else
    match pickEllipsoid click with
    | None => s
    | Some pos =>
        match toDegrees (Some pos) with
        | None => s
        | Some deg =>
            addWaypointAt uuid (deg_longitude deg) (deg_latitude deg)
              (Some DEFAULT_ALTITUDE_M) s
        end
    end.
End Interaction.

(** *** Manual mission upload (lines 535-576) *)

(** The fields the handler reads from a parsed response body. *)
Record JsonBody := mkJsonBody {
  detail : option string;          (* [err.detail] *)
  summary_auto_started : bool;     (* [data?.summary?.auto_started] is truthy *)
}.

(** How the POST to [/mission/manual] settles. *)
Inductive PostOutcome :=
  | PostRejects (message : string) (asString : string)
      (* [fetch] throws [e]: [e.message] and [String(e)] *)
  | PostResponds (ok : bool) (body : option JsonBody).
      (* [resp.ok]; [body = None] when [resp.json()] rejects *)

Record RequestBody := mkRequestBody {
  rb_waypoints : list Waypoint;
  rb_speed : nat;
  rb_end_action : string;
  rb_sys_id : option N;   (* the key is only set when a drone is selected *)
}.

Inductive UiCall :=
  | Alert (msg : string)
  | PostManualMission (body : RequestBody).

Definition handleStartMission (outcome : PostOutcome) (s : Panel) : Panel * list UiCall :=
  match waypoints s with
  | [] => (s, [Alert "Add at least one waypoint"])
  | _ :: _ =>
      let s1 := setMissionStatus "Uploading mission..." s in
      let requestBody :=
        {| rb_waypoints := waypoints s; rb_speed := 5; rb_end_action := "RTL";
           rb_sys_id := if truthy_id (selectedDroneId s) then selectedDroneId s else None |} in
      match outcome with
      | PostResponds true body =>
          let started :=
            match body with
            | Some data => if summary_auto_started data then " and started" else EmptyString
            | None => EmptyString
            end in
          (setMissionStatus ("Manual mission uploaded" +:+ started +:+ ".") s1,
           [PostManualMission requestBody; Alert "Manual mission uploaded."])
      | PostResponds false body =>
          (* throw new Error(err.detail || "Failed to start manual mission") *)
          let thrown := string_or (body ≫= detail) "Failed to start manual mission" in
          (* e?.message || String(e) *)
          let msg := string_or (Some thrown) ("Error: " +:+ thrown) in
          (setMissionStatus msg s1, [PostManualMission requestBody; Alert msg])
      | PostRejects message asString =>
          let msg := string_or (Some message) asString in
          (setMissionStatus msg s1, [PostManualMission requestBody; Alert msg])
      end
  end.

(** The upload failed: the request threw or the response was not OK. *)
Definition upload_failed (outcome : PostOutcome) : Prop :=
  match outcome with
  | PostResponds true _ => False
  | _ => True
  end.

(** The detail text of the backend's error response, when it sent one. *)
Definition backend_detail (outcome : PostOutcome) : option string :=
  match outcome with
  | PostResponds false (Some b) => detail b
  | _ => None
  end.

(** *** Unified Start / Clear (lines 578-598) *)

Definition canStart (ctx : SharedCtx) (s : Panel) : bool :=
  (bool_decide (plannerMode s = MANUAL) && bool_decide (0 < length (waypoints s)))
  || (bool_decide (plannerMode s = KML) && kmlUploaded ctx).

Inductive StartAction :=
  | DispatchEvent (e : WindowEvent)
  | CallHandleStartMission.

Definition handleUnifiedStart (s : Panel) : StartAction :=
  if bool_decide (plannerMode s = KML) then DispatchEvent EvStartKmlMission
  else CallHandleStartMission.

(** The Start button: [disabled={!canStart}], [onClick={handleUnifiedStart}]. *)
Definition clickStart (ctx : SharedCtx) (s : Panel) : option StartAction :=
  if canStart ctx s then Some (handleUnifiedStart s) else None.

(** The Generate Path button of the KML tab: [disabled={!kmlUploaded}]. *)
Definition clickGeneratePath (ctx : SharedCtx) (s : Panel) : option StartAction :=
  if (bool_decide (plannerMode s = KML) && kmlUploaded ctx)%bool
  then Some (DispatchEvent EvGenerateKmlPath) else None.

(** *** Entity reconciliation (lines 31-37 and 317-428) *)

(** [s.toUpperCase()] on the ASCII letters. *)
Definition upper_ascii (c : ascii) : ascii :=
  let n := nat_of_ascii c in
  if (bool_decide (97 ≤ n) && bool_decide (n ≤ 122))%bool then ascii_of_nat (n - 32) else c.

Fixpoint toUpperCase (s : string) : string :=
  match s with
  | EmptyString => EmptyString
  | String c s' => String (upper_ascii c) (toUpperCase s')
  end.

(** [wp.mode === "WAYPOINT" ? "WP" : wp.mode.substring(0, 2).toUpperCase()] *)
Definition abbrev (m : string) : string :=
  if decide (m = "WAYPOINT") then "WP" else toUpperCase (substring 0 2 m).

Inductive HeightReference := HR_NONE | CLAMP_TO_GROUND | RELATIVE_TO_GROUND.

Record PointGraphics := mkPointGraphics {
  pixelSize : nat;
  heightReference : HeightReference;
}.

Record LabelGraphics := mkLabelGraphics {
  text : string;
}.

(** Handles of the viewer's entities, in creation order, and the calls
    made on [viewer.entities]. *)
Inductive EntityCall :=
  | EntitiesAdd (h : nat)
  | EntitiesRemove (h : nat).

(** [entitiesRef.current]: the arrays hold entity objects, here their handles. *)
Record EntitiesRef := mkEntitiesRef {
  points : list nat;
  polyline : option nat;
  yellowSegments : list nat;
}.

Definition emptyEntitiesRef : EntitiesRef :=
  {| points := []; polyline := None; yellowSegments := [] |}.

(** [Math.max(0, waypoints.length - 1)] *)
Definition neededSegments (wps : list Waypoint) : nat :=
  Z.to_nat (Z.max 0 (Z.of_nat (length wps) - 1)).

(** [arr.pop()]: the last element, [undefined] on an empty array. *)
Definition pop (arr : list nat) : option nat * list nat :=
  (last arr, take (length arr - 1) arr).

Inductive StoreOp :=
  | OpAdd (uuid : string) (lng lat : float) (alt : option float)
  | OpUpdate (idx : nat) (patch : Patch)
  | OpRemove (idx : nat)
  | OpClear.

Definition applyOp (op : StoreOp) (s : Panel) : Panel :=
  match op with
  | OpAdd uuid lng lat alt => addWaypointAt uuid lng lat alt s
  | OpUpdate idx patch => updateWaypoint idx patch s
  | OpRemove idx => removeWaypoint idx s
  | OpClear => clearWaypoints s
  end.

Section Reconciliation.
Context `{CesiumAPI}.

(** A polyline's [positions]: an array, or the [CallbackProperty] of the
    mission path, which maps the waypoints its closure captured. *)
Inductive Positions :=
  | PositionList (l : list Cartesian3)
  | CallbackProperty (captured : list Waypoint).

Record PolylineGraphics := mkPolylineGraphics {
  positions : Positions;
  width : nat;
  material : string;
}.

(** A Cesium entity, with the properties this panel sets. *)
Record Entity := mkEntity {
  ent_name : string;
  ent_position : option Cartesian3;
  ent_point : option PointGraphics;
  ent_label : option LabelGraphics;
  ent_polyline : option PolylineGraphics;
}.

(** The viewer: the entity objects that were created ([objects], by
    handle), the collection [viewer.entities] and a log of the calls made
    on it. *)
Record Viewer := mkViewer {
  objects : gmap nat Entity;
  entities : list nat;
  nextEntity : nat;
  calls : list EntityCall;
}.

(** [viewer.entities.add(options)] *)
Definition entities_add (e : Entity) (v : Viewer) : nat * Viewer :=
  let h := nextEntity v in
  (h, {| objects := <[h := e]> (objects v);
         entities := entities v ++ [h];
         nextEntity := S h;
         calls := calls v ++ [EntitiesAdd h] |}).

(** [viewer.entities.remove(ent)]; [remove(undefined)] does nothing. *)
Definition entities_remove (ent : option nat) (v : Viewer) : Viewer :=
  match ent with
  | None => v
  | Some h =>
      {| objects := objects v;
         entities := filter (λ x, x ≠ h) (entities v);
         nextEntity := nextEntity v;
         calls := calls v ++ [EntitiesRemove h] |}
  end.

(** An assignment to a property of the entity object [h]. *)
Definition store (h : nat) (e : Entity) (v : Viewer) : Viewer :=
  {| objects := <[h := e]> (objects v);
     entities := entities v;
     nextEntity := nextEntity v;
     calls := calls v |}.

Record Scene := mkScene {
  viewer : option Viewer;
  entitiesRef : EntitiesRef;
  ctx : SharedCtx;
}.

(** [Cesium.Cartesian3.fromDegrees(wp.longitude, wp.latitude, 0)] *)
Definition groundPosition (wp : Waypoint) : Cartesian3 :=
  fromDegrees (longitude wp) (latitude wp) 0%float.

(** [while (arr.length > needed) { const ent = arr.pop();
    viewer.entities.remove(ent); }], the loop of lines 347-350 and of
    lines 376-379.  [fuel] bounds the iterations. *)
Fixpoint trimEntities (fuel needed : nat) (v : Viewer) (arr : list nat)
    : Viewer * list nat :=
  match fuel with
  | 0 => (v, arr)
  | S fuel' =>
      if decide (needed < length arr) then
        let '(ent, arr') := pop arr in
        trimEntities fuel' needed (entities_remove ent v) arr'
      else (v, arr)
  end.

Definition segmentOptions (n : nat) : Entity :=
  {| ent_name := "Segment-" +:+ pretty n;
     ent_position := None; ent_point := None; ent_label := None;
     ent_polyline := Some {| positions := PositionList [];
                             width := 4; material := "#FFD700" |} |}.

(** [while (segs.length < needed) { ... segs.push(ent); }] *)
Fixpoint growSegments (fuel needed : nat) (v : Viewer) (segs : list nat)
    : Viewer * list nat :=
  match fuel with
  | 0 => (v, segs)
  | S fuel' =>
      if decide (length segs < needed) then
        let '(ent, v') := entities_add (segmentOptions (length segs)) v in
        growSegments fuel' needed v' (segs ++ [ent])
      else (v, segs)
  end.

(** [ent.polyline.positions = ps]; a TypeError without a polyline. *)
Definition setPolylinePositions (ps : Positions) (e : Entity) : option Entity :=
  pl ← ent_polyline e;
  Some {| ent_name := ent_name e; ent_position := ent_position e;
          ent_point := ent_point e; ent_label := ent_label e;
          ent_polyline := Some {| positions := ps; width := width pl;
                                  material := material pl |} |}.

(** [for (let i = ...; i < needed; i++)] with [n] iterations left.
    [None] is a TypeError (a property read on [undefined]). *)
Fixpoint updateSegments (n i : nat) (wps : list Waypoint) (segs : list nat)
    (v : Viewer) : option Viewer :=
  match n with
  | 0 => Some v
  | S n' =>
      a ← wps !! i;
      b ← wps !! (i + 1);
      h ← segs !! i;
      e ← objects v !! h;
      e' ← setPolylinePositions (PositionList [groundPosition a; groundPosition b]) e;
      updateSegments n' (S i) wps segs (store h e' v)
  end.

Definition syncYellowSegments (wps : list Waypoint) (v : Viewer) (r : EntitiesRef)
    : option (Viewer * EntitiesRef) :=
  let segs := yellowSegments r in
  let needed := neededSegments wps in
  let '(v1, segs1) := trimEntities (length segs) needed v segs in
  let '(v2, segs2) := growSegments needed needed v1 segs1 in
  v3 ← updateSegments needed 0 wps segs2 v2;
  Some (v3, {| points := points r; polyline := polyline r; yellowSegments := segs2 |}).

Definition pointOptions (newIdx : nat) (wp : Waypoint) : Entity :=
  {| ent_name := "WP-" +:+ pretty (newIdx + 1);
     ent_position := Some (groundPosition wp);
     ent_point := Some {| pixelSize := 10; heightReference := CLAMP_TO_GROUND |};
     ent_label := Some {| text := pretty (newIdx + 1) |};
     ent_polyline := None |}.

(** [while (points.length < waypoints.length) { ... points.push(ent); }] *)
Fixpoint growPoints (fuel : nat) (wps : list Waypoint) (v : Viewer) (pts : list nat)
    : option (Viewer * list nat) :=
  match fuel with
  | 0 => Some (v, pts)
  | S fuel' =>
      if decide (length pts < length wps) then
        let newIdx := length pts in
        wp ← wps !! newIdx;
        let '(ent, v') := entities_add (pointOptions newIdx wp) v in
        growPoints fuel' wps v' (pts ++ [ent])
      else Some (v, pts)
  end.

(** The body of [points.forEach((ent, i) => ...)] on the object of [ent]. *)
Definition refreshPoint (i : nat) (wp : Waypoint) (e : Entity) : Entity :=
  {| ent_name := ent_name e;
     ent_position := Some (groundPosition wp);
     ent_point :=
       (λ pt, {| pixelSize := pixelSize pt; heightReference := CLAMP_TO_GROUND |})
         <$> ent_point e;
     ent_label :=
       (λ _, {| text := pretty (i + 1) +:+ " " +:+ abbrev (mode wp) |})
         <$> ent_label e;
     ent_polyline := ent_polyline e |}.

Fixpoint forEachPoint (i : nat) (wps : list Waypoint) (pts : list nat) (v : Viewer)
    : option Viewer :=
  match pts with
  | [] => Some v
  | h :: rest =>
      wp ← wps !! i;
      e ← objects v !! h;
      forEachPoint (S i) wps rest (store h (refreshPoint i wp e) v)
  end.

(** Lines 324-341: the mission path is created once; its positions are a
    callback over the waypoints of the render that created it. *)
Definition ensurePolyline (wps : list Waypoint) (v : Viewer) (r : EntitiesRef)
    : Viewer * EntitiesRef :=
  match polyline r with
  | Some _ => (v, r)
  | None =>
      let '(h, v') :=
        entities_add
          {| ent_name := "Mission Path"; ent_position := None;
             ent_point := None; ent_label := None;
             ent_polyline := Some {| positions := CallbackProperty wps;
                                     width := 3; material := "#00FF88" |} |} v in
      (v', {| points := points r; polyline := Some h;
              yellowSegments := yellowSegments r |})
  end.

(** The effect of lines 318-428, run when [waypoints] changed.  [None]
    stands for a TypeError thrown by the body. *)
Definition waypointEffect (wps : list Waypoint) (sc : Scene) : option Scene :=
  match viewer sc with
  | None => Some sc
  | Some v =>
      let ctx' := {| kmlUploaded := kmlUploaded (ctx sc);
                     manualWaypointsCount := length wps |} in
      let '(v0, r0) := ensurePolyline wps v (entitiesRef sc) in
      '(v1, r1) ← syncYellowSegments wps v0 r0;
      let '(v2, pts2) := trimEntities (length (points r1)) (length wps) v1 (points r1) in
      '(v3, pts3) ← growPoints (length wps) wps v2 pts2;
      v4 ← forEachPoint 0 wps pts3 v3;
      Some {| viewer := Some v4;
              entitiesRef := {| points := pts3; polyline := polyline r1;
                                yellowSegments := yellowSegments r1 |};
              ctx := ctx' |}
  end.

(** The panel with its scene; a store operation is followed by the
    effect, as React runs it after the render that the update causes. *)
Record App := mkApp {
  panel : Panel;
  scene : Scene;
}.

Definition commit (op : StoreOp) (a : App) : option App :=
  let p := applyOp op (panel a) in
  sc ← waypointEffect (waypoints p) (scene a);
  Some {| panel := p; scene := sc |}.

Fixpoint run (ops : list StoreOp) (a : App) : option App :=
  match ops with
  | [] => Some a
  | op :: ops' => a' ← commit op a; run ops' a'
  end.

(** The panel mounts on a viewer [v]: empty store, empty refs, and the
    first run of the effect. *)
Definition mountApp (v : Viewer) (c : SharedCtx) : option App :=
  sc ← waypointEffect [] {| viewer := Some v; entitiesRef := emptyEntitiesRef; ctx := c |};
  Some {| panel := initialPanel; scene := sc |}.

(** The handles [hs] are pairwise distinct, were handed out by the
    viewer, and are in its collection. *)
Definition owned (v : Viewer) (hs : list nat) : Prop :=
  NoDup hs
  ∧ ∀ h, h ∈ hs → h < nextEntity v ∧ h ∈ entities v ∧ is_Some (objects v !! h).

Definition has_polyline (v : Viewer) (h : nat) : Prop :=
  ∃ e, objects v !! h = Some e ∧ is_Some (ent_polyline e).

(** The entity table is well formed: the viewer owns the handles the
    refs hold, and the segment entities have a polyline. *)
Definition table_wf (v : Viewer) (r : EntitiesRef) : Prop :=
  owned v (points r ++ yellowSegments r)
  ∧ ∀ h, h ∈ yellowSegments r → has_polyline v h.

Definition scene_wf (sc : Scene) : Prop :=
  ∃ v, viewer sc = Some v ∧ table_wf v (entitiesRef sc).

(** Marker [i] shows waypoint [i]: the object is a fixed point of the
    refresh. *)
Definition points_synced (wps : list Waypoint) (v : Viewer) (pts : list nat) : Prop :=
  length pts = length wps
  ∧ ∀ i wp h, wps !! i = Some wp → pts !! i = Some h →
      ∃ e, objects v !! h = Some e ∧ refreshPoint i wp e = e.

(** Segment [i] joins waypoints [i] and [i+1]. *)
Definition segments_synced (wps : list Waypoint) (v : Viewer) (segs : list nat) : Prop :=
  length segs = neededSegments wps
  ∧ ∀ i a b h, wps !! i = Some a → wps !! (i + 1) = Some b → segs !! i = Some h →
      ∃ e, objects v !! h = Some e
           ∧ setPolylinePositions (PositionList [groundPosition a; groundPosition b]) e
             = Some e.

(** The state a completed pass leaves for the waypoint list [wps]. *)
Definition reconciled (wps : list Waypoint) (sc : Scene) : Prop :=
  ∃ v, viewer sc = Some v
       ∧ table_wf v (entitiesRef sc)
       ∧ points_synced wps v (points (entitiesRef sc))
       ∧ segments_synced wps v (yellowSegments (entitiesRef sc))
       ∧ is_Some (polyline (entitiesRef sc))
       ∧ manualWaypointsCount (ctx sc) = length wps.
End Reconciliation.

(** *** The selected drone (lines 104-127) *)

Definition setSelectedDroneId (i : option N) (s : Panel) : Panel :=
  {| addMode := addMode s; selectedIdx := selectedIdx s;
     waypoints := waypoints s; missionStatus := missionStatus s;
     plannerMode := plannerMode s; selectedDroneId := i |}.

(** The listener of "drone-selected": [if (!mounted) return;
    setSelectedDroneId(event.detail?.sysId || null)], with the [mounted]
    flag of the polling effect.  Other events do not reach it. *)
Definition handleDroneSelection (mounted : bool) (e : WindowEvent) (s : Panel) : Panel :=
  match e with
  | EvDroneSelected sysId =>
      if negb mounted then s
      else setSelectedDroneId (if truthy_id sysId then sysId else None) s
  | _ => s
  end.

(** The events of one dispatch round, as the panel's listener gets them. *)
Definition deliver (mounted : bool) (es : list WindowEvent) (s : Panel) : Panel :=
  foldl (λ s e, handleDroneSelection mounted e s) s es.

(** *** Teardown (lines 505-531) *)

Section Teardown.
Context `{CesiumAPI}.

(** The handles [entitiesRef.current] holds. *)
Definition held (r : EntitiesRef) : list nat :=
  points r ++ yellowSegments r ++ option_list (polyline r).

(** [arr.forEach((e) => viewer.entities.remove(e))] *)
Definition removeEach (arr : list nat) (v : Viewer) : Viewer :=
  foldl (λ v e, entities_remove (Some e) v) v arr.

(** The cleanup of the effect on [viewer]; [handlerRef] tells whether the
    ScreenSpaceEventHandler exists, and is [false] (null) afterwards. *)
Definition unmountCleanup (sc : Scene) (handlerRef : bool) : Scene * bool :=
  (match viewer sc with
   | None => sc
   | Some v =>
       let r := entitiesRef sc in
       let v1 := entities_remove (polyline r) v in
       let v2 := removeEach (yellowSegments r) v1 in
       let v3 := removeEach (points r) v2 in
       {| viewer := Some v3; entitiesRef := emptyEntitiesRef; ctx := ctx sc |}
   end,
   false).

(** The viewer's collection is what it was at mount ([before]) plus the
    handles [hs], and those were all created after the mount. *)
Definition tracks (before : Viewer) (v : Viewer) (hs : list nat) : Prop :=
  nextEntity before ≤ nextEntity v
  ∧ NoDup hs
  ∧ (∀ h, h ∈ hs → nextEntity before ≤ h < nextEntity v)
  ∧ (∀ h, h ∈ entities v ↔ h ∈ entities before ∨ h ∈ hs).

Definition collection_is (before : Viewer) (v : Viewer) (r : EntitiesRef) : Prop :=
  tracks before v (held r).

(** The handles in a viewer's collection were handed out by its counter. *)
Definition viewer_consistent (v : Viewer) : Prop :=
  ∀ h, h ∈ entities v → h < nextEntity v.

(** What the viewer renders for the panel: the entries of the collection
    that were added after the viewer was in the state [before], each as
    often as the collection holds it. *)
Definition created (before v : Viewer) : list nat :=
  filter (λ h, nextEntity before ≤ h) (entities v).

(** A waypoint marker is an entity with a point graphics (lines 383-399);
    a yellow segment is an entity without one whose polyline has the
    material of line 358. *)
Definition isMarker (e : Entity) : bool := bool_decide (is_Some (ent_point e)).

Definition isYellowSegment (e : Entity) : bool :=
  match ent_point e, ent_polyline e with
  | None, Some pl => bool_decide (material pl = "#FFD700")
  | _, _ => false
  end.

(** The entity object of handle [h] is of the kind [P]. *)
Definition kindAt (P : Entity → bool) (v : Viewer) (h : nat) : bool :=
  from_option P false (objects v !! h).

Definition renderedMarkers (before v : Viewer) : list nat :=
  filter (λ h, kindAt isMarker v h = true) (created before v).

Definition renderedSegments (before v : Viewer) : list nat :=
  filter (λ h, kindAt isYellowSegment v h = true) (created before v).

(** The viewer hands out fresh handles and holds no entity added since
    [before] twice. *)
Definition fresh_ok (before v : Viewer) : Prop :=
  nextEntity before ≤ nextEntity v
  ∧ viewer_consistent v
  ∧ NoDup (created before v).

(** The refs hold markers in [points], yellow segments in [yellowSegments]
    and an entity that is neither in [polyline]. *)
Definition kinds_ok (v : Viewer) (r : EntitiesRef) : Prop :=
  (∀ h, h ∈ points r → h < nextEntity v ∧ kindAt isMarker v h = true)
  ∧ (∀ h, h ∈ yellowSegments r → h < nextEntity v ∧ kindAt isYellowSegment v h = true)
  ∧ (∀ h, polyline r = Some h →
       h < nextEntity v ∧ kindAt isMarker v h = false
       ∧ kindAt isYellowSegment v h = false).

Definition rendered_ok (before v : Viewer) (r : EntitiesRef) : Prop :=
  fresh_ok before v ∧ kinds_ok v r.
End Teardown.

(** *** Selecting and dragging a marker (lines 38 and 454-488) *)

(** [dragStateRef.current] *)
Record DragState := mkDragState {
  dragging : bool;
  idx : option nat;
}.

(** The drag state and
    [viewer.scene.screenSpaceCameraController.enableRotate]. *)
Record Pointer := mkPointer {
  dragStateRef : DragState;
  enableRotate : bool;
}.

Definition initialPointer : Pointer :=
  {| dragStateRef := {| dragging := false; idx := None |}; enableRotate := true |}.

(** [arr.findIndex((e) => e === h)]; [None] for -1. *)
Definition findIndex (h : nat) (arr : list nat) : option nat :=
  fst <$> list_find (λ e, e = h) arr.

(** LEFT_DOWN.  [picked] is the entity [viewer.scene.pick(click.position)]
    reports in [picked.id], if any; [pts] is [entitiesRef.current.points]. *)
Definition leftDownFn (picked : option nat) (pts : list nat) (st : Panel * Pointer)
    : Panel * Pointer :=
  if (addMode st.1 || negb (bool_decide (plannerMode st.1 = MANUAL)))%bool then st
  else
    match picked with
    | None => st
    | Some pickedId =>
        match findIndex pickedId pts with
        | Some i =>
            (setSelectedIdx (Some i) st.1,
             {| dragStateRef := {| dragging := true; idx := Some i |};
                enableRotate := false |})
        | None => st
        end
    end.

(** LEFT_UP *)
Definition leftUpFn (st : Panel * Pointer) : Panel * Pointer :=
  if dragging (dragStateRef st.2) then
    (st.1, {| dragStateRef := {| dragging := false; idx := None |};
              enableRotate := true |})
  else st.

Section Dragging.
Context `{CesiumAPI}.

(** MOUSE_MOVE, with [movement.endPosition]. *)
Definition mouseMoveFn (endPosition : ScreenPos) (st : Panel * Pointer)
    : Panel * Pointer :=
  if (negb (dragging (dragStateRef st.2))
      || negb (bool_decide (plannerMode st.1 = MANUAL)))%bool then st
  else
    match idx (dragStateRef st.2) with
    | None => st
    | Some i =>
        match pickEllipsoid endPosition with
        | None => st
        | Some cart =>
            match toDegrees (Some cart) with
            | None => st
            | Some deg =>
                (updateWaypoint i
                   {| p_id := None; p_longitude := Some (deg_longitude deg);
                      p_latitude := Some (deg_latitude deg);
                      p_altitude := None; p_mode := None |} st.1,
                 st.2)
            end
        end
    end.

(** What reaches the panel's input handlers, and the two buttons that
    change what the handlers do.  A press carries the picked entity and the
    marker array of that moment. *)
Inductive PointerEvent :=
  | LeftClick (uuid : string) (position : ScreenPos)
  | LeftDown (picked : option nat) (pts : list nat)
  | MouseMove (endPosition : ScreenPos)
  | LeftUp
  | AddButton
  | TabButton (m : PlannerMode).

Definition pointerStep (st : Panel * Pointer) (e : PointerEvent) : Panel * Pointer :=
  match e with
  | LeftClick uuid position => (leftClickFn uuid position st.1, st.2)
  | LeftDown picked pts => leftDownFn picked pts st
  | MouseMove endPosition => mouseMoveFn endPosition st
  | LeftUp => leftUpFn st
  | AddButton => (toggleAddMode st.1, st.2)
  | TabButton m => (setPlannerMode m st.1, st.2)
  end.
End Dragging.

(** *** Telemetry polling (lines 106-315) *)

(** What the polling effect keeps: its locals [mounted], [connectedRef],
    [interval], the ref [telemetryFetchControllerRef], and the React state
    [telemetry] and [hasActiveConnection].  AbortControllers are numbered in
    creation order; [aborted] holds those on which [abort()] was called.  A
    callback of the interval waits twice: [inflight] holds the requests
    whose [await fetch] has not resumed, [reading] those that passed the
    test of line 203 and wait in [await resp.json()]. *)
Record Poller := mkPoller {
  mounted : bool;
  connectedRef : bool;
  interval : bool;
  fetchControllerRef : option nat;
  nextController : nat;
  aborted : list nat;
  inflight : list nat;
  reading : list nat;
  telemetry : option Snapshot;
  hasActiveConnection : bool;
}.

(** How [await fetch(url, {signal})] resumes: it throws, or it gives a
    response with its [ok] flag. *)
Inductive Arrival :=
  | FetchRejects
  | FetchResponds (ok : bool).

Inductive PollEvent :=
  | TimerFires                            (* the [setInterval] callback starts *)
  | FetchSettles (c : nat) (r : Arrival)  (* [await fetch] of controller [c] resumes *)
  | BodySettles (c : nat) (body : option Snapshot)
      (* [await resp.json()] of controller [c] resumes; [None] when it throws *)
  | OnConnected                           (* "telemetry-connected" *)
  | OnDisconnected                        (* "telemetry-disconnected" *)
  | Cleanup.                              (* the effect's cleanup *)

Definition stopPolling (p : Poller) : Poller :=
  {| mounted := mounted p; connectedRef := connectedRef p;
     interval := false;
     fetchControllerRef := None;
     nextController := nextController p;
     aborted := match fetchControllerRef p with
                | Some c => c :: aborted p
                | None => aborted p
                end;
     inflight := inflight p; reading := reading p; telemetry := telemetry p;
     hasActiveConnection := hasActiveConnection p |}.

Definition startPolling (p : Poller) : Poller :=
  {| mounted := mounted p; connectedRef := connectedRef p;
     interval := true;
     fetchControllerRef := fetchControllerRef p;
     nextController := nextController p; aborted := aborted p;
     inflight := inflight p; reading := reading p; telemetry := telemetry p;
     hasActiveConnection := hasActiveConnection p |}.

Definition setTelemetry (t : option Snapshot) (p : Poller) : Poller :=
  {| mounted := mounted p; connectedRef := connectedRef p;
     interval := interval p; fetchControllerRef := fetchControllerRef p;
     nextController := nextController p; aborted := aborted p;
     inflight := inflight p; reading := reading p; telemetry := t;
     hasActiveConnection := hasActiveConnection p |}.

(** The interval callback up to [await fetch] (lines 176-202). *)
Definition timerFires (p : Poller) : Poller :=
  if negb (interval p) then p
  else if (negb (connectedRef p) || negb (mounted p))%bool then p
  else
    let nextCtl := nextController p in
    {| mounted := mounted p; connectedRef := connectedRef p;
       interval := interval p;
       fetchControllerRef := Some nextCtl;
       nextController := S nextCtl;
       aborted := aborted p;
       inflight := inflight p ++ [nextCtl];
       reading := reading p;
       telemetry := telemetry p;
       hasActiveConnection := hasActiveConnection p |}.

(** The request of controller [c] leaves [inflight]; with [reads], it goes
    on to read the body. *)
Definition settle (c : nat) (reads : bool) (p : Poller) : Poller :=
  {| mounted := mounted p; connectedRef := connectedRef p;
     interval := interval p; fetchControllerRef := fetchControllerRef p;
     nextController := nextController p; aborted := aborted p;
     inflight := filter (λ x, x ≠ c) (inflight p);
     reading := if reads then reading p ++ [c] else reading p;
     telemetry := telemetry p;
     hasActiveConnection := hasActiveConnection p |}.

(** The callback from [await fetch] to [await resp.json()] (lines 200-205).
    A request whose controller was aborted rejects with an AbortError,
    which the [catch] only logs. *)
Definition fetchSettles (c : nat) (r : Arrival) (p : Poller) : Poller :=
  if bool_decide (c ∈ inflight p) then
    if bool_decide (c ∈ aborted p) then settle c false p
    else
      match r with
      | FetchRejects => settle c false p
      | FetchResponds ok =>
          if (negb (mounted p) || negb (connectedRef p))%bool then settle c false p
          else settle c ok p
      end
  else p.

(** The body of controller [c] is read. *)
Definition bodyRead (c : nat) (p : Poller) : Poller :=
  {| mounted := mounted p; connectedRef := connectedRef p;
     interval := interval p; fetchControllerRef := fetchControllerRef p;
     nextController := nextController p; aborted := aborted p;
     inflight := inflight p;
     reading := filter (λ x, x ≠ c) (reading p);
     telemetry := telemetry p;
     hasActiveConnection := hasActiveConnection p |}.

(** The callback from [await resp.json()] on (lines 205-221): nothing is
    tested but [data.fleet].  Reading the body of an aborted request
    rejects with an AbortError. *)
Definition bodySettles (c : nat) (body : option Snapshot) (p : Poller) : Poller :=
  if bool_decide (c ∈ reading p) then
    if bool_decide (c ∈ aborted p) then bodyRead c p
    else
      match body with
      | None => bodyRead c p
      | Some data =>
          if negb (data_fleet data) then setTelemetry (Some data) (bodyRead c p)
          else bodyRead c p
      end
  else p.

Definition onConnected (p : Poller) : Poller :=
  if negb (mounted p) then p
  else
    startPolling
      {| mounted := mounted p; connectedRef := true;
         interval := interval p; fetchControllerRef := fetchControllerRef p;
         nextController := nextController p; aborted := aborted p;
         inflight := inflight p; reading := reading p; telemetry := telemetry p;
         hasActiveConnection := true |}.

Definition onDisconnected (p : Poller) : Poller :=
  if negb (mounted p) then p
  else
    stopPolling
      {| mounted := mounted p; connectedRef := false;
         interval := interval p; fetchControllerRef := fetchControllerRef p;
         nextController := nextController p; aborted := aborted p;
         inflight := inflight p; reading := reading p; telemetry := None;
         hasActiveConnection := false |}.

Definition cleanup (p : Poller) : Poller :=
  stopPolling
    {| mounted := false; connectedRef := connectedRef p;
       interval := interval p; fetchControllerRef := fetchControllerRef p;
       nextController := nextController p; aborted := aborted p;
       inflight := inflight p; reading := reading p; telemetry := telemetry p;
       hasActiveConnection := hasActiveConnection p |}.

Definition pollStep (p : Poller) (e : PollEvent) : Poller :=
  match e with
  | TimerFires => timerFires p
  | FetchSettles c r => fetchSettles c r p
  | BodySettles c body => bodySettles c body p
  | OnConnected => onConnected p
  | OnDisconnected => onDisconnected p
  | Cleanup => cleanup p
  end.

(** The effect as it stands after its body has run: mounted, and
    [onDisconnected()] called once ("Ensure we start disconnected"). *)
Definition initialPoller : Poller :=
  {| mounted := true; connectedRef := false; interval := false;
     fetchControllerRef := None; nextController := 0; aborted := [];
     inflight := []; reading := []; telemetry := None;
     hasActiveConnection := false |}.

Definition pollRun (es : list PollEvent) : Poller := foldl pollStep initialPoller es.



End Planner.

(* ------------------------------------------------------------------ *)
(** ** TelemetryOverlay.jsx *)
(* ------------------------------------------------------------------ *)

Module Overlay.

Record DroneSummary := mkDroneSummary {
  latitude_deg : float;
  longitude_deg : float;
  flight_mode : string;
}.

(** The body of [GET /fleet/status].  The keys of [fleet] are system ids;
    [fleet = None] when the field is missing. *)
Record FleetData := mkFleetData {
  count : nat;
  fleet : option (gmap N DroneSummary);
}.

(** [Object.keys(obj)] of an object whose keys are all integer indices:
    JavaScript lists such keys in ascending numeric order.  [parseInt] of
    such a key is the number itself. *)
Definition Object_keys {A} (obj : gmap N A) : list N :=
  merge_sort N.le (map_to_list obj).*1.

Record Overlay := mkOverlay {
  isConnected : bool;
  multiConnectionMode : bool;
  fleetStatus : option FleetData;
  selectedDroneId : option N;
  uploadedKmlFile : option string;   (* the File, by name *)
  isGeneratingPath : bool;
  telemetry : option Snapshot;
  (* requests of [fetchTelemetry] that have not settled, numbered by tick *)
  nextRequest : nat;
  pending : list nat;
}.

Definition initialOverlay : Overlay :=
  {| isConnected := false; multiConnectionMode := false; fleetStatus := None;
     selectedDroneId := None; uploadedKmlFile := None; isGeneratingPath := false;
     telemetry := None; nextRequest := 0; pending := [] |}.

Definition setFleetStatus (f : option FleetData) (o : Overlay) : Overlay :=
  {| isConnected := isConnected o; multiConnectionMode := multiConnectionMode o;
     fleetStatus := f; selectedDroneId := selectedDroneId o;
     uploadedKmlFile := uploadedKmlFile o; isGeneratingPath := isGeneratingPath o;
     telemetry := telemetry o; nextRequest := nextRequest o; pending := pending o |}.

Definition setSelectedDroneId (i : option N) (o : Overlay) : Overlay :=
  {| isConnected := isConnected o; multiConnectionMode := multiConnectionMode o;
     fleetStatus := fleetStatus o; selectedDroneId := i;
     uploadedKmlFile := uploadedKmlFile o; isGeneratingPath := isGeneratingPath o;
     telemetry := telemetry o; nextRequest := nextRequest o; pending := pending o |}.

Definition setTelemetry (t : option Snapshot) (o : Overlay) : Overlay :=
  {| isConnected := isConnected o; multiConnectionMode := multiConnectionMode o;
     fleetStatus := fleetStatus o; selectedDroneId := selectedDroneId o;
     uploadedKmlFile := uploadedKmlFile o; isGeneratingPath := isGeneratingPath o;
     telemetry := t; nextRequest := nextRequest o; pending := pending o |}.

Definition setConnection (connected multi : bool) (o : Overlay) : Overlay :=
  {| isConnected := connected; multiConnectionMode := multi;
     fleetStatus := fleetStatus o; selectedDroneId := selectedDroneId o;
     uploadedKmlFile := uploadedKmlFile o; isGeneratingPath := isGeneratingPath o;
     telemetry := telemetry o; nextRequest := nextRequest o; pending := pending o |}.

(** *** Fleet status (lines 507-548) *)

(** How [GET /fleet/status] settles. *)
Inductive FleetFetch :=
  | FleetRejects
  | FleetResponds (ok : bool) (data : FleetData).

(** The body of [fetchFleetStatus] from the response on.  [captured] is
    the [selectedDroneId] the function closes over: the one of the render
    whose effect created it.  The cleanup of the effect only clears the
    interval, so a call that is waiting for its response resumes with the
    value it captured, whatever the selection has become.  The function
    reads no state between [await fetch] and [await response.json()], so
    the two are one arrival here. *)
Definition fetchFleetStatus (captured : option N) (r : FleetFetch) (o : Overlay)
    : Overlay * list WindowEvent :=
  match r with
  | FleetResponds true data =>
      let o1 := setFleetStatus (Some data) o in
      if negb (truthy_id captured) then
        match fleet data with
        | Some f =>
            match Object_keys f with
            | firstSysId :: _ =>
                (setSelectedDroneId (Some firstSysId) o1,
                 [EvDroneSelected (Some firstSysId)])
            | [] => (o1, [])
            end
        | None => (o1, [])
        end
      else (o1, [])
  | FleetResponds false _ => (o, [])
  | FleetRejects => (o, [])
  end.

(** The response is OK and its body has a fleet with at least one drone. *)
Definition carries_fleet (r : FleetFetch) : Prop :=
  ∃ data f, r = FleetResponds true data ∧ fleet data = Some f ∧ f ≠ ∅.

(** The guard at the head of the fleet effect. *)
Definition fleetEffectGuard (o : Overlay) : Overlay :=
  if (negb (isConnected o) || negb (multiConnectionMode o))%bool
  then setFleetStatus None o else o.

(** The drone [<select>] (lines 1049-1099): shown in fleet mode once a
    fleet status with a fleet is there; its options are the empty value
    and the keys. *)
Definition selectOptions (o : Overlay) : list (option N) :=
  if (multiConnectionMode o && isConnected o)%bool then
    match fleetStatus o with
    | Some data =>
        match fleet data with
        | Some f => None :: (Some <$> Object_keys f)
        | None => []
        end
    | None => []
    end
  else [].

Definition onSelectChange (value : option N) (o : Overlay) : Overlay * list WindowEvent :=
  if bool_decide (value ∈ selectOptions o) then
    (setSelectedDroneId value o, [EvDroneSelected value])
  else (o, []).

(** The multi-drone checkbox (lines 876-887), [disabled={isConnected}]. *)
Definition toggleMultiConnectionMode (checked : bool) (o : Overlay) : Overlay :=
  if isConnected o then o
  else
    let o1 := setConnection (isConnected o) checked o in
    if checked then o1 else setFleetStatus None (setSelectedDroneId None o1).

(** [handleConnect] when the backend accepts (lines 798-803). *)
Definition handleConnectOk (o : Overlay) : Overlay * list WindowEvent :=
  (setSelectedDroneId None (setConnection true (multiConnectionMode o) o),
   [EvTelemetryConnected]).

(** [handleDisconnect] when the backend accepts (lines 851-855). *)
Definition handleDisconnectOk (o : Overlay) : Overlay * list WindowEvent :=
  (setConnection false (multiConnectionMode o) o, [EvTelemetryDisconnected]).

(** The overlay with the calls of [fetchFleetStatus] that wait for their
    response, each with its number and the [selectedDroneId] it captured,
    and the events dispatched so far, oldest first. *)
Record FleetPoller := mkFleetPoller {
  fp_overlay : Overlay;
  fleetRequests : list (nat * option N);
  nextFleetRequest : nat;
  fleetDispatched : list WindowEvent;
}.

Definition initialFleetPoller : FleetPoller :=
  {| fp_overlay := initialOverlay; fleetRequests := []; nextFleetRequest := 0;
     fleetDispatched := [] |}.

(** A call of [fetchFleetStatus] up to its [await fetch]. *)
Definition fleetIssue (st : FleetPoller) : FleetPoller :=
  {| fp_overlay := fp_overlay st;
     fleetRequests :=
       fleetRequests st ++ [(nextFleetRequest st, selectedDroneId (fp_overlay st))];
     nextFleetRequest := S (nextFleetRequest st);
     fleetDispatched := fleetDispatched st |}.

Definition withOverlay (res : Overlay * list WindowEvent) (st : FleetPoller)
    : FleetPoller :=
  {| fp_overlay := res.1; fleetRequests := fleetRequests st;
     nextFleetRequest := nextFleetRequest st;
     fleetDispatched := fleetDispatched st ++ res.2 |}.

(** The response of call [i] arrives: the call resumes, in whatever state
    the overlay is by then. *)
Definition fleetSettle (i : nat) (r : FleetFetch) (st : FleetPoller) : FleetPoller :=
  match list_find (λ q, q.1 = i) (fleetRequests st) with
  | Some (_, (_, captured)) =>
      withOverlay (fetchFleetStatus captured r (fp_overlay st))
        {| fp_overlay := fp_overlay st;
           fleetRequests := filter (λ q, q.1 ≠ i) (fleetRequests st);
           nextFleetRequest := nextFleetRequest st;
           fleetDispatched := fleetDispatched st |}
  | None => st
  end.

(** The dependencies of the fleet effect ([backendUrl] is constant). *)
Definition fleetDeps (o : Overlay) : bool * bool * option N :=
  (isConnected o, multiConnectionMode o, selectedDroneId o).

(** The body of the fleet effect (lines 508-547): the guard, then the
    first call of [fetchFleetStatus] and the interval. *)
Definition fleetEffect (st : FleetPoller) : FleetPoller :=
  if (negb (isConnected (fp_overlay st)) || negb (multiConnectionMode (fp_overlay st)))%bool
  then withOverlay (fleetEffectGuard (fp_overlay st), []) st
  else fleetIssue st.

Inductive FleetEvent :=
  | FleetTick                                   (* the interval fires *)
  | FleetStatusArrives (i : nat) (r : FleetFetch)
  | SelectChanged (value : option N)
  | MultiToggled (checked : bool)
  | Connected
  | Disconnected.

(** The handler of the event; the interval only exists while the effect
    of a connected fleet mode is in place. *)
Definition fleetHandle (st : FleetPoller) (e : FleetEvent) : FleetPoller :=
  match e with
  | FleetTick =>
      if (isConnected (fp_overlay st) && multiConnectionMode (fp_overlay st))%bool
      then fleetIssue st else st
  | FleetStatusArrives i r => fleetSettle i r st
  | SelectChanged v => withOverlay (onSelectChange v (fp_overlay st)) st
  | MultiToggled c => withOverlay (toggleMultiConnectionMode c (fp_overlay st), []) st
  | Connected => withOverlay (handleConnectOk (fp_overlay st)) st
  | Disconnected => withOverlay (handleDisconnectOk (fp_overlay st)) st
  end.

(** An event, and the effect if the render that follows changed one of
    its dependencies. *)
Definition fleetStep (st : FleetPoller) (e : FleetEvent) : FleetPoller :=
  let st1 := fleetHandle st e in
  if decide (fleetDeps (fp_overlay st1) = fleetDeps (fp_overlay st)) then st1
  else fleetEffect st1.

Definition fleetRun (es : list FleetEvent) : FleetPoller :=
  foldl fleetStep initialFleetPoller es.

(** *** Telemetry of the selected drone (lines 641-698) *)

(** [fetchTelemetry] up to [await fetch(url)]: nothing but the request. *)
Definition fetchTelemetry_issue (o : Overlay) : Overlay :=
  {| isConnected := isConnected o; multiConnectionMode := multiConnectionMode o;
     fleetStatus := fleetStatus o; selectedDroneId := selectedDroneId o;
     uploadedKmlFile := uploadedKmlFile o; isGeneratingPath := isGeneratingPath o;
     telemetry := telemetry o;
     nextRequest := S (nextRequest o);
     pending := pending o ++ [nextRequest o] |}.

(** [fetchTelemetry] from the response on. *)
Definition fetchTelemetry_settle (n : nat) (r : Settled) (o : Overlay) : Overlay :=
  if bool_decide (n ∈ pending o) then
    let o1 :=
      {| isConnected := isConnected o; multiConnectionMode := multiConnectionMode o;
         fleetStatus := fleetStatus o; selectedDroneId := selectedDroneId o;
         uploadedKmlFile := uploadedKmlFile o; isGeneratingPath := isGeneratingPath o;
         telemetry := telemetry o; nextRequest := nextRequest o;
         pending := filter (λ x, x ≠ n) (pending o) |} in
    match r with
    | Responds true data => setTelemetry (Some data) o1
    | Responds false _ => o1
    | Rejects => o1
    end
  else o.

(** *** The connection list of multi-drone mode (lines 59-68 and 813-838) *)

(** A field that holds a number until the user types into its text
    input, after which it holds the text. *)
Inductive JsValue :=
  | JsNumber (n : N)
  | JsString (s : string).

Record Connection := mkConnection {
  id : nat;
  protocol : string;
  host : string;
  port : JsValue;
  serialPort : string;
  baud : JsValue;
}.

Definition initialConnections : list Connection :=
  [ {| id := 1; protocol := "UDP"; host := "127.0.0.1"; port := JsNumber 14550;
       serialPort := EmptyString; baud := JsNumber 57600 |} ].

(** The keys [updateConnection] is called with. *)
Inductive ConnectionField :=
  | FieldProtocol | FieldHost | FieldPort | FieldSerialPort | FieldBaud.

(** [{ ...c, [field]: value }] with the [e.target.value] of an input. *)
Definition setField (field : ConnectionField) (value : string) (c : Connection)
    : Connection :=
  match field with
  | FieldProtocol =>
      {| id := id c; protocol := value; host := host c; port := port c;
         serialPort := serialPort c; baud := baud c |}
  | FieldHost =>
      {| id := id c; protocol := protocol c; host := value; port := port c;
         serialPort := serialPort c; baud := baud c |}
  | FieldPort =>
      {| id := id c; protocol := protocol c; host := host c; port := JsString value;
         serialPort := serialPort c; baud := baud c |}
  | FieldSerialPort =>
      {| id := id c; protocol := protocol c; host := host c; port := port c;
         serialPort := value; baud := baud c |}
  | FieldBaud =>
      {| id := id c; protocol := protocol c; host := host c; port := port c;
         serialPort := serialPort c; baud := JsString value |}
  end.

Definition addConnection (connections : list Connection) : list Connection :=
  (* Math.max(...connections.map((c) => c.id), 0) + 1 *)
  let newId := max_list ((id <$> connections) ++ [0]) + 1 in
  connections ++
  [ {| id := newId; protocol := "UDP"; host := "127.0.0.1";
       port := JsNumber (14550 + N.of_nat (length connections));
       serialPort := EmptyString; baud := JsNumber 57600 |} ].

Definition removeConnection (i : nat) (connections : list Connection)
    : list Connection :=
  if decide (1 < length connections) then filter (λ c, id c ≠ i) connections
  else connections.

Definition updateConnection (i : nat) (field : ConnectionField) (value : string)
    (connections : list Connection) : list Connection :=
  (λ c, if decide (id c = i) then setField field value c else c) <$> connections.

Inductive ConnectionOp :=
  | AddConnection
  | RemoveConnection (i : nat)
  | UpdateConnection (i : nat) (field : ConnectionField) (value : string).

Definition connectionStep (connections : list Connection) (op : ConnectionOp)
    : list Connection :=
  match op with
  | AddConnection => addConnection connections
  | RemoveConnection i => removeConnection i connections
  | UpdateConnection i field value => updateConnection i field value connections
  end.

(** *** Connecting and disconnecting (lines 751-811 and 840-862) *)

(** How the POST to [/telemetry/connect] or [/telemetry/disconnect]
    settles. *)
Inductive LinkOutcome :=
  | LinkRejects (message : string)              (* [fetch] throws [e]: [e.message] *)
  | LinkResponds (ok : bool) (detail : option string).
      (* [resp.ok]; [err.detail] of the error body, [None] without one *)

Inductive LinkRequest := ConnectRequest | DisconnectRequest.

(** The link as the connection bar sees it: React state [isConnected],
    [isConnecting], [connectError], [selectedDroneId]; the requests that
    have not settled; the events dispatched so far, oldest first. *)
Record Link := mkLink {
  link_isConnected : bool;
  isConnecting : bool;
  connectError : string;
  link_selectedDroneId : option N;
  requests : list LinkRequest;
  dispatched : list WindowEvent;
}.

Definition initialLink : Link :=
  {| link_isConnected := false; isConnecting := false; connectError := EmptyString;
     link_selectedDroneId := None; requests := []; dispatched := [] |}.

(** The button of the bar: Connect when not connected, Disconnect when
    connected, disabled while [isConnecting].  The click runs the handler up
    to its [await fetch]. *)
Definition clickLinkButton (l : Link) : Link :=
  if isConnecting l then l
  else
    {| link_isConnected := link_isConnected l;
       isConnecting := true;
       connectError := EmptyString;
       link_selectedDroneId := link_selectedDroneId l;
       requests := requests l ++
                   [if link_isConnected l then DisconnectRequest else ConnectRequest];
       dispatched := dispatched l |}.

(** [handleConnect] from the response on. *)
Definition connectSettles (outcome : LinkOutcome) (l : Link) : Link :=
  match outcome with
  | LinkResponds true _ =>
      {| link_isConnected := true; isConnecting := false;
         connectError := connectError l;
         link_selectedDroneId := None;
         requests := requests l;
         dispatched := dispatched l ++ [EvTelemetryConnected] |}
  | LinkResponds false detail =>
      {| link_isConnected := false; isConnecting := false;
         connectError :=
           string_or (Some (string_or detail "Failed to connect")) "Failed to connect";
         link_selectedDroneId := link_selectedDroneId l;
         requests := requests l; dispatched := dispatched l |}
  | LinkRejects message =>
      {| link_isConnected := false; isConnecting := false;
         connectError := string_or (Some message) "Failed to connect";
         link_selectedDroneId := link_selectedDroneId l;
         requests := requests l; dispatched := dispatched l |}
  end.

(** [handleDisconnect] from the response on. *)
Definition disconnectSettles (outcome : LinkOutcome) (l : Link) : Link :=
  match outcome with
  | LinkResponds true _ =>
      {| link_isConnected := false; isConnecting := false;
         connectError := connectError l;
         link_selectedDroneId := link_selectedDroneId l;
         requests := requests l;
         dispatched := dispatched l ++ [EvTelemetryDisconnected] |}
  | LinkResponds false detail =>
      {| link_isConnected := link_isConnected l; isConnecting := false;
         connectError :=
           string_or (Some (string_or detail "Failed to disconnect")) "Failed to disconnect";
         link_selectedDroneId := link_selectedDroneId l;
         requests := requests l; dispatched := dispatched l |}
  | LinkRejects message =>
      {| link_isConnected := link_isConnected l; isConnecting := false;
         connectError := string_or (Some message) "Failed to disconnect";
         link_selectedDroneId := link_selectedDroneId l;
         requests := requests l; dispatched := dispatched l |}
  end.

(** The oldest pending request settles. *)
Definition linkSettles (outcome : LinkOutcome) (l : Link) : Link :=
  match requests l with
  | [] => l
  | req :: rest =>
      let l1 := {| link_isConnected := link_isConnected l;
                   isConnecting := isConnecting l;
                   connectError := connectError l;
                   link_selectedDroneId := link_selectedDroneId l;
                   requests := rest; dispatched := dispatched l |} in
      match req with
      | ConnectRequest => connectSettles outcome l1
      | DisconnectRequest => disconnectSettles outcome l1
      end
  end.

Inductive LinkEvent :=
  | ButtonClicked
  | RequestSettles (outcome : LinkOutcome).

Definition linkStep (l : Link) (e : LinkEvent) : Link :=
  match e with
  | ButtonClicked => clickLinkButton l
  | RequestSettles outcome => linkSettles outcome l
  end.

(** The dispatched events alternate, [expectConnected] telling which one
    comes first. *)
Fixpoint alternates (expectConnected : bool) (es : list WindowEvent) : Prop :=
  match es with
  | [] => True
  | EvTelemetryConnected :: es' => expectConnected = true ∧ alternates false es'
  | EvTelemetryDisconnected :: es' => expectConnected = false ∧ alternates true es'
  | _ :: _ => False
  end.

(** The event that would keep the alternation going from the link's state. *)
Definition nextLinkEvent (l : Link) : WindowEvent :=
  if link_isConnected l then EvTelemetryDisconnected else EvTelemetryConnected.

(** What holds of the link between any two events. *)
Definition link_ok (l : Link) : Prop :=
  length (requests l) ≤ 1
  ∧ (isConnecting l = true ↔ requests l ≠ [])
  ∧ (∀ req, req ∈ requests l →
       req = if link_isConnected l then DisconnectRequest else ConnectRequest)
  ∧ alternates true (dispatched l ++ [nextLinkEvent l]).

(** The request did not succeed. *)
Definition link_failure (outcome : LinkOutcome) : Prop :=
  match outcome with
  | LinkResponds true _ => False
  | _ => True
  end.

(** The status text of the bar (lines 1118-1122):
    [isConnected ? "Connected" : connectError ? connectError : "Not connected"]. *)
Definition statusText (l : Link) : string :=
  if link_isConnected l then "Connected"
  else if truthy_string (connectError l) then connectError l
  else "Not connected".

(** *** Loading a KML file (lines 200-306) *)

(** What [handleFileSelect] leaves in the state: [valid] is the check of
    the file name's extension, [parses] is [false] when [parseKML] throws. *)
Definition handleFileSelect (file : string) (valid parses : bool)
    (c : SharedCtx) (o : Overlay) : SharedCtx * Overlay :=
  if (valid && parses)%bool then
    ({| kmlUploaded := true; manualWaypointsCount := manualWaypointsCount c |},
     {| isConnected := isConnected o; multiConnectionMode := multiConnectionMode o;
        fleetStatus := fleetStatus o; selectedDroneId := selectedDroneId o;
        uploadedKmlFile := Some file; isGeneratingPath := isGeneratingPath o;
        telemetry := telemetry o; nextRequest := nextRequest o;
        pending := pending o |})
  else (c, o).

(** *** KML actions requested from the planner panel (lines 390-440) *)

Definition isKmlBlocked (ctx : SharedCtx) : bool :=
  bool_decide (0 < manualWaypointsCount ctx).

Inductive OverlayCall :=
  | CallHandleStartMission
  | CallHandleGeneratePath.

Definition onStartKml (ctx : SharedCtx) (o : Overlay) : list OverlayCall :=
  if (negb (isKmlBlocked ctx) && bool_decide (is_Some (uploadedKmlFile o)))%bool
  then [CallHandleStartMission] else [].

Definition onGeneratePath (ctx : SharedCtx) (o : Overlay) : list OverlayCall :=
  if (negb (isKmlBlocked ctx) && bool_decide (is_Some (uploadedKmlFile o))
      && negb (isGeneratingPath o))%bool
  then [CallHandleGeneratePath] else [].

(** A [window] event as the overlay's listeners see it. *)
Definition onWindowEvent (ctx : SharedCtx) (e : WindowEvent) (o : Overlay) : list OverlayCall :=
  match e with
  | EvStartKmlMission => onStartKml ctx o
  | EvGenerateKmlPath => onGeneratePath ctx o
  | _ => []
  end.

(** *** Drone pins (lines 88-198, 549-555 and 640-657) *)

(** [typeof v === "number" && Number.isFinite(v)]; [None] is a value that
    is not a number. *)
Definition isFiniteNumber (v : option float) : bool :=
  match v with
  | Some x => PrimFloat.is_finite x
  | None => false
  end.

Definition droneColors : list string :=
  ["#00FF00"; "#0080FF"; "#FF8000"; "#FF00FF"; "#FFFF00"; "#00FFFF"].

(** [droneColors[(sysId - 1) % droneColors.length]]: [%] takes the sign of
    the dividend, so system id 0 gives index -1, which is [undefined]. *)
Definition droneColor (sysId : N) : option string :=
  let i := Z.rem (Z.of_N sysId - 1) (Z.of_nat (length droneColors)) in
  if decide (0 ≤ i)%Z then droneColors !! Z.to_nat i else None.

Definition pinSize (isSelected : bool) : N := if isSelected then 56%N else 48%N.

Definition pinFont (isSelected : bool) : string :=
  if isSelected then "bold 14px sans-serif" else "12px sans-serif".

(** [`Drone ${sysId}`] *)
Definition droneName (sysId : N) : string := "Drone " +:+ pretty sysId.

(** [Object.entries(obj)] of an object whose keys are all integer indices,
    in ascending order of the keys. *)
Definition Object_entries {A} (obj : gmap N A) : list (N * A) :=
  @merge_sort _ (λ a b, (a.1 ≤ b.1)%N) (λ a b, decide (a.1 ≤ b.1)%N)
    (map_to_list obj).

(** [Object.values(obj)], in the same order. *)
Definition Object_values {A} (obj : gmap N A) : list A := (Object_entries obj).*2.

Record BillboardGraphics := mkBillboardGraphics {
  bb_width : N;
  bb_height : N;
  bb_color : option string;   (* as given to [Color.fromCssColorString] *)
}.

Record PinLabel := mkPinLabel {
  lbl_text : string;
  lbl_font : string;
  lbl_show : bool;            (* Cesium's default [true] when not given *)
}.

Record ShapePoint := mkShapePoint {
  pt_pixelSize : N;
}.


Section Pins.
Context `{CesiumAPI}.

Record ShapePolyline := mkShapePolyline {
  pl_positions : list Cartesian3;
  pl_width : N;
}.

Record ShapePolygon := mkShapePolygon {
  pg_hierarchy : list Cartesian3;
  pg_outlineWidth : N;
}.

(** An entity of the overlay, with the properties its helpers set; a
    graphics the options do not give is [None]. *)
Record OverlayEntity := mkOverlayEntity {
  oe_name : string;
  oe_position : option Cartesian3;
  oe_billboard : option BillboardGraphics;
  oe_label : option PinLabel;
  oe_point : option ShapePoint;
  oe_polyline : option ShapePolyline;
  oe_polygon : option ShapePolygon;
}.

(** The viewer as the overlay uses it: the entity objects that were
    created, by handle, and the collection [viewer.entities]. *)
Record Globe := mkGlobe {
  pinObjects : gmap nat OverlayEntity;
  shown : list nat;
  nextHandle : nat;
}.

(** [viewer.entities.add(options)] *)
Definition globe_add (e : OverlayEntity) (g : Globe) : nat * Globe :=
  let h := nextHandle g in
  (h, {| pinObjects := <[h := e]> (pinObjects g);
         shown := shown g ++ [h];
         nextHandle := S h |}).

(** [viewer.entities.remove(entity)] *)
Definition globe_remove (h : nat) (g : Globe) : Globe :=
  {| pinObjects := pinObjects g;
     shown := filter (λ x, x ≠ h) (shown g);
     nextHandle := nextHandle g |}.

(** Assignments to properties of the entity object [h]. *)
Definition assign (h : nat) (f : OverlayEntity → OverlayEntity) (g : Globe) : Globe :=
  {| pinObjects := alter f h (pinObjects g);
     shown := shown g;
     nextHandle := nextHandle g |}.

(** The viewer of the context ([None] before the globe is ready) and the
    refs [droneEntityRef] and [droneEntitiesRef], which hold entity
    objects, here their handles. *)
Record Pins := mkPins {
  globe : option Globe;
  droneEntityRef : option nat;
  droneEntitiesRef : gmap N nat;
}.

Definition setPosition (position : Cartesian3) (e : OverlayEntity) : OverlayEntity :=
  {| oe_name := oe_name e; oe_position := Some position;
     oe_billboard := oe_billboard e; oe_label := oe_label e;
     oe_point := oe_point e; oe_polyline := oe_polyline e;
     oe_polygon := oe_polygon e |}.

(** [updateUavPin(viewer, lon, lat)] (lines 92-118). *)
Definition updateUavPin (lon lat : option float) (p : Pins) : Pins :=
  match globe p, lon, lat with
  | Some g, Some lon', Some lat' =>
      if negb (isFiniteNumber lat) || negb (isFiniteNumber lon) then p
      else
        let position := fromDegrees lon' lat' 0%float in
        match droneEntityRef p with
        | Some h =>
            {| globe := Some (assign h (setPosition position) g);
               droneEntityRef := droneEntityRef p;
               droneEntitiesRef := droneEntitiesRef p |}
        | None =>
            let '(h, g') :=
              globe_add {| oe_name := "UAV"; oe_position := Some position;
                           oe_billboard :=
                             Some {| bb_width := 48; bb_height := 48;
                                     bb_color := None |};
                           oe_label := None; oe_point := None;
                           oe_polyline := None; oe_polygon := None |} g in
            {| globe := Some g';
               droneEntityRef := Some h;
               droneEntitiesRef := droneEntitiesRef p |}
        end
  | _, _, _ => p
  end.

(** The assignments of lines 146-161 to an existing pin. *)
Definition refreshPin (sysId : N) (position : Cartesian3) (isSelected : bool)
    (e : OverlayEntity) : OverlayEntity :=
  {| oe_name := oe_name e;
     oe_position := Some position;
     oe_billboard :=
       (λ b, {| bb_width := pinSize isSelected; bb_height := pinSize isSelected;
                bb_color := bb_color b |}) <$> oe_billboard e;
     oe_label :=
       (λ l, {| lbl_text := droneName sysId; lbl_font := pinFont isSelected;
                lbl_show := lbl_show l |})
         <$> oe_label e;
     oe_point := oe_point e; oe_polyline := oe_polyline e;
     oe_polygon := oe_polygon e |}.

(** One round of the first [forEach] of [updateFleetPins] (lines 133-188).
    [None] stands for a pin that would be created with an [undefined]
    colour string, which is left outside the model. *)
Definition placeDrone (selectedDroneId : option N)
    (st : option (Globe * gmap N nat)) (entry : N * DroneSummary)
    : option (Globe * gmap N nat) :=
  '(g, ref) ← st;
  let sysId := entry.1 in
  let lat := latitude_deg entry.2 in
  let lon := longitude_deg entry.2 in
  if negb (isFiniteNumber (Some lat)) || negb (isFiniteNumber (Some lon))
  then Some (g, ref)
  else
    let position := fromDegrees lon lat 0%float in
    let isSelected := bool_decide (selectedDroneId = Some sysId) in
    match ref !! sysId with
    | Some h => Some (assign h (refreshPin sysId position isSelected) g, ref)
    | None =>
        color ← droneColor sysId;
        let '(h, g') :=
          globe_add {| oe_name := droneName sysId; oe_position := Some position;
                       oe_billboard :=
                         Some {| bb_width := pinSize isSelected;
                                 bb_height := pinSize isSelected;
                                 bb_color := Some color |};
                       oe_label :=
                         Some {| lbl_text := droneName sysId;
                                 lbl_font := pinFont isSelected;
                                 lbl_show := true |};
                       oe_point := None; oe_polyline := None;
                       oe_polygon := None |} g in
        Some (g', <[sysId := h]> ref)
    end.

(** One round of the second [forEach] (lines 191-197). *)
Definition dropMissing (fleet : gmap N DroneSummary) (st : Globe * gmap N nat)
    (sysId : N) : Globe * gmap N nat :=
  match fleet !! sysId, st.2 !! sysId with
  | None, Some h => (globe_remove h st.1, delete sysId st.2)
  | None, None => (st.1, delete sysId st.2)
  | Some _, _ => st
  end.

(** [updateFleetPins(viewer, fleet)] (lines 121-198), with the
    [selectedDroneId] of the render it was created in. *)
Definition updateFleetPins (selectedDroneId : option N)
    (fleet : option (gmap N DroneSummary)) (p : Pins) : option Pins :=
  match globe p, fleet with
  | Some g, Some f =>
      '(g1, ref1) ← foldl (placeDrone selectedDroneId)
                      (Some (g, droneEntitiesRef p)) (Object_entries f);
      let '(g2, ref2) := foldl (dropMissing f) (g1, ref1) (Object_keys ref1) in
      Some {| globe := Some g2;
              droneEntityRef := droneEntityRef p;
              droneEntitiesRef := ref2 |}
  | _, _ => Some p
  end.

(** The pin part of the effect of lines 551-637: with multi-connection
    mode on, a viewer and a fleet status that has a [fleet]. *)
Definition fleetPinsEffect (o : Overlay) (p : Pins) : option Pins :=
  match multiConnectionMode o, fleetStatus o with
  | true, Some status =>
      match globe p, fleet status with
      | Some _, Some f => updateFleetPins (selectedDroneId o) (Some f) p
      | _, _ => Some p
      end
  | _, _ => Some p
  end.

(** The branch [!isConnected] of the telemetry effect (lines 641-657), as
    far as the pins go. *)
Definition clearPins (p : Pins) : Pins :=
  match globe p with
  | Some g =>
      let g1 := match droneEntityRef p with
                | Some h => globe_remove h g
                | None => g
                end in
      {| globe := Some (foldl (λ g h, globe_remove h g) g1
                          (Object_values (droneEntitiesRef p)));
         droneEntityRef := None;
         droneEntitiesRef := ∅ |}
  | None => p
  end.

(** Both coordinates of the drone pass [isFiniteNumber]. *)
Definition located (d : DroneSummary) : bool :=
  isFiniteNumber (Some (latitude_deg d)) && isFiniteNumber (Some (longitude_deg d)).

(** [Cesium.Cartesian3.fromDegrees(lon, lat, 0)] of the drone. *)
Definition pinPosition (d : DroneSummary) : Cartesian3 :=
  fromDegrees (longitude_deg d) (latitude_deg d) 0%float.

(** Step 1 of the controlled sequence of [handleFileSelect]
    (lines 217-221). *)
Definition removeUavPin (p : Pins) : Pins :=
  match globe p, droneEntityRef p with
  | Some g, Some h =>
      {| globe := Some (globe_remove h g);
         droneEntityRef := None;
         droneEntitiesRef := droneEntitiesRef p |}
  | _, _ => p
  end.

(** What touches the pins while the overlay is connected: the fleet effect
    running in a state [o] of the overlay, a call of [updateUavPin] (lines
    279, 284, 299 and 710) and the removal of the pin by
    [handleFileSelect]. *)
Inductive PinEvent :=
  | FleetEffect (o : Overlay)
  | UavPinUpdate (lon lat : option float)
  | UavPinRemoved.

Definition pinStep (p : option Pins) (e : PinEvent) : option Pins :=
  p ← p;
  match e with
  | FleetEffect o => fleetPinsEffect o p
  | UavPinUpdate lon lat => Some (updateUavPin lon lat p)
  | UavPinRemoved => Some (removeUavPin p)
  end.

(** The fleet the effect sees has no system id 0. *)
Definition no_zero_id (e : PinEvent) : Prop :=
  match e with
  | FleetEffect o =>
      ∀ status f, fleetStatus o = Some status → fleet status = Some f →
                  f !! 0%N = None
  | _ => True
  end.

(** Successive calls of [updateUavPin], one per pair [(lon, lat)]. *)
Definition updateUavPins (cs : list (option float * option float)) (p : Pins) : Pins :=
  foldl (λ p c, updateUavPin c.1 c.2 p) p cs.

(** The pins of the fleet are entities of the collection, one per drone. *)
Definition pins_wf (g : Globe) (ref : gmap N nat) : Prop :=
  (∀ k h, ref !! k = Some h →
     is_Some (pinObjects g !! h) ∧ h ∈ shown g ∧ h < nextHandle g)
  ∧ (∀ k1 k2 h, ref !! k1 = Some h → ref !! k2 = Some h → k1 = k2).

(** What the pin events keep, for a viewer that held the entities of [g0]
    when the overlay had no pin: the refs hold entities created since,
    distinct from each other, and every entity created since that is still
    in the collection is held by a ref. *)
Definition pins_inv (g0 : Globe) (p : Pins) : Prop :=
  ∃ g, globe p = Some g
    ∧ pins_wf g (droneEntitiesRef p)
    ∧ nextHandle g0 ≤ nextHandle g
    ∧ (∀ h, droneEntityRef p = Some h →
         nextHandle g0 ≤ h < nextHandle g ∧ ∀ k, droneEntitiesRef p !! k ≠ Some h)
    ∧ (∀ k h, droneEntitiesRef p !! k = Some h → nextHandle g0 ≤ h)
    ∧ filter (λ h, h < nextHandle g0) (shown g) = shown g0
    ∧ (∀ h, h ∈ shown g → nextHandle g0 ≤ h →
         droneEntityRef p = Some h ∨ ∃ k, droneEntitiesRef p !! k = Some h).

End Pins.

(** *** The KML layer and the surveillance path (lines 213-238, 399-415
    and 442-505, with [utils/cesiumHelpers.js] and [utils/pathGenerator.js]) *)

Definition setIsGeneratingPath (b : bool) (o : Overlay) : Overlay :=
  {| isConnected := isConnected o; multiConnectionMode := multiConnectionMode o;
     fleetStatus := fleetStatus o; selectedDroneId := selectedDroneId o;
     uploadedKmlFile := uploadedKmlFile o; isGeneratingPath := b;
     telemetry := telemetry o; nextRequest := nextRequest o; pending := pending o |}.

Definition setUploadedKmlFile (f : option string) (o : Overlay) : Overlay :=
  {| isConnected := isConnected o; multiConnectionMode := multiConnectionMode o;
     fleetStatus := fleetStatus o; selectedDroneId := selectedDroneId o;
     uploadedKmlFile := f; isGeneratingPath := isGeneratingPath o;
     telemetry := telemetry o; nextRequest := nextRequest o; pending := pending o |}.

Record KmlPosition := mkKmlPosition {
  kp_longitude : float;
  kp_latitude : float;
  kp_height : float;
}.

Record KmlShape := mkKmlShape {
  ks_name : string;
  ks_positions : list KmlPosition;
}.

Record KmlPoint := mkKmlPoint {
  kpt_name : string;
  kpt_position : KmlPosition;
}.

(** [calculateBounds] of the parser returns [null] or these four. *)
Record Bounds := mkBounds {
  west : float;
  south : float;
  east : float;
  north : float;
}.

(** What [kmlToCesiumFormat] returns. *)
Record CesiumData := mkCesiumData {
  kml_polygons : list KmlShape;
  kml_lines : list KmlShape;
  kml_points : list KmlPoint;
  kml_bounds : option Bounds;
}.

(** [Math.min(a, b)] and [Math.max(a, b)]: [NaN] when an argument is; of
    two zeros of different sign the second, which matters to no test of
    finiteness. *)
Definition Math_min (a b : float) : float :=
  if (PrimFloat.is_nan a || PrimFloat.is_nan b)%bool then PrimFloat.nan
  else if PrimFloat.ltb a b then a else b.

Definition Math_max (a b : float) : float :=
  if (PrimFloat.is_nan a || PrimFloat.is_nan b)%bool then PrimFloat.nan
  else if PrimFloat.ltb a b then b else a.

(** Step 3 of [handleFileSelect] (lines 246-265): the bounds of the file,
    widened by the drone's position when that is finite, pass
    [isFiniteNumber], so the camera flies. *)
Definition cameraFlies (bounds : option Bounds) (lon lat : option float) : bool :=
  let widen (f : float → float → float) (edge : option float) (x : float) :=
    match edge with
    | Some e => f e x
    | None => x
    end in
  let '(w, e, s, n) :=
    match lon, lat with
    | Some lon', Some lat' =>
        if (isFiniteNumber lon && isFiniteNumber lat)%bool
        then (Some (widen Math_min (west <$> bounds) lon'),
              Some (widen Math_max (east <$> bounds) lon'),
              Some (widen Math_min (south <$> bounds) lat'),
              Some (widen Math_max (north <$> bounds) lat'))
        else (west <$> bounds, east <$> bounds, south <$> bounds, north <$> bounds)
    | _, _ => (west <$> bounds, east <$> bounds, south <$> bounds, north <$> bounds)
    end in
  (isFiniteNumber w && isFiniteNumber e && isFiniteNumber s && isFiniteNumber n)%bool.

(** [a || b] on a number or [undefined]. *)
Definition n_or (a : option N) (b : N) : N :=
  match a with
  | Some n => if (n =? 0)%N then b else n
  | None => b
  end.

(** The options of [renderKMLData] that decide which entities are made. *)
Record KmlOptions := mkKmlOptions {
  clearExisting : bool;
  pointShow : bool;                  (* [pointStyle?.show !== false] *)
  pointPixelSize : option N;
  pointShowLabel : bool;             (* [options.showLabel !== false] *)
  lineWidth : option N;
  polygonStrokeWidth : option N;
  polygonBorderWidth : option N;
}.

(** The options [handleFileSelect] passes (lines 224-236). *)
Definition fileSelectOptions : KmlOptions :=
  {| clearExisting := false; pointShow := false; pointPixelSize := None;
     pointShowLabel := true; lineWidth := Some 7%N;
     polygonStrokeWidth := Some 5%N; polygonBorderWidth := None |}.

Record PathWaypoint := mkPathWaypoint {
  pw_longitude : float;
  pw_latitude : float;
  pw_altitude : float;
}.

(** What [renderSurveillancePath] returns; [startMarker] is always [null]. *)
Record PathData := mkPathData {
  pathEntity : nat;
  waypointEntities : list nat;
  pd_waypoints : list PathWaypoint;
}.

(** The final style of [renderSurveillancePath]. *)
Record PathStyle := mkPathStyle {
  path_lineWidth : N;
  path_pointSize : N;
  showWaypoints : bool;
}.

(** The style [handleGeneratePath] passes (lines 484-490). *)
Definition generatedPathStyle : PathStyle :=
  {| path_lineWidth := 3; path_pointSize := 8; showWaypoints := true |}.

Section Layers.
Context `{CesiumAPI}.

Definition kmlCartesian (pos : KmlPosition) : Cartesian3 :=
  fromDegrees (kp_longitude pos) (kp_latitude pos) (float_or_zero (kp_height pos)).

(** [viewer.entities.removeAll()] *)
Definition globe_removeAll (g : Globe) : Globe :=
  {| pinObjects := pinObjects g; shown := []; nextHandle := nextHandle g |}.

(** [renderPolygon] of cesiumHelpers.js (lines 1-46). *)
Definition renderPolygon (options : KmlOptions) (polygon : KmlShape) (g : Globe)
    : list nat * Globe :=
  let positions := kmlCartesian <$> ks_positions polygon in
  let name := string_or (Some (ks_name polygon)) "Polygon" in
  let '(entity, g1) :=
    globe_add {| oe_name := name; oe_position := None; oe_billboard := None;
                 oe_label := None; oe_point := None; oe_polyline := None;
                 oe_polygon :=
                   Some {| pg_hierarchy := positions;
                           pg_outlineWidth :=
                             n_or (polygonStrokeWidth options) 3 |} |} g in
  let closedPositions :=
    match positions with
    | first :: _ => positions ++ [first]
    | [] => positions
    end in
  let '(borderEntity, g2) :=
    globe_add {| oe_name := name +:+ " Border"; oe_position := None;
                 oe_billboard := None; oe_label := None; oe_point := None;
                 oe_polyline :=
                   Some {| pl_positions := closedPositions;
                           pl_width :=
                             n_or (polygonBorderWidth options)
                               (n_or (polygonStrokeWidth options) 3) |};
                 oe_polygon := None |} g1 in
  ([entity; borderEntity], g2).

(** [renderLineString] (lines 48-70). *)
Definition renderLineString (options : KmlOptions) (line : KmlShape) (g : Globe)
    : nat * Globe :=
  globe_add {| oe_name := string_or (Some (ks_name line)) "Line";
               oe_position := None; oe_billboard := None; oe_label := None;
               oe_point := None;
               oe_polyline :=
                 Some {| pl_positions := kmlCartesian <$> ks_positions line;
                         pl_width := n_or (lineWidth options) 3 |};
               oe_polygon := None |} g.

(** [renderPoint] (lines 78-115). *)
Definition renderPoint (options : KmlOptions) (point : KmlPoint) (g : Globe)
    : nat * Globe :=
  globe_add {| oe_name := string_or (Some (kpt_name point)) "Point";
               oe_position := Some (kmlCartesian (kpt_position point));
               oe_billboard := None;
               oe_label :=
                 if pointShowLabel options
                 then Some {| lbl_text := kpt_name point;
                              lbl_font := "14px sans-serif"; lbl_show := true |}
                 else None;
               oe_point :=
                 Some {| pt_pixelSize := n_or (pointPixelSize options) 10 |};
               oe_polyline := None; oe_polygon := None |} g.

(** [renderKMLData] (lines 150-208) on data without billboards, as
    [kmlToCesiumFormat] gives them; the camera is left out. *)
Definition renderKMLData (options : KmlOptions) (data : CesiumData) (g : Globe)
    : list nat * Globe :=
  let g0 := if clearExisting options then globe_removeAll g else g in
  let st1 :=
    if pointShow options
    then foldl (λ st point, let '(h, g') := renderPoint options point st.2 in
                            (st.1 ++ [h], g'))
               ([], g0) (kml_points data)
    else ([], g0) in
  let st2 :=
    foldl (λ st line, let '(h, g') := renderLineString options line st.2 in
                      (st.1 ++ [h], g'))
          st1 (kml_lines data) in
  foldl (λ st polygon, let '(hs, g') := renderPolygon options polygon st.2 in
                       (st.1 ++ hs, g'))
        st2 (kml_polygons data).

Definition pathCartesian (wp : PathWaypoint) : Cartesian3 :=
  fromDegrees (pw_longitude wp) (pw_latitude wp) (float_or_zero (pw_altitude wp)).

(** The marker of waypoint [index] of [count] (lines 68-96 of
    [utils/pathGenerator.js]). *)
Definition waypointMarker (style : PathStyle) (count index : nat) (wp : PathWaypoint)
    : OverlayEntity :=
  {| oe_name := "Waypoint " +:+ pretty (index + 1);
     oe_position := Some (pathCartesian wp);
     oe_billboard := None;
     oe_label :=
       Some {| lbl_text := pretty (index + 1); lbl_font := "12px sans-serif";
               lbl_show :=
                 bool_decide (index = 0 ∨ Z.of_nat index = (Z.of_nat count - 1)%Z) |};
     oe_point := Some {| pt_pixelSize := path_pointSize style |};
     oe_polyline := None; oe_polygon := None |}.

(** [renderSurveillancePath(viewer, waypoints, style)]; [waypoints] is
    [None] when the response has none. *)
Definition renderSurveillancePath (waypoints : option (list PathWaypoint))
    (style : PathStyle) (g : Globe) : option PathData * Globe :=
  match waypoints with
  | None => (None, g)
  | Some wps =>
      if bool_decide (length wps < 2) then (None, g)
      else
        let '(pathEnt, g1) :=
          globe_add {| oe_name := "Surveillance Path"; oe_position := None;
                       oe_billboard := None; oe_label := None; oe_point := None;
                       oe_polyline :=
                         Some {| pl_positions := pathCartesian <$> wps;
                                 pl_width := path_lineWidth style |};
                       oe_polygon := None |} g in
        let st :=
          if showWaypoints style
          then foldl (λ st iw,
                        let '(h, g') :=
                          globe_add (waypointMarker style (length wps) iw.1 iw.2) st.2 in
                        (st.1 ++ [h], g'))
                     ([], g1) (imap (λ index wp, (index, wp)) wps)
          else ([], g1) in
        (Some {| pathEntity := pathEnt; waypointEntities := st.1;
                 pd_waypoints := wps |}, st.2)
  end.

(** [clearSurveillancePath(viewer, pathData)] *)
Definition clearSurveillancePath (pathData : PathData) (g : Globe) : Globe :=
  foldl (λ g h, globe_remove h g) (globe_remove (pathEntity pathData) g)
        (waypointEntities pathData).

(** The viewer, the context, the overlay's state and what it keeps of the
    KML layer: [kmlEntitiesRef], [generatedPath] and the calls of
    [handleGeneratePath] that wait for the path, each with the
    [generatedPath] of the render it was created in; the refs of the drone
    pins, which live in the same collection; and the camera flights of
    [handleFileSelect] that have not completed, each with the position its
    [complete] callback captured. *)
Record Layer := mkLayer {
  layerGlobe : option Globe;
  layerCtx : SharedCtx;
  layerOverlay : Overlay;
  kmlEntitiesRef : list nat;
  generatedPath : option PathData;
  inFlight : list (option PathData);
  layerDroneEntityRef : option nat;
  layerDroneEntitiesRef : gmap N nat;
  flights : list (option float * option float);
}.

(** The pins as the layer holds them. *)
Definition layerPins (l : Layer) : Pins :=
  {| globe := layerGlobe l; droneEntityRef := layerDroneEntityRef l;
     droneEntitiesRef := layerDroneEntitiesRef l |}.

(** [handleFileSelect] for a file with a valid name that parses to [data]
    (lines 209-297); [lon] and [lat] are the position of the telemetry the
    handler was created with.  Step 1 removes the UAV pin, step 2 renders
    the file, step 3 flies the camera when the bounds are finite, and the
    pin is re-created by [updateUavPin] when the flight completes (step 4)
    or, without a flight, at once. *)
Definition kmlFileSelected (file : string) (data : CesiumData) (lon lat : option float)
    (l : Layer) : Layer :=
  let '(c, o) := handleFileSelect file true true (layerCtx l) (layerOverlay l) in
  match globe (removeUavPin (layerPins l)) with
  | Some g =>
      let p1 := removeUavPin (layerPins l) in
      let '(ents, g') := renderKMLData fileSelectOptions data g in
      let p2 := {| globe := Some g'; droneEntityRef := droneEntityRef p1;
                   droneEntitiesRef := droneEntitiesRef p1 |} in
      if cameraFlies (kml_bounds data) lon lat
      then {| layerGlobe := globe p2; layerCtx := c; layerOverlay := o;
              kmlEntitiesRef := ents; generatedPath := generatedPath l;
              inFlight := inFlight l;
              layerDroneEntityRef := droneEntityRef p2;
              layerDroneEntitiesRef := droneEntitiesRef p2;
              flights := flights l ++ [(lon, lat)] |}
      else
        let p3 := updateUavPin lon lat p2 in
        {| layerGlobe := globe p3; layerCtx := c; layerOverlay := o;
           kmlEntitiesRef := ents; generatedPath := generatedPath l;
           inFlight := inFlight l;
           layerDroneEntityRef := droneEntityRef p3;
           layerDroneEntitiesRef := droneEntitiesRef p3;
           flights := flights l |}
  | None =>
      {| layerGlobe := None; layerCtx := c; layerOverlay := o;
         kmlEntitiesRef := kmlEntitiesRef l; generatedPath := generatedPath l;
         inFlight := inFlight l;
         layerDroneEntityRef := layerDroneEntityRef l;
         layerDroneEntitiesRef := layerDroneEntitiesRef l;
         flights := flights l |}
  end.

(** The [complete] callback of the oldest flight (lines 277-280). *)
Definition flightCompletes (l : Layer) : Layer :=
  match flights l with
  | [] => l
  | (lon, lat) :: rest =>
      let p := updateUavPin lon lat (layerPins l) in
      {| layerGlobe := globe p; layerCtx := layerCtx l;
         layerOverlay := layerOverlay l;
         kmlEntitiesRef := kmlEntitiesRef l; generatedPath := generatedPath l;
         inFlight := inFlight l;
         layerDroneEntityRef := droneEntityRef p;
         layerDroneEntitiesRef := droneEntitiesRef p;
         flights := rest |}
  end.

(** [onClearKml] (lines 399-419). *)
Definition onClearKml (l : Layer) : Layer :=
  let c := {| kmlUploaded := false;
              manualWaypointsCount := manualWaypointsCount (layerCtx l) |} in
  let o := setUploadedKmlFile None (layerOverlay l) in
  match layerGlobe l with
  | Some g =>
      let g1 := match generatedPath l with
                | Some pathData => clearSurveillancePath pathData g
                | None => g
                end in
      {| layerGlobe := Some (foldl (λ g h, globe_remove h g) g1 (kmlEntitiesRef l));
         layerCtx := c; layerOverlay := o;
         kmlEntitiesRef := []; generatedPath := None; inFlight := inFlight l;
         layerDroneEntityRef := layerDroneEntityRef l;
         layerDroneEntitiesRef := layerDroneEntitiesRef l;
         flights := flights l |}
  | None =>
      {| layerGlobe := None; layerCtx := c; layerOverlay := o;
         kmlEntitiesRef := kmlEntitiesRef l; generatedPath := generatedPath l;
         inFlight := inFlight l;
         layerDroneEntityRef := layerDroneEntityRef l;
         layerDroneEntitiesRef := layerDroneEntitiesRef l;
         flights := flights l |}
  end.

(** The listener of "generate-kml-path" and [handleGeneratePath] up to its
    [await] (lines 425-459); [hasGps] is [telemetry && telemetry.gps] in the
    render the listener was registered in. *)
Definition generatePathRequested (hasGps : bool) (l : Layer) : Layer :=
  match onGeneratePath (layerCtx l) (layerOverlay l) with
  | [] => l
  | _ :: _ =>
      if (bool_decide (is_Some (uploadedKmlFile (layerOverlay l))) && hasGps
          && bool_decide (is_Some (layerGlobe l)))%bool
      then {| layerGlobe := layerGlobe l; layerCtx := layerCtx l;
              layerOverlay := setIsGeneratingPath true (layerOverlay l);
              kmlEntitiesRef := kmlEntitiesRef l; generatedPath := generatedPath l;
              inFlight := inFlight l ++ [generatedPath l];
              layerDroneEntityRef := layerDroneEntityRef l;
              layerDroneEntitiesRef := layerDroneEntitiesRef l;
              flights := flights l |}
      else l
  end.

(** [handleGeneratePath] from the [await] on (lines 463-504): [result] is
    [None] when [generateSurveillancePath] throws, else [result.waypoints]. *)
Definition generatePathSettles (result : option (option (list PathWaypoint)))
    (l : Layer) : Layer :=
  match inFlight l with
  | [] => l
  | captured :: rest =>
      let o := setIsGeneratingPath false (layerOverlay l) in
      match result, layerGlobe l with
      | Some waypoints, Some g =>
          let g1 := match captured with
                    | Some pathData => clearSurveillancePath pathData g
                    | None => g
                    end in
          let '(pathData, g2) := renderSurveillancePath waypoints generatedPathStyle g1 in
          {| layerGlobe := Some g2; layerCtx := layerCtx l; layerOverlay := o;
             kmlEntitiesRef := kmlEntitiesRef l; generatedPath := pathData;
             inFlight := rest;
             layerDroneEntityRef := layerDroneEntityRef l;
             layerDroneEntitiesRef := layerDroneEntitiesRef l;
             flights := flights l |}
      | _, _ =>
          {| layerGlobe := layerGlobe l; layerCtx := layerCtx l; layerOverlay := o;
             kmlEntitiesRef := kmlEntitiesRef l; generatedPath := generatedPath l;
             inFlight := rest;
             layerDroneEntityRef := layerDroneEntityRef l;
             layerDroneEntitiesRef := layerDroneEntitiesRef l;
             flights := flights l |}
      end
  end.

Inductive LayerEvent :=
  | GeneratePathRequested (hasGps : bool)
  | GeneratePathSettles (result : option (option (list PathWaypoint)))
  | ClearKmlRequested.

Definition layerStep (l : Layer) (e : LayerEvent) : Layer :=
  match e with
  | GeneratePathRequested hasGps => generatePathRequested hasGps l
  | GeneratePathSettles result => generatePathSettles result l
  | ClearKmlRequested => onClearKml l
  end.

Definition clearsKml (e : LayerEvent) : bool :=
  match e with
  | ClearKmlRequested => true
  | _ => false
  end.

(** The entities of a rendered path. *)
Definition pathEntities (pathData : option PathData) : list nat :=
  match pathData with
  | Some pd => pathEntity pd :: waypointEntities pd
  | None => []
  end.

(** [g'] is [g] after the entities [ents] were added, in this order. *)
Definition added (g g' : Globe) (ents : list nat) : Prop :=
  shown g' = shown g ++ ents
  ∧ ents = seq (nextHandle g) (length ents)
  ∧ nextHandle g' = nextHandle g + length ents.

(** What the path events keep, for a viewer that held the entities of
    [g0] before any path was rendered and a ref that held [kml] then;
    [cleared] tells whether the KML was cleared since. *)
Definition layer_inv (g0 : Globe) (kml : list nat) (cleared : bool) (l : Layer) : Prop :=
  ∃ g, layerGlobe l = Some g
    ∧ kmlEntitiesRef l = (if cleared then [] else kml)
    ∧ shown g
      = (if cleared then filter (λ h, h ∉ kml) (shown g0) else shown g0)
        ++ pathEntities (generatedPath l)
    ∧ nextHandle g0 ≤ nextHandle g
    ∧ (∀ h, h ∈ pathEntities (generatedPath l) → nextHandle g0 ≤ h)
    ∧ (∀ pd, generatedPath l = Some pd →
         2 ≤ length (pd_waypoints pd)
         ∧ length (waypointEntities pd) = length (pd_waypoints pd))
    ∧ length (inFlight l) ≤ 1
    ∧ (isGeneratingPath (layerOverlay l) = true ↔ inFlight l ≠ [])
    ∧ (∀ c, c ∈ inFlight l →
         (c = generatedPath l ∨ generatedPath l = None)
         ∧ ∀ h, h ∈ pathEntities c → nextHandle g0 ≤ h).

End Layers.

End Overlay.

(* ------------------------------------------------------------------ *)
(** ** The spec's reading of the store, and concrete inputs *)
(* ------------------------------------------------------------------ *)

Module Reference.
Import Planner.

(** [update(id, patch)] of the spec: the waypoint whose id matches. *)
Definition update_by_id (i : string) (patch : Patch) (wps : list Waypoint) : list Waypoint :=
  (λ wp, if decide (id wp = i) then spread wp patch else wp) <$> wps.

(** [remove(id)] of the spec. *)
Definition remove_by_id (i : string) (wps : list Waypoint) : list Waypoint :=
  filter (λ wp, id wp ≠ i) wps.
End Reference.

Module Sample.
Import Planner.

Definition wpA : Waypoint := mkWaypoint "a" 77.5%float 12.5%float 5%float "WAYPOINT".
Definition wpB : Waypoint := mkWaypoint "b" 77.625%float 12.5%float 5%float "WAYPOINT".
Definition wpC : Waypoint := mkWaypoint "c" 77.75%float 13%float 5%float "WAYPOINT".

Definition threeWaypoints : Panel :=
  setWaypoints (λ _, [wpA; wpB; wpC]) initialPanel.

Definition landPatch : Patch := mkPatch None None None None (Some "LAND").

Definition addingPanel : Panel :=
  {| addMode := true; selectedIdx := None; waypoints := [];
     missionStatus := EmptyString; plannerMode := MANUAL; selectedDroneId := None |}.

Definition kmlLoaded : SharedCtx :=
  {| kmlUploaded := true; manualWaypointsCount := 0 |}.

Definition tickN : Snapshot := mkSnapshot false "tick N".
Definition tickN1 : Snapshot := mkSnapshot false "tick N+1".

Definition noContext : SharedCtx :=
  {| kmlUploaded := false; manualWaypointsCount := 0 |}.

(** An empty viewer of the stand-in rendering surface. *)
Definition emptyViewer : @Viewer flatCesium :=
  {| objects := ∅; entities := []; nextEntity := 0; calls := [] |}.

Definition emptyScene : @Scene flatCesium :=
  {| viewer := Some emptyViewer; entitiesRef := emptyEntitiesRef;
     ctx := noContext |}.

Definition drone : Overlay.DroneSummary :=
  Overlay.mkDroneSummary 12.5%float 77.5%float "GUIDED".

Definition fleet12 : Overlay.FleetData :=
  Overlay.mkFleetData 2 (Some (<[1%N := drone]> (<[2%N := drone]> ∅))).
Definition fleet1 : Overlay.FleetData :=
  Overlay.mkFleetData 1 (Some (<[1%N := drone]> ∅)).

Definition twoDrones : gmap N Overlay.DroneSummary :=
  <[1%N := drone]> (<[2%N := drone]> ∅).

(** A viewer of the stand-in rendering surface without entities. *)
Definition emptyGlobe : @Overlay.Globe flatCesium :=
  {| Overlay.pinObjects := ∅; Overlay.shown := []; Overlay.nextHandle := 0 |}.

Definition noPins : @Overlay.Pins flatCesium :=
  {| Overlay.globe := Some emptyGlobe; Overlay.droneEntityRef := None;
     Overlay.droneEntitiesRef := ∅ |}.

Definition corner (lon lat : float) : Overlay.KmlPosition :=
  Overlay.mkKmlPosition lon lat 0%float.

(** A field with its access road. *)
Definition fieldKml : Overlay.CesiumData :=
  {| Overlay.kml_polygons :=
       [Overlay.mkKmlShape "Field"
          [corner 77.5%float 12.5%float; corner 77.625%float 12.5%float;
           corner 77.625%float 13%float]];
     Overlay.kml_lines :=
       [Overlay.mkKmlShape "Road" [corner 77.5%float 12.5%float; corner 77.75%float 13%float]];
     Overlay.kml_points := [];
     Overlay.kml_bounds := Some (Overlay.mkBounds 77.5%float 12.5%float 77.75%float 13%float) |}.

(** The overlay before a file is chosen, with the UAV pin on the globe. *)
Definition pinnedGlobe : @Overlay.Globe flatCesium :=
  (Overlay.globe_add
     {| Overlay.oe_name := "UAV";
        Overlay.oe_position := Some (fromDegrees 77.5%float 12.5%float 0%float);
        Overlay.oe_billboard := Some (Overlay.mkBillboardGraphics 48 48 None);
        Overlay.oe_label := None; Overlay.oe_point := None;
        Overlay.oe_polyline := None; Overlay.oe_polygon := None |} emptyGlobe).2.

Definition pinnedLayer : @Overlay.Layer flatCesium :=
  {| Overlay.layerGlobe := Some pinnedGlobe; Overlay.layerCtx := noContext;
     Overlay.layerOverlay := Overlay.initialOverlay;
     Overlay.kmlEntitiesRef := []; Overlay.generatedPath := None;
     Overlay.inFlight := [];
     Overlay.layerDroneEntityRef := Some 0;
     Overlay.layerDroneEntitiesRef := ∅;
     Overlay.flights := [] |}.

(** The overlay with [area.kml] loaded and rendered, and no path yet. *)
Definition kmlLayer : @Overlay.Layer flatCesium :=
  Overlay.kmlFileSelected "area.kml" fieldKml (Some 77.5%float) (Some 12.5%float)
    pinnedLayer.

Definition kmlGlobe : @Overlay.Globe flatCesium :=
  default emptyGlobe (Overlay.layerGlobe kmlLayer).

Definition twoLegs : list Overlay.PathWaypoint :=
  [Overlay.mkPathWaypoint 77.5%float 12.5%float 50%float;
   Overlay.mkPathWaypoint 77.625%float 12.5%float 50%float;
   Overlay.mkPathWaypoint 77.625%float 13%float 50%float].
End Sample.

(* ================================================================== *)
(** * Part II: properties *)
(* ================================================================== *)

Import Planner.

(** ** The waypoint store *)

Lemma filter_with_index_drop_one {A} (l : list A) (idx base : nat) :
  filter_with_index (λ _ i, negb (bool_decide (i = base + idx))) base l
  = take idx l ++ drop (S idx) l.
Proof.
  revert idx base. induction l as [|x l IH]; intros idx base; simpl.
  - by destruct idx.
  - destruct idx as [|idx]; simpl.
    + rewrite Nat.add_0_r, bool_decide_eq_true_2 by done. simpl.
      clear IH. rewrite drop_0.
      assert (Hgen : ∀ (k : list A) b, base < b →
                filter_with_index (λ _ i, negb (bool_decide (i = base))) b k = k).
      { induction k as [|y k IHk]; intros b Hb; simpl; [done|].
        rewrite bool_decide_eq_false_2 by lia. simpl. f_equal. apply IHk. lia. }
      apply Hgen. lia.
    + rewrite bool_decide_eq_false_2 by lia. simpl. f_equal.
      replace (base + S idx) with (S base + idx) by lia. apply IH.
Qed.

Lemma removeWaypoint_waypoints idx s :
  waypoints (removeWaypoint idx s) = take idx (waypoints s) ++ drop (S idx) (waypoints s).
Proof.
  unfold removeWaypoint. case_decide; simpl;
    apply (filter_with_index_drop_one (waypoints s) idx 0).
Qed.

Lemma updateWaypoint_lookup idx patch s j :
  waypoints (updateWaypoint idx patch s) !! j
  = (λ wp, if decide (j = idx) then spread wp patch else wp) <$> waypoints s !! j.
Proof. unfold updateWaypoint; simpl. apply list_lookup_imap. Qed.

(** The store operations address a waypoint by its position. *)
Lemma updateWaypoint_out_of_range idx patch s :
  length (waypoints s) ≤ idx → waypoints (updateWaypoint idx patch s) = waypoints s.
Proof.
  intros Hle. apply list_eq. intros j. rewrite updateWaypoint_lookup.
  destruct (waypoints s !! j) as [wp|] eqn:Hj; simpl; [|done].
  apply lookup_lt_Some in Hj. case_decide; [lia|done].
Qed.

Lemma removeWaypoint_out_of_range idx s :
  length (waypoints s) ≤ idx → waypoints (removeWaypoint idx s) = waypoints s.
Proof.
  intros Hle. rewrite removeWaypoint_waypoints.
  rewrite take_ge, drop_ge by lia. apply app_nil_r.
Qed.

(** C2 (as amended): [updateWaypoint] and [removeWaypoint] resolve their
    target by its position in the current list.  An update merges the patch
    into the element at index [idx] and leaves every other position as it
    was; a removal deletes the element at index [idx] and keeps the others
    in order; an index past the end of the list leaves the list unchanged. *)
Theorem store_ops_are_positional (idx : nat) (patch : Patch) (s : Panel) :
  (∀ j, waypoints (updateWaypoint idx patch s) !! j
        = if decide (j = idx) then (λ wp, spread wp patch) <$> waypoints s !! j
          else waypoints s !! j)
  ∧ length (waypoints (updateWaypoint idx patch s)) = length (waypoints s)
  ∧ waypoints (removeWaypoint idx s)
    = take idx (waypoints s) ++ drop (S idx) (waypoints s)
  ∧ (length (waypoints s) ≤ idx →
     waypoints (updateWaypoint idx patch s) = waypoints s
     ∧ waypoints (removeWaypoint idx s) = waypoints s).
Proof.
  split_and!.
  - intros j. rewrite updateWaypoint_lookup.
    case_decide; [done|]. by destruct (waypoints s !! j).
  - unfold updateWaypoint; simpl. apply length_imap.
  - apply removeWaypoint_waypoints.
  - intros Hle. split.
    + by apply updateWaypoint_out_of_range.
    + by apply removeWaypoint_out_of_range.
Qed.

(** C2 (counterexample): the target of an update or a removal is not
    resolved by id.  Waypoint "b" is at index 1 of [a; b; c]; once the
    waypoint before it is removed, the operations addressed to that index
    change, respectively delete, waypoint "c" and leave "b" as it was. *)
Lemma stale_index_hits_other_waypoint :
  let s0 := Sample.threeWaypoints in
  let s1 := removeWaypoint 0 s0 in
  waypoints s0 !! 1 = Some Sample.wpB
  ∧ waypoints (updateWaypoint 1 Sample.landPatch s1)
    = [Sample.wpB; spread Sample.wpC Sample.landPatch]
  ∧ waypoints (updateWaypoint 1 Sample.landPatch s1)
    ≠ Reference.update_by_id (id Sample.wpB) Sample.landPatch (waypoints s1)
  ∧ waypoints (removeWaypoint 1 s1) = [Sample.wpB]
  ∧ waypoints (removeWaypoint 1 s1)
    ≠ Reference.remove_by_id (id Sample.wpB) (waypoints s1).
Proof.
  split_and!; try reflexivity.
  - intros Heq. vm_compute in Heq. discriminate Heq.
  - intros Heq. vm_compute in Heq. discriminate Heq.
Qed.

(** ** Adding a waypoint by a click *)

(** C10: a click in add mode (manual planner, on the globe) appends one
    waypoint with the generated UUID as id, altitude 5 and mode "WAYPOINT";
    the waypoints that were there are a prefix of the new list, unchanged
    and in the same order. *)
Theorem click_appends_waypoint `{CesiumAPI} (uuid : string) (click : ScreenPos)
    (s : Panel) (pos : Cartesian3) (deg : Degrees) :
  addMode s = true →
  plannerMode s = MANUAL →
  pickEllipsoid click = Some pos →
  toDegrees (Some pos) = Some deg →
  waypoints (leftClickFn uuid click s)
  = waypoints s ++ [ {| id := uuid; longitude := deg_longitude deg;
                        latitude := deg_latitude deg;
                        altitude := 5%float; mode := "WAYPOINT" |} ]
  ∧ DEFAULT_ALTITUDE_M = 5%float
  ∧ take (length (waypoints s)) (waypoints (leftClickFn uuid click s)) = waypoints s.
Proof.
  intros Hadd Hmode Hpick Hdeg.
  assert (Hw : waypoints (leftClickFn uuid click s)
               = waypoints s ++ [ {| id := uuid; longitude := deg_longitude deg;
                                     latitude := deg_latitude deg;
                                     altitude := 5%float; mode := "WAYPOINT" |} ]).
  { unfold leftClickFn. rewrite Hadd, Hmode, Hpick, Hdeg. reflexivity. }
  split_and!; [exact Hw|reflexivity|].
  rewrite Hw. by rewrite take_app_length.
Qed.

Lemma click_appends_waypoint_witness :
  waypoints (@leftClickFn flatCesium "3f2c" (1%float, 2%float) Sample.addingPanel)
  = [ mkWaypoint "3f2c" 1%float 2%float 5%float "WAYPOINT" ].
Proof.
  exact (proj1 (@click_appends_waypoint flatCesium "3f2c" (1%float, 2%float)
                  Sample.addingPanel (1%float, 2%float, 0%float)
                  (mkDegrees 1%float 2%float 0%float)
                  eq_refl eq_refl eq_refl eq_refl)).
Defined.

(** With an id that no waypoint carries yet, ids stay pairwise distinct. *)
Lemma addWaypointAt_ids_NoDup uuid lng lat alt s :
  NoDup (id <$> waypoints s) → uuid ∉ id <$> waypoints s →
  NoDup (id <$> waypoints (addWaypointAt uuid lng lat alt s)).
Proof.
  intros Hnd Hfresh. unfold addWaypointAt; simpl. rewrite fmap_app; simpl.
  apply NoDup_app. split_and!; [done| |apply NoDup_singleton].
  intros x Hx Hx'. apply list_elem_of_singleton in Hx'. by subst.
Qed.

(** ** Manual mission upload *)

(** C9: after a failed manual mission upload the panel's state differs from
    the state before only in the status message: the waypoint list, every
    waypoint in it, the selection and the modes are the same.  When the
    backend sent a detail text, the status message is that text, and the
    only other thing shown is an alert with the same text. *)
Theorem failed_upload_keeps_mission (outcome : PostOutcome) (s : Panel) :
  upload_failed outcome →
  let r := handleStartMission outcome s in
  waypoints r.1 = waypoints s
  ∧ selectedIdx r.1 = selectedIdx s
  ∧ addMode r.1 = addMode s
  ∧ plannerMode r.1 = plannerMode s
  ∧ selectedDroneId r.1 = selectedDroneId s
  ∧ (∀ d, waypoints s ≠ [] → backend_detail outcome = Some d → truthy_string d = true →
       missionStatus r.1 = d
       ∧ ∃ body, r.2 = [PostManualMission body; Alert d] ∧ rb_waypoints body = waypoints s).
Proof.
  intros Hfail r. subst r. unfold handleStartMission.
  destruct (waypoints s) as [|w ws] eqn:Hw.
  { simpl. rewrite Hw. split_and!; done. }
  destruct outcome as [m str|[|] body]; simpl in *; rewrite ?Hw; try done.
  split_and!; try done.
  intros d _ Hd Ht. destruct body as [b|]; simpl in *; [|done].
  rewrite Hd. simpl. rewrite Ht. simpl. rewrite Ht. eauto.
Qed.

Lemma failed_upload_keeps_mission_witness :
  let outcome := PostResponds false (Some (mkJsonBody (Some "Drone not connected") false)) in
  let r := handleStartMission outcome Sample.threeWaypoints in
  waypoints r.1 = waypoints Sample.threeWaypoints
  ∧ missionStatus r.1 = "Drone not connected".
Proof.
  pose proof (failed_upload_keeps_mission
                (PostResponds false (Some (mkJsonBody (Some "Drone not connected") false)))
                Sample.threeWaypoints I) as Hthm.
  simpl in Hthm. destruct Hthm as (Hw & _ & _ & _ & _ & Hd).
  split; [exact Hw|].
  apply (Hd "Drone not connected"); [discriminate|reflexivity|reflexivity].
Defined.

(** ** Fleet status and the selected drone *)

Lemma Object_keys_elem_of {A} (f : gmap N A) (k : N) :
  k ∈ Overlay.Object_keys f ↔ k ∈ dom f.
Proof.
  unfold Overlay.Object_keys. rewrite merge_sort_Permutation.
  rewrite elem_of_dom, list_elem_of_fmap. split.
  - intros [[k' v] [-> Hkv]]. apply elem_of_map_to_list in Hkv. eauto.
  - intros [v Hv]. exists (k, v). split; [done|]. by apply elem_of_map_to_list.
Qed.

Lemma Object_keys_nil {A} (f : gmap N A) :
  Overlay.Object_keys f = [] ↔ f = ∅.
Proof.
  split.
  - intros Hnil. apply map_empty. intros k.
    apply not_elem_of_dom. rewrite <- Object_keys_elem_of, Hnil.
    apply not_elem_of_nil.
  - intros ->. reflexivity.
Qed.

(** The first key that [Object.keys] lists is the smallest system id. *)
Lemma Object_keys_head {A} (f : gmap N A) (k : N) (rest : list N) :
  Overlay.Object_keys f = k :: rest →
  k ∈ dom f ∧ ∀ j, j ∈ dom f → (k ≤ j)%N.
Proof.
  intros Hkeys. split.
  - apply Object_keys_elem_of. rewrite Hkeys. apply list_elem_of_here.
  - intros j Hj. apply Object_keys_elem_of in Hj. rewrite Hkeys in Hj.
    pose proof (StronglySorted_merge_sort N.le (map_to_list f).*1) as Hs.
    fold (Overlay.Object_keys f) in Hs. rewrite Hkeys in Hs.
    apply StronglySorted_inv in Hs as [_ Hall].
    apply elem_of_cons in Hj as [->|Hj]; [done|].
    by eapply (proj1 (Forall_forall _ _)) in Hall.
Qed.

(** What [fetchFleetStatus] does is decided by the selection it
    captured: with none captured and a fleet that is not empty, the smallest
    system id of the fleet becomes the selection and one "drone-selected"
    event carrying it is dispatched; in every other case the arrival leaves
    the selection as it was and dispatches nothing. *)
Lemma fetchFleetStatus_by_captured (captured : option N) (o : Overlay.Overlay) :
  (∀ data f, Overlay.fleet data = Some f → f ≠ ∅ →
     truthy_id captured = false →
     ∃ k, k ∈ dom f ∧ (∀ j, j ∈ dom f → (k ≤ j)%N)
          ∧ Overlay.selectedDroneId
              (Overlay.fetchFleetStatus captured (Overlay.FleetResponds true data) o).1
            = Some k
          ∧ (Overlay.fetchFleetStatus captured (Overlay.FleetResponds true data) o).2
            = [EvDroneSelected (Some k)])
  ∧ (∀ r,
       truthy_id captured = true ∨ ¬ Overlay.carries_fleet r →
       Overlay.selectedDroneId (Overlay.fetchFleetStatus captured r o).1
       = Overlay.selectedDroneId o
       ∧ (Overlay.fetchFleetStatus captured r o).2 = []).
Proof.
  split.
  - intros data f Hf Hne Hsel. unfold Overlay.fetchFleetStatus.
    rewrite Hsel, Hf. simpl.
    destruct (Overlay.Object_keys f) as [|k rest] eqn:Hkeys.
    { by apply Object_keys_nil in Hkeys. }
    apply Object_keys_head in Hkeys as [Hin Hmin].
    exists k. by split_and!.
  - intros r Hcase. unfold Overlay.fetchFleetStatus.
    destruct r as [|[|] data]; [done| |done].
    destruct Hcase as [Hsel|Hempty].
    + by rewrite Hsel.
    + destruct (truthy_id captured); simpl; [done|].
      destruct (Overlay.fleet data) as [f|] eqn:Hf; [|done].
      destruct (Overlay.Object_keys f) as [|k rest] eqn:Hkeys; [done|].
      destruct Hempty. exists data, f. split_and!; [done..|].
      intros ->. discriminate Hkeys.
Qed.

(** A call of [fetchFleetStatus] that is waiting for its response when the
    link is disconnected still resumes: the fleet status that arrives is
    applied, a drone is selected by default and "drone-selected" is
    dispatched; the effect that follows the change of the selection then
    blanks the fleet status. *)
Lemma fleet_status_after_disconnect :
  let st := Overlay.fleetRun
              [ Overlay.MultiToggled true; Overlay.Connected; Overlay.FleetTick;
                Overlay.Disconnected;
                Overlay.FleetStatusArrives 0 (Overlay.FleetResponds true Sample.fleet12) ] in
  Overlay.isConnected (Overlay.fp_overlay st) = false
  ∧ Overlay.selectedDroneId (Overlay.fp_overlay st) = Some 1%N
  ∧ Overlay.fleetStatus (Overlay.fp_overlay st) = None
  ∧ Overlay.fleetDispatched st
    = [EvTelemetryConnected; EvTelemetryDisconnected; EvDroneSelected (Some 1%N)].
Proof. split_and!; vm_compute; reflexivity. Qed.

(** C5 (failing input): in connected fleet mode the effect's first call
    and a tick of the interval are both waiting for their response, issued
    while no drone was selected.  The first response selects drone 1 by
    default; the user then selects drone 2.  When the response of the tick
    arrives, a drone is selected, but the call tests the selection it
    captured (none): it replaces drone 2 by drone 1 and dispatches a second
    "drone-selected" event.  The other way round, a call issued while drone
    1 was selected, whose response arrives after the user chose the empty
    entry of the selector, selects nothing and dispatches nothing, although
    no drone is selected and the fleet that arrived is not empty. *)
Theorem stale_fleet_status_replaces_selection :
  (let before :=
     Overlay.fleetRun
       [ Overlay.MultiToggled true; Overlay.Connected; Overlay.FleetTick;
         Overlay.FleetStatusArrives 0 (Overlay.FleetResponds true Sample.fleet12);
         Overlay.SelectChanged (Some 2%N) ] in
   let after :=
     Overlay.fleetStep before
       (Overlay.FleetStatusArrives 1 (Overlay.FleetResponds true Sample.fleet12)) in
   Overlay.selectedDroneId (Overlay.fp_overlay before) = Some 2%N
   ∧ (1, None) ∈ Overlay.fleetRequests before
   ∧ Overlay.selectedDroneId (Overlay.fp_overlay after) = Some 1%N
   ∧ Overlay.fleetDispatched after
     = Overlay.fleetDispatched before ++ [EvDroneSelected (Some 1%N)])
  ∧ (let before :=
       Overlay.fleetRun
         [ Overlay.MultiToggled true; Overlay.Connected;
           Overlay.FleetStatusArrives 0 (Overlay.FleetResponds true Sample.fleet12);
           Overlay.SelectChanged None ] in
     let after :=
       Overlay.fleetStep before
         (Overlay.FleetStatusArrives 1 (Overlay.FleetResponds true Sample.fleet12)) in
     Overlay.selectedDroneId (Overlay.fp_overlay before) = None
     ∧ (1, Some 1%N) ∈ Overlay.fleetRequests before
     ∧ Overlay.carries_fleet (Overlay.FleetResponds true Sample.fleet12)
     ∧ Overlay.selectedDroneId (Overlay.fp_overlay after) = None
     ∧ Overlay.fleetDispatched after = Overlay.fleetDispatched before).
Proof.
  split; cbn zeta; split_and!.
  - vm_compute. reflexivity.
  - vm_compute. apply list_elem_of_here.
  - vm_compute. reflexivity.
  - vm_compute. reflexivity.
  - vm_compute. reflexivity.
  - vm_compute. apply list_elem_of_here.
  - eexists _, _. split_and!; [reflexivity|reflexivity|].
    intros Hempty. apply (f_equal (λ m, m !! 1%N)) in Hempty. discriminate Hempty.
  - vm_compute. reflexivity.
  - vm_compute. reflexivity.
Qed.

(** C4 (counterexample): with drones 1 and 2 in the fleet and drone 2
    chosen in the selector, a fleet status that only lists drone 1, fetched
    after the choice, leaves drone 2 selected.  The responses arrive in the
    order of their requests. *)
Lemma selection_outlives_vehicle :
  let st := Overlay.fleetRun
              [ Overlay.MultiToggled true; Overlay.Connected;
                Overlay.FleetStatusArrives 0 (Overlay.FleetResponds true Sample.fleet12);
                Overlay.FleetStatusArrives 1 (Overlay.FleetResponds true Sample.fleet12);
                Overlay.SelectChanged (Some 2%N);
                Overlay.FleetStatusArrives 2 (Overlay.FleetResponds true Sample.fleet1) ] in
  Overlay.selectedDroneId (Overlay.fp_overlay st) = Some 2%N
  ∧ Overlay.fleetStatus (Overlay.fp_overlay st) = Some Sample.fleet1
  ∧ ∃ f, Overlay.fleet Sample.fleet1 = Some f ∧ 2%N ∉ dom f.
Proof.
  split_and!.
  - vm_compute. reflexivity.
  - vm_compute. reflexivity.
  - eexists. split; [reflexivity|]. apply not_elem_of_dom. reflexivity.
Qed.

(** C4 (as amended): the arrival of a fleet status never clears the
    selection and never tests it against the system ids of the fleet that
    arrived: the selection afterwards is the selection before or a system id
    of that fleet, and it is the selection before whenever the call was made
    with a drone selected, whether or not the new fleet lists that drone. *)
Theorem selection_after_fleet_status (captured : option N) (r : Overlay.FleetFetch)
    (o : Overlay.Overlay) :
  (is_Some (Overlay.selectedDroneId o) →
   is_Some (Overlay.selectedDroneId (Overlay.fetchFleetStatus captured r o).1))
  ∧ (Overlay.selectedDroneId (Overlay.fetchFleetStatus captured r o).1
     = Overlay.selectedDroneId o
     ∨ ∃ data f k, r = Overlay.FleetResponds true data
                   ∧ Overlay.fleet data = Some f ∧ k ∈ dom f
                   ∧ truthy_id captured = false
                   ∧ Overlay.selectedDroneId (Overlay.fetchFleetStatus captured r o).1
                     = Some k)
  ∧ (truthy_id captured = true →
     Overlay.selectedDroneId (Overlay.fetchFleetStatus captured r o).1
     = Overlay.selectedDroneId o)
  ∧ (∀ k, Overlay.selectedDroneId o = Some k → k ≠ 0%N →
          Overlay.selectedDroneId
            (Overlay.fetchFleetStatus (Overlay.selectedDroneId o) r o).1 = Some k).
Proof.
  assert (Hcase : Overlay.selectedDroneId (Overlay.fetchFleetStatus captured r o).1
                  = Overlay.selectedDroneId o
            ∨ ∃ data f k, r = Overlay.FleetResponds true data
                   ∧ Overlay.fleet data = Some f ∧ k ∈ dom f
                   ∧ truthy_id captured = false
                   ∧ Overlay.selectedDroneId (Overlay.fetchFleetStatus captured r o).1
                     = Some k).
  { unfold Overlay.fetchFleetStatus.
    destruct r as [|[|] data]; [by left| |by left].
    destruct (truthy_id captured) eqn:Hsel; simpl; [by left|].
    destruct (Overlay.fleet data) as [f|] eqn:Hf; [|by left].
    destruct (Overlay.Object_keys f) as [|k rest] eqn:Hkeys; [by left|].
    right. exists data, f, k. apply Object_keys_head in Hkeys as [Hin _].
    by split_and!. }
  assert (Hkeep : ∀ c, truthy_id c = true →
            Overlay.selectedDroneId (Overlay.fetchFleetStatus c r o).1
            = Overlay.selectedDroneId o).
  { intros c Hc. unfold Overlay.fetchFleetStatus.
    destruct r as [|[|] data]; [done| |done]. by rewrite Hc. }
  split_and!.
  - intros Hsome. destruct Hcase as [->|(data & f & k & _ & _ & _ & _ & ->)];
      [done|by eexists].
  - exact Hcase.
  - apply Hkeep.
  - intros k Hk Hnz. rewrite Hkeep; [done|]. rewrite Hk. simpl.
    by rewrite (proj2 (N.eqb_neq k 0)).
Qed.

(** ** The telemetry pollers *)

(** C1 (counterexample): the request of the first tick is still in flight
    when the second tick fires; nothing aborts it, and when its response
    arrives after the second tick's response it replaces the newer
    snapshot.  The same holds for the overlay's [fetchTelemetry]. *)
Lemma stale_response_overwrites :
  let p2 := pollRun [OnConnected; TimerFires; TimerFires] in
  let p := pollRun [OnConnected; TimerFires; TimerFires;
                    FetchSettles 1 (FetchResponds true);
                    BodySettles 1 (Some Sample.tickN1);
                    FetchSettles 0 (FetchResponds true);
                    BodySettles 0 (Some Sample.tickN)] in
  inflight p2 = [0; 1] ∧ aborted p2 = []
  ∧ fetchControllerRef p = Some 1
  ∧ Planner.telemetry p = Some Sample.tickN
  ∧ let o2 := Overlay.fetchTelemetry_issue
                (Overlay.fetchTelemetry_issue Overlay.initialOverlay) in
    Overlay.telemetry
      (Overlay.fetchTelemetry_settle 0 (Responds true Sample.tickN)
         (Overlay.fetchTelemetry_settle 1 (Responds true Sample.tickN1) o2))
    = Some Sample.tickN.
Proof. split_and!; vm_compute; reflexivity. Qed.

Lemma inflight_timerFires (p : Poller) (c : nat) :
  c ∈ inflight p → c ∈ inflight (timerFires p).
Proof.
  intros Hc. unfold timerFires.
  destruct (interval p); simpl; [|done].
  destruct (connectedRef p), (mounted p); simpl; try done.
  apply elem_of_app. by left.
Qed.

Lemma aborted_timerFires (p : Poller) : aborted (timerFires p) = aborted p.
Proof.
  unfold timerFires. destruct (interval p); simpl; [|done].
  by destruct (connectedRef p), (mounted p).
Qed.

Lemma reading_timerFires (p : Poller) : reading (timerFires p) = reading p.
Proof.
  unfold timerFires. destruct (interval p); simpl; [|done].
  by destruct (connectedRef p), (mounted p).
Qed.

Lemma bodySettles_applies (c : nat) (data : Snapshot) (p : Poller) :
  c ∈ reading p → c ∉ aborted p → data_fleet data = false →
  Planner.telemetry (bodySettles c (Some data) p) = Some data.
Proof.
  intros Hin Hna Hf. unfold bodySettles.
  rewrite bool_decide_eq_true_2 by done.
  rewrite bool_decide_eq_false_2 by done.
  by rewrite Hf.
Qed.

(** C1 (as amended): a tick issues its request without cancelling any
    earlier one: no controller is aborted by a tick, and every request that
    was in flight or whose body was being read stays so.  A response is
    applied when it arrives: an in-flight, non-aborted request whose OK
    response arrives while the panel is mounted and connected goes on to
    read its body, and the body of a non-aborted request (not a fleet
    snapshot) becomes the displayed telemetry when it has been read,
    whichever tick issued it; for the overlay every OK response of a
    pending request does.  Only stopping the poller aborts a request, and
    only the one issued last. *)
Theorem tick_keeps_earlier_requests (p : Poller) (o : Overlay.Overlay) :
  aborted (timerFires p) = aborted p
  ∧ (∀ c, c ∈ inflight p → c ∈ inflight (timerFires p))
  ∧ reading (timerFires p) = reading p
  ∧ (∀ c data, c ∈ inflight p → c ∉ aborted p →
       mounted p = true → connectedRef p = true → data_fleet data = false →
       Planner.telemetry
         (bodySettles c (Some data) (fetchSettles c (FetchResponds true) p))
       = Some data)
  ∧ (∀ c data, c ∈ reading p → c ∉ aborted p → data_fleet data = false →
       Planner.telemetry (bodySettles c (Some data) p) = Some data)
  ∧ (∀ c, c ∈ aborted (stopPolling p) → c ∈ aborted p ∨ fetchControllerRef p = Some c)
  ∧ Overlay.pending (Overlay.fetchTelemetry_issue o)
    = Overlay.pending o ++ [Overlay.nextRequest o]
  ∧ (∀ n data, n ∈ Overlay.pending o →
       Overlay.telemetry (Overlay.fetchTelemetry_settle n (Responds true data) o)
       = Some data).
Proof.
  split_and!.
  - apply aborted_timerFires.
  - apply inflight_timerFires.
  - apply reading_timerFires.
  - intros c data Hin Hna Hm Hc Hf. apply bodySettles_applies; [| |done].
    + unfold fetchSettles. rewrite bool_decide_eq_true_2 by done.
      rewrite bool_decide_eq_false_2 by done. rewrite Hm, Hc. simpl.
      apply elem_of_app. right. by apply list_elem_of_singleton.
    + unfold fetchSettles. rewrite bool_decide_eq_true_2 by done.
      rewrite bool_decide_eq_false_2 by done. by rewrite Hm, Hc.
  - intros c data. apply bodySettles_applies.
  - intros c. unfold stopPolling; simpl.
    destruct (fetchControllerRef p) as [c'|]; [|by left].
    intros [->|Hc]%elem_of_cons; [by right|by left].
  - reflexivity.
  - intros n data Hin. unfold Overlay.fetchTelemetry_settle.
    by rewrite bool_decide_eq_true_2 by done.
Qed.

(** ** Entity reconciliation *)

Section ReconciliationProofs.
Context `{CesiumAPI}.

Lemma store_id (h : nat) (e : Entity) (v : Viewer) :
  objects v !! h = Some e → store h e v = v.
Proof.
  intros Hh. destruct v as [o es n cs]; unfold store; simpl in *.
  f_equal. by apply insert_id.
Qed.

Lemma refreshPoint_idemp (i : nat) (wp : Waypoint) (e : Entity) :
  refreshPoint i wp (refreshPoint i wp e) = refreshPoint i wp e.
Proof.
  destruct e as [n p [pt|] [lb|] pl]; reflexivity.
Qed.

Lemma setPolylinePositions_idemp (ps : Positions) (e e' : Entity) :
  setPolylinePositions ps e = Some e' → setPolylinePositions ps e' = Some e'.
Proof.
  destruct e as [n p pt lb [pl|]]; unfold setPolylinePositions; simpl; [|done].
  by intros [= <-].
Qed.

Lemma setPolylinePositions_is_Some (ps : Positions) (e : Entity) :
  is_Some (ent_polyline e) → ∃ e', setPolylinePositions ps e = Some e'
                                   ∧ is_Some (ent_polyline e').
Proof.
  intros [pl Hpl]. unfold setPolylinePositions. rewrite Hpl. simpl. eauto.
Qed.

Lemma pop_snoc (arr : list nat) (n : nat) :
  n < length arr → ∃ x arr0, arr = arr0 ++ [x] ∧ pop arr = (Some x, arr0).
Proof.
  intros Hlen. destruct (decide (arr = [])) as [->|Hne]; [simpl in Hlen; lia|].
  destruct (exists_last Hne) as (arr0 & x & ->).
  exists x, arr0. split; [done|]. unfold pop. rewrite last_snoc. f_equal.
  rewrite length_app; simpl.
  replace (length arr0 + 1 - 1) with (length arr0) by lia.
  by rewrite take_app_length.
Qed.

(** *** The trimming loop *)

Lemma trimEntities_noop (fuel needed : nat) (v : Viewer) (arr : list nat) :
  length arr ≤ needed → trimEntities fuel needed v arr = (v, arr).
Proof.
  intros Hle. destruct fuel; simpl; [done|]. case_decide; [lia|done].
Qed.

Lemma trimEntities_spec (fuel needed : nat) (v : Viewer) (arr : list nat) :
  length arr ≤ fuel + needed →
  ∃ v', trimEntities fuel needed v arr = (v', take needed arr)
        ∧ objects v' = objects v
        ∧ nextEntity v' = nextEntity v
        ∧ ∀ h, h ∈ entities v' ↔ h ∈ entities v ∧ h ∉ drop needed arr.
Proof.
  revert v arr. induction fuel as [|fuel IH]; intros v arr Hlen.
  - exists v. simpl. rewrite take_ge, drop_ge by lia.
    split_and!; try done. intros h. rewrite elem_of_nil. tauto.
  - cbn [trimEntities]. case_decide as Hlt.
    + destruct (pop_snoc arr needed Hlt) as (x & arr0 & -> & ->).
      rewrite length_app in Hlen, Hlt; simpl in Hlen, Hlt.
      destruct (IH (entities_remove (Some x) v) arr0) as (v' & Hrun & Ho & Hn & He);
        [lia|].
      exists v'. rewrite Hrun, take_app_le, drop_app_le by lia.
      split_and!; try done. intros h. rewrite He. simpl.
      rewrite list_elem_of_filter, elem_of_app, list_elem_of_singleton. tauto.
    + exists v. rewrite take_ge, drop_ge by lia.
      split_and!; try done. intros h. rewrite elem_of_nil. tauto.
Qed.

(** *** The growing loops *)

Lemma growSegments_noop (fuel needed : nat) (v : Viewer) (segs : list nat) :
  needed ≤ length segs → growSegments fuel needed v segs = (v, segs).
Proof.
  intros Hle. destruct fuel; simpl; [done|]. case_decide; [lia|done].
Qed.

Lemma growSegments_spec (fuel needed : nat) (v : Viewer) (segs : list nat) :
  needed ≤ length segs + fuel →
  ∃ v', growSegments fuel needed v segs
        = (v', segs ++ seq (nextEntity v) (needed - length segs))
        ∧ nextEntity v' = nextEntity v + (needed - length segs)
        ∧ entities v' = entities v ++ seq (nextEntity v) (needed - length segs)
        ∧ (∀ h, h < nextEntity v → objects v' !! h = objects v !! h)
        ∧ (∀ h, nextEntity v ≤ h < nextEntity v' → has_polyline v' h).
Proof.
  revert v segs. induction fuel as [|fuel IH]; intros v segs Hlen.
  - exists v. simpl. replace (needed - length segs) with 0 by lia. simpl.
    rewrite !app_nil_r, Nat.add_0_r. split_and!; try done. intros h ?; lia.
  - simpl. case_decide as Hlt.
    + destruct (IH (entities_add (segmentOptions (length segs)) v).2
                   (segs ++ [nextEntity v])) as (v' & Hrun & Hn & He & Ho & Hp).
      { rewrite length_app; simpl. lia. }
      simpl in *. rewrite length_app in *; simpl in *.
      exists v'. rewrite Hrun.
      replace (needed - length segs) with (S (needed - (length segs + 1))) by lia.
      simpl. rewrite <- !app_assoc. simpl.
      split_and!; [done|lia|by rewrite He, <- app_assoc| |].
      * intros h Hh. rewrite Ho by lia. apply lookup_insert_ne. lia.
      * intros h Hh. destruct (decide (h = nextEntity v)) as [->|Hne].
        -- unfold has_polyline. rewrite Ho by lia. rewrite lookup_insert_eq.
           eexists. split; [done|]. simpl. eauto.
        -- apply Hp. lia.
    + exists v. replace (needed - length segs) with 0 by lia. simpl.
      rewrite !app_nil_r, Nat.add_0_r. split_and!; try done. intros h ?; lia.
Qed.

Lemma growPoints_noop (fuel : nat) (wps : list Waypoint) (v : Viewer) (pts : list nat) :
  length wps ≤ length pts → growPoints fuel wps v pts = Some (v, pts).
Proof.
  intros Hle. destruct fuel; simpl; [done|]. case_decide; [lia|done].
Qed.

Lemma growPoints_spec (fuel : nat) (wps : list Waypoint) (v : Viewer) (pts : list nat) :
  length wps ≤ length pts + fuel →
  ∃ v', growPoints fuel wps v pts
        = Some (v', pts ++ seq (nextEntity v) (length wps - length pts))
        ∧ nextEntity v' = nextEntity v + (length wps - length pts)
        ∧ entities v' = entities v ++ seq (nextEntity v) (length wps - length pts)
        ∧ (∀ h, h < nextEntity v → objects v' !! h = objects v !! h)
        ∧ (∀ h, nextEntity v ≤ h < nextEntity v' → is_Some (objects v' !! h)).
Proof.
  revert v pts. induction fuel as [|fuel IH]; intros v pts Hlen.
  - exists v. simpl. replace (length wps - length pts) with 0 by lia. simpl.
    rewrite !app_nil_r, Nat.add_0_r. split_and!; try done. intros h ?; lia.
  - simpl. case_decide as Hlt.
    + destruct (lookup_lt_is_Some_2 wps (length pts) Hlt) as [wp Hwp].
      rewrite Hwp. simpl.
      destruct (IH (entities_add (pointOptions (length pts) wp) v).2
                   (pts ++ [nextEntity v])) as (v' & Hrun & Hn & He & Ho & Hp).
      { rewrite length_app; simpl. lia. }
      simpl in *. rewrite length_app in *; simpl in *.
      exists v'. rewrite Hrun.
      replace (length wps - length pts)
        with (S (length wps - (length pts + 1))) by lia.
      simpl. rewrite <- !app_assoc. simpl.
      split_and!; [done|lia|by rewrite He, <- app_assoc| |].
      * intros h Hh. rewrite Ho by lia. apply lookup_insert_ne. lia.
      * intros h Hh. destruct (decide (h = nextEntity v)) as [->|Hne].
        -- rewrite Ho by lia. rewrite lookup_insert_eq. eauto.
        -- apply Hp. lia.
    + exists v. replace (length wps - length pts) with 0 by lia. simpl.
      rewrite !app_nil_r, Nat.add_0_r. split_and!; try done. intros h ?; lia.
Qed.

(** *** The update loops *)

Lemma updateSegments_spec (wps : list Waypoint) (segs : list nat) (n i : nat) (v : Viewer) :
  NoDup segs →
  i + n ≤ length segs →
  i + n ≤ length wps - 1 →
  (∀ j h, i ≤ j < i + n → segs !! j = Some h → has_polyline v h) →
  ∃ v', updateSegments n i wps segs v = Some v'
        ∧ nextEntity v' = nextEntity v
        ∧ entities v' = entities v
        ∧ calls v' = calls v
        ∧ (∀ h, (∀ j, i ≤ j < i + n → segs !! j ≠ Some h) →
             objects v' !! h = objects v !! h)
        ∧ (∀ j h, i ≤ j < i + n → segs !! j = Some h →
             ∃ a b e0 e', wps !! j = Some a ∧ wps !! (j + 1) = Some b
                          ∧ objects v !! h = Some e0
                          ∧ setPolylinePositions
                              (PositionList [groundPosition a; groundPosition b]) e0
                            = Some e'
                          ∧ objects v' !! h = Some e').
Proof.
  intros Hnd. revert i v. induction n as [|n IH]; intros i v Hsegs Hwps Hpl.
  - exists v. simpl. split_and!; try done. intros j h ?; lia.
  - cbn [updateSegments].
    destruct (lookup_lt_is_Some_2 wps i) as [a Ha]; [lia|].
    destruct (lookup_lt_is_Some_2 wps (i + 1)) as [b Hb]; [lia|].
    destruct (lookup_lt_is_Some_2 segs i) as [h Hh]; [lia|].
    destruct (Hpl i h) as (e & He & Hsome); [lia|done|].
    destruct (setPolylinePositions_is_Some
                (PositionList [groundPosition a; groundPosition b]) e Hsome)
      as (e' & Hset & Hsome').
    rewrite Ha, Hb, Hh. simpl. rewrite He. simpl. rewrite Hset. simpl.
    assert (Hother : ∀ j h', S i ≤ j → segs !! j = Some h' → h' ≠ h).
    { intros j h' Hj Hj' ->. pose proof (NoDup_lookup _ _ _ _ Hnd Hh Hj'). lia. }
    destruct (IH (S i) (store h e' v)) as (v' & Hrun & Hn & Hes & Hcs & Hframe & Hpost).
    { lia. } { lia. }
    { intros j h' Hj Hj'. destruct (Hpl j h') as (e1 & He1 & Hs1); [lia|done|].
      exists e1. split; [|done]. simpl. rewrite lookup_insert_ne; [done|].
      intros Heq. apply (Hother j h'); [lia|done|congruence]. }
    exists v'. split_and!; try done.
    + intros h' Hnot. rewrite Hframe.
      * simpl. apply lookup_insert_ne. intros Heq. apply (Hnot i); [lia|congruence].
      * intros j Hj. apply Hnot. lia.
    + intros j h' Hj Hj'. destruct (decide (j = i)) as [->|Hne].
      * assert (h' = h) as -> by congruence.
        exists a, b, e, e'. split_and!; try done.
        rewrite Hframe; [simpl; apply lookup_insert_eq|].
        intros j Hj2 Hj3. apply (Hother j h); [lia|done|done].
      * destruct (Hpost j h') as (a1 & b1 & e0 & e1 & ? & ? & Hlk & ? & ?); [lia|done|].
        exists a1, b1, e0, e1. split_and!; try done.
        simpl in Hlk. rewrite lookup_insert_ne in Hlk; [done|].
        intros Heq. apply (Hother j h'); [lia|done|congruence].
Qed.

Lemma updateSegments_fixed (wps : list Waypoint) (segs : list nat) (n i : nat) (v : Viewer) :
  (∀ j, i ≤ j < i + n →
     ∃ a b h e, wps !! j = Some a ∧ wps !! (j + 1) = Some b ∧ segs !! j = Some h
                ∧ objects v !! h = Some e
                ∧ setPolylinePositions
                    (PositionList [groundPosition a; groundPosition b]) e = Some e) →
  updateSegments n i wps segs v = Some v.
Proof.
  revert i. induction n as [|n IH]; intros i Hfix; [done|].
  cbn [updateSegments].
  destruct (Hfix i) as (a & b & h & e & Ha & Hb & Hh & He & Hset); [lia|].
  rewrite Ha, Hb, Hh. simpl. rewrite He. simpl. rewrite Hset. simpl.
  rewrite (store_id _ _ _ He). apply IH. intros j Hj. apply Hfix. lia.
Qed.

Lemma forEachPoint_spec (wps : list Waypoint) (pts : list nat) (i : nat) (v : Viewer) :
  NoDup pts →
  i + length pts ≤ length wps →
  (∀ h, h ∈ pts → is_Some (objects v !! h)) →
  ∃ v', forEachPoint i wps pts v = Some v'
        ∧ nextEntity v' = nextEntity v
        ∧ entities v' = entities v
        ∧ calls v' = calls v
        ∧ (∀ h, h ∉ pts → objects v' !! h = objects v !! h)
        ∧ (∀ j h, pts !! j = Some h →
             ∃ wp e0, wps !! (i + j) = Some wp ∧ objects v !! h = Some e0
                      ∧ objects v' !! h = Some (refreshPoint (i + j) wp e0)).
Proof.
  revert i v. induction pts as [|h pts IH]; intros i v Hnd Hlen Hobj.
  - exists v. simpl. split_and!; try done.
  - apply NoDup_cons in Hnd as [Hnotin Hnd]. simpl in Hlen.
    cbn [forEachPoint].
    destruct (lookup_lt_is_Some_2 wps i) as [wp Hwp]; [lia|].
    destruct (Hobj h) as [e He]; [apply list_elem_of_here|].
    rewrite Hwp. simpl. rewrite He. simpl.
    destruct (IH (S i) (store h (refreshPoint i wp e) v) Hnd)
      as (v' & Hrun & Hn & Hes & Hcs & Hframe & Hpost).
    { lia. }
    { intros h' Hh'. simpl. rewrite lookup_insert_ne; [|by intros ->].
      apply Hobj. by apply list_elem_of_further. }
    exists v'. split_and!; try done.
    + intros h' Hh'. apply not_elem_of_cons in Hh' as [Hne Hh'].
      rewrite Hframe by done. simpl. by apply lookup_insert_ne.
    + intros [|j] h' Hj; simpl in Hj.
      * injection Hj as <-. exists wp, e. rewrite Nat.add_0_r.
        split_and!; try done. rewrite Hframe by done. simpl. apply lookup_insert_eq.
      * destruct (Hpost j h' Hj) as (wp' & e0 & Hwp' & Hlk & Hres).
        replace (i + S j) with (S i + j) by lia.
        exists wp', e0. split_and!; try done.
        simpl in Hlk. rewrite lookup_insert_ne in Hlk; [done|].
        intros ->. apply Hnotin. by eapply list_elem_of_lookup_2.
Qed.

Lemma forEachPoint_fixed (wps : list Waypoint) (pts : list nat) (i : nat) (v : Viewer) :
  (∀ j h, pts !! j = Some h →
     ∃ wp e, wps !! (i + j) = Some wp ∧ objects v !! h = Some e
             ∧ refreshPoint (i + j) wp e = e) →
  forEachPoint i wps pts v = Some v.
Proof.
  revert i. induction pts as [|h pts IH]; intros i Hfix; [done|].
  cbn [forEachPoint].
  destruct (Hfix 0 h eq_refl) as (wp & e & Hwp & He & Hre).
  rewrite Nat.add_0_r in Hwp, Hre.
  rewrite Hwp. simpl. rewrite He. simpl. rewrite Hre, (store_id _ _ _ He).
  apply IH. intros j h' Hj. replace (S i + j) with (i + S j) by lia.
  by apply Hfix.
Qed.

(** *** Ownership of the handles through the loops *)

Lemma neededSegments_eq (wps : list Waypoint) : neededSegments wps = length wps - 1.
Proof. unfold neededSegments. lia. Qed.

Lemma owned_perm (v : Viewer) (hs hs' : list nat) :
  hs ≡ₚ hs' → owned v hs → owned v hs'.
Proof.
  intros Hp [Hnd Hall]. split; [by rewrite <- Hp|].
  intros h Hh. apply Hall. by rewrite Hp.
Qed.

Lemma owned_mono (v v' : Viewer) (hs : list nat) :
  nextEntity v ≤ nextEntity v' →
  (∀ h, h ∈ hs → h ∈ entities v → h ∈ entities v') →
  (∀ h, h ∈ hs → is_Some (objects v !! h) → is_Some (objects v' !! h)) →
  owned v hs → owned v' hs.
Proof.
  intros Hn He Ho [Hnd Hall]. split; [done|].
  intros h Hh. destruct (Hall h Hh) as (? & ? & ?).
  split_and!; [lia|by apply He|by apply Ho].
Qed.

Lemma owned_trim (v v' : Viewer) (arr rest : list nat) (needed : nat) :
  objects v' = objects v →
  nextEntity v' = nextEntity v →
  (∀ h, h ∈ entities v' ↔ h ∈ entities v ∧ h ∉ drop needed arr) →
  owned v (arr ++ rest) → owned v' (take needed arr ++ rest).
Proof.
  intros Ho Hn He [Hnd Hall].
  rewrite <- (take_drop needed arr), <- app_assoc in Hnd.
  apply NoDup_app in Hnd as (Hnd1 & Hdisj & Hnd2).
  apply NoDup_app in Hnd2 as (Hnd2 & Hdisj2 & Hnd3).
  split.
  - apply NoDup_app. split_and!; [done| |done].
    intros x Hx Hx'. apply (Hdisj x Hx). apply elem_of_app. by right.
  - intros h Hh.
    assert (Hin : h ∈ arr ++ rest).
    { apply elem_of_app in Hh as [Hh|Hh]; apply elem_of_app; [left|by right].
      by apply (subseteq_take needed). }
    destruct (Hall h Hin) as (? & ? & ?).
    rewrite Ho, Hn, He. split_and!; try done.
    intros Hd. apply elem_of_app in Hh as [Hh|Hh].
    + apply (Hdisj h Hh). apply elem_of_app. by left.
    + by apply (Hdisj2 h Hd).
Qed.

Lemma owned_grow (v v' : Viewer) (arr rest : list nat) (k : nat) :
  nextEntity v' = nextEntity v + k →
  entities v' = entities v ++ seq (nextEntity v) k →
  (∀ h, h < nextEntity v → objects v' !! h = objects v !! h) →
  (∀ h, nextEntity v ≤ h < nextEntity v' → is_Some (objects v' !! h)) →
  owned v (arr ++ rest) → owned v' ((arr ++ seq (nextEntity v) k) ++ rest).
Proof.
  intros Hn He Ho Hnew [Hnd Hall].
  assert (Hfresh : ∀ h, h ∈ seq (nextEntity v) k → h ∉ arr ++ rest).
  { intros h Hh Hh'. apply elem_of_seq in Hh. apply Hall in Hh'. lia. }
  split.
  - apply NoDup_app in Hnd as (Hnd1 & Hdisj & Hnd2).
    apply NoDup_app. split_and!; [|  |done].
    + apply NoDup_app. split_and!; [done| |apply NoDup_seq].
      intros x Hx Hx'. apply (Hfresh x Hx'). apply elem_of_app. by left.
    + intros x Hx Hx'. apply elem_of_app in Hx as [Hx|Hx]; [by apply (Hdisj x)|].
      apply (Hfresh x Hx). apply elem_of_app. by right.
  - intros h Hh.
    assert (Hcases : h ∈ arr ++ rest ∨ h ∈ seq (nextEntity v) k).
    { rewrite !elem_of_app in Hh. rewrite elem_of_app. tauto. }
    rewrite He, elem_of_app. destruct Hcases as [Hold|Hnew'].
    + destruct (Hall h Hold) as (? & ? & ?). rewrite Ho by done.
      split_and!; [lia|by left|done].
    + pose proof Hnew' as Hrange. apply elem_of_seq in Hrange.
      split_and!; [lia|by right|apply Hnew; lia].
Qed.

(** *** The segment pass *)

Lemma syncYellowSegments_spec (wps : list Waypoint) (v : Viewer) (r : EntitiesRef) :
  table_wf v r →
  ∃ v' segs',
    syncYellowSegments wps v r
    = Some (v', {| points := points r; polyline := polyline r;
                   yellowSegments := segs' |})
    ∧ table_wf v' {| points := points r; polyline := polyline r;
                     yellowSegments := segs' |}
    ∧ segments_synced wps v' segs'
    ∧ segs' = take (neededSegments wps) (yellowSegments r)
              ++ seq (nextEntity v) (neededSegments wps - length (yellowSegments r))
    ∧ (∀ h, h < nextEntity v → h ∉ yellowSegments r →
            objects v' !! h = objects v !! h)
    ∧ nextEntity v ≤ nextEntity v'.
Proof.
  intros [Hown Hpl]. unfold syncYellowSegments.
  set (needed := neededSegments wps). set (segs := yellowSegments r).
  destruct (trimEntities_spec (length segs) needed v segs) as (v1 & Ht & Ho1 & Hn1 & He1);
    [lia|].
  rewrite Ht.
  destruct (growSegments_spec needed needed v1 (take needed segs))
    as (v2 & Hg & Hn2 & He2 & Ho2 & Hp2); [lia|].
  rewrite Hg.
  set (segs2 := take needed segs ++ seq (nextEntity v1) (needed - length (take needed segs))).
  assert (Hk : needed - length (take needed segs) = needed - length segs).
  { rewrite length_take. lia. }
  assert (Hlen2 : length segs2 = needed).
  { unfold segs2. rewrite length_app, length_seq, length_take. lia. }
  assert (Hown2 : owned v2 (points r ++ segs2)).
  { eapply owned_perm; [apply Permutation_app_comm|].
    apply (owned_grow v1 v2 (take needed segs) (points r) _ Hn2 He2 Ho2).
    { intros h Hh. destruct (Hp2 h Hh) as (e & -> & _). eauto. }
    apply (owned_trim v v1 segs (points r) needed Ho1 Hn1 He1).
    eapply owned_perm; [apply Permutation_app_comm|done]. }
  assert (Hpl2 : ∀ h, h ∈ segs2 → has_polyline v2 h).
  { intros h Hh. apply elem_of_app in Hh as [Hh|Hh].
    - apply (subseteq_take needed) in Hh.
      destruct (Hpl h Hh) as (e & He & Hs).
      destruct Hown as [_ Hall]. destruct (Hall h) as (Hlt & _).
      { apply elem_of_app. by right. }
      exists e. rewrite Ho2, Ho1 by lia. done.
    - apply elem_of_seq in Hh. apply Hp2. lia. }
  assert (Hnd2 : NoDup segs2).
  { destruct Hown2 as [Hnd _]. by apply NoDup_app in Hnd as (_ & _ & ?). }
  destruct (updateSegments_spec wps segs2 needed 0 v2 Hnd2)
    as (v3 & Hu & Hn3 & He3 & Hc3 & Hframe & Hpost).
  { lia. } { unfold needed. rewrite neededSegments_eq. lia. }
  { intros j h _ Hj. apply Hpl2. by eapply list_elem_of_lookup_2. }
  rewrite Hu. simpl. exists v3, segs2.
  assert (Hobj3 : ∀ h, is_Some (objects v2 !! h) → is_Some (objects v3 !! h)).
  { intros h Hs. destruct (decide (h ∈ segs2)) as [Hin|Hnin].
    - apply list_elem_of_lookup_1 in Hin as [j Hj].
      destruct (Hpost j h) as (? & ? & ? & e' & _ & _ & _ & _ & ->); [|done|done].
      apply lookup_lt_Some in Hj. lia.
    - rewrite Hframe; [done|]. intros j _ Hj. apply Hnin.
      by eapply list_elem_of_lookup_2. }
  split_and!.
  - done.
  - split; simpl.
    + eapply owned_mono; [| | |exact Hown2]; [lia|by rewrite He3|auto].
    + intros h Hin. apply list_elem_of_lookup_1 in Hin as [j Hj].
      destruct (Hpost j h) as (a & b & e0 & e' & _ & _ & He0 & Hset & He');
        [apply lookup_lt_Some in Hj; lia|done|].
      exists e'. split; [done|].
      unfold setPolylinePositions in Hset.
      destruct (ent_polyline e0); simpl in Hset; [|done].
      injection Hset as <-. simpl. eauto.
  - split; [done|]. intros i a b h Ha Hb Hh.
    destruct (Hpost i h) as (a' & b' & e0 & e' & Ha' & Hb' & He0 & Hset & He');
      [apply lookup_lt_Some in Hh; lia|done|].
    assert (a' = a) as -> by congruence. assert (b' = b) as -> by congruence.
    exists e'. split; [done|]. by eapply setPolylinePositions_idemp.
  - unfold segs2. by rewrite Hn1, Hk.
  - intros h Hlt Hnin. rewrite Hframe.
    + rewrite Ho2, Ho1 by lia. done.
    + intros j _ Hj. apply list_elem_of_lookup_2 in Hj.
      apply elem_of_app in Hj as [Hj|Hj].
      * apply Hnin. by apply (subseteq_take needed).
      * apply elem_of_seq in Hj. lia.
  - lia.
Qed.

(** *** The mission path *)

Lemma ensurePolyline_spec (wps : list Waypoint) (v : Viewer) (r : EntitiesRef) :
  table_wf v r →
  ∃ v0 pl,
    ensurePolyline wps v r
    = (v0, {| points := points r; polyline := Some pl;
              yellowSegments := yellowSegments r |})
    ∧ table_wf v0 {| points := points r; polyline := Some pl;
                     yellowSegments := yellowSegments r |}
    ∧ nextEntity v ≤ nextEntity v0
    ∧ (∀ h, h < nextEntity v → objects v0 !! h = objects v !! h)
    ∧ (∀ pl', polyline r = Some pl' → v0 = v ∧ pl = pl').
Proof.
  intros [Hown Hpl]. unfold ensurePolyline.
  destruct r as [pts [pl|] segs]; simpl in *.
  - exists v, pl. split_and!; try done. by intros pl' [= ->].
  - eexists _, _. split; [reflexivity|]. simpl.
    assert (Hne : ∀ h, h < nextEntity v →
              <[nextEntity v := mkEntity "Mission Path" None None None
                   (Some (mkPolylineGraphics (CallbackProperty wps) 3 "#00FF88"))]>
                (objects v) !! h = objects v !! h).
    { intros h Hh. apply lookup_insert_ne. lia. }
    split_and!; try done; [|lia].
    split; simpl.
    + eapply owned_mono; [| | |exact Hown]; simpl.
      * lia.
      * intros h _ Hh. apply elem_of_app. by left.
      * intros h Hh Hs. destruct Hown as [_ Hall].
        destruct (Hall h Hh) as (Hlt & _). by rewrite Hne.
    + intros h Hh. destruct (Hpl h Hh) as (e & He & Hs).
      destruct Hown as [_ Hall]. destruct (Hall h) as (Hlt & _).
      { apply elem_of_app. by right. }
      exists e. by rewrite Hne.
Qed.

(** *** The marker pass (lines 374-425) *)

Lemma pointsPass_spec (wps : list Waypoint) (v1 : Viewer) (pts segs : list nat)
    (pl : option nat) :
  table_wf v1 {| points := pts; polyline := pl; yellowSegments := segs |} →
  segments_synced wps v1 segs →
  ∃ v2 v3 v4 pts3,
    trimEntities (length pts) (length wps) v1 pts = (v2, take (length wps) pts)
    ∧ growPoints (length wps) wps v2 (take (length wps) pts) = Some (v3, pts3)
    ∧ forEachPoint 0 wps pts3 v3 = Some v4
    ∧ pts3 = take (length wps) pts ++ seq (nextEntity v1) (length wps - length pts)
    ∧ table_wf v4 {| points := pts3; polyline := pl; yellowSegments := segs |}
    ∧ points_synced wps v4 pts3
    ∧ segments_synced wps v4 segs.
Proof.
  intros [Hown Hpl] [Hseglen Hsegs]. simpl in *.
  set (n := length wps).
  destruct (trimEntities_spec (length pts) n v1 pts) as (v2 & Ht & Ho2 & Hn2 & He2);
    [lia|].
  destruct (growPoints_spec n wps v2 (take n pts))
    as (v3 & Hg & Hn3 & He3 & Ho3 & Hs3); [lia|].
  fold n in Hg, Hn3, He3.
  assert (Hk : n - length (take n pts) = n - length pts).
  { rewrite length_take. lia. }
  set (pts3 := take n pts ++ seq (nextEntity v2) (n - length (take n pts))).
  fold pts3 in Hg.
  assert (Hlen3 : length pts3 = n).
  { unfold pts3. rewrite length_app, length_seq, length_take. lia. }
  assert (Hown3 : owned v3 (pts3 ++ segs)).
  { apply (owned_grow v2 v3 (take n pts) segs _ Hn3 He3 Ho3 Hs3).
    by apply (owned_trim v1 v2 pts segs n Ho2 Hn2 He2). }
  assert (Hseg_lt : ∀ h, h ∈ segs → h < nextEntity v1).
  { intros h Hh. destruct Hown as [_ Hall]. apply Hall, elem_of_app. by right. }
  assert (Hseg3 : ∀ h, h ∈ segs → objects v3 !! h = objects v1 !! h).
  { intros h Hh. rewrite Ho3, Ho2; [done|]. rewrite Hn2. by apply Hseg_lt. }
  pose proof Hown3 as [Hnd3 Hall3].
  apply NoDup_app in Hnd3 as (Hndp & Hdisj & Hnds).
  destruct (forEachPoint_spec wps pts3 0 v3 Hndp)
    as (v4 & Hf & Hn4 & He4 & Hc4 & Hframe & Hpost).
  { lia. }
  { intros h Hh. apply Hall3, elem_of_app. by left. }
  assert (Hseg4 : ∀ h, h ∈ segs → objects v4 !! h = objects v1 !! h).
  { intros h Hh. rewrite Hframe, Hseg3; [done..|].
    intros Hin. by apply (Hdisj h). }
  exists v2, v3, v4, pts3. split_and!; try done.
  - unfold pts3. by rewrite Hn2, Hk.
  - split; simpl.
    + eapply owned_mono; [| | |exact Hown3]; [lia|by rewrite He4|].
      intros h _ Hs. destruct (decide (h ∈ pts3)) as [Hin|Hnin].
      * apply list_elem_of_lookup_1 in Hin as [j Hj].
        destruct (Hpost j h Hj) as (? & ? & _ & _ & ->). eauto.
      * by rewrite Hframe.
    + intros h Hh. destruct (Hpl h Hh) as (e & He & Hs).
      exists e. by rewrite Hseg4.
  - split; [done|]. intros i wp h Hwp Hh.
    destruct (Hpost i h Hh) as (wp' & e0 & Hwp' & _ & He4').
    simpl in Hwp'. assert (wp' = wp) as -> by congruence.
    eexists. split; [exact He4'|]. apply refreshPoint_idemp.
  - split; [done|]. intros i a b h Ha Hb Hh.
    destruct (Hsegs i a b h Ha Hb Hh) as (e & He & Hset).
    exists e. split; [|done]. rewrite Hseg4; [done|].
    by eapply list_elem_of_lookup_2.
Qed.

(** *** The whole effect *)

Lemma waypointEffect_spec (wps : list Waypoint) (v : Viewer) (r : EntitiesRef)
    (c : SharedCtx) :
  table_wf v r →
  ∃ v' r',
    waypointEffect wps {| viewer := Some v; entitiesRef := r; ctx := c |}
    = Some {| viewer := Some v'; entitiesRef := r';
              ctx := {| kmlUploaded := kmlUploaded c;
                        manualWaypointsCount := length wps |} |}
    ∧ table_wf v' r'
    ∧ points_synced wps v' (points r')
    ∧ segments_synced wps v' (yellowSegments r')
    ∧ is_Some (polyline r')
    ∧ (∃ n, nextEntity v ≤ n
            ∧ yellowSegments r'
              = take (neededSegments wps) (yellowSegments r)
                ++ seq n (neededSegments wps - length (yellowSegments r)))
    ∧ (∃ n, nextEntity v ≤ n
            ∧ points r'
              = take (length wps) (points r)
                ++ seq n (length wps - length (points r))).
Proof.
  intros Hwf. unfold waypointEffect. simpl.
  destruct (ensurePolyline_spec wps v r Hwf) as (v0 & pl & Hens & Hwf0 & Hn0 & _ & _).
  rewrite Hens.
  destruct (syncYellowSegments_spec wps v0 _ Hwf0)
    as (v1 & segs1 & Hsync & Hwf1 & Hsynced1 & Hsegs1 & _ & Hn1).
  rewrite Hsync. simpl in *.
  destruct (pointsPass_spec wps v1 (points r) segs1 (Some pl) Hwf1 Hsynced1)
    as (v2 & v3 & v4 & pts3 & Ht & Hg & Hf & Hpts3 & Hwf4 & Hps & Hss).
  rewrite Ht, Hg. simpl. rewrite Hf. simpl.
  eexists v4, _. split; [reflexivity|]. simpl.
  split_and!; try done.
  - exists (nextEntity v0). by split.
  - exists (nextEntity v1). split; [lia|done].
Qed.

(** A second pass over a reconciled scene changes nothing. *)
Lemma waypointEffect_fixed (wps : list Waypoint) (sc : Scene) :
  reconciled wps sc → waypointEffect wps sc = Some sc.
Proof.
  intros (v & Hv & _ & [Hplen Hps] & [Hslen Hss] & [pl Hpl] & Hc).
  destruct sc as [vw [pts pl' segs] [kml cnt]]; simpl in *. subst vw pl' cnt.
  unfold waypointEffect, ensurePolyline, syncYellowSegments. simpl.
  rewrite trimEntities_noop, growSegments_noop by lia.
  rewrite updateSegments_fixed; simpl.
  - rewrite trimEntities_noop, growPoints_noop by lia. simpl.
    rewrite forEachPoint_fixed; [done|].
    intros j h Hj. destruct (lookup_lt_is_Some_2 wps j) as [wp Hwp].
    { apply lookup_lt_Some in Hj. lia. }
    destruct (Hps j wp h Hwp Hj) as (e & He & Hre). by exists wp, e.
  - intros j Hj. rewrite neededSegments_eq in Hj, Hslen.
    destruct (lookup_lt_is_Some_2 wps j) as [a Ha]; [lia|].
    destruct (lookup_lt_is_Some_2 wps (j + 1)) as [b Hb]; [lia|].
    destruct (lookup_lt_is_Some_2 segs j) as [h Hh]; [lia|].
    destruct (Hss j a b h Ha Hb Hh) as (e & He & Hset).
    by exists a, b, h, e.
Qed.

Lemma waypointEffect_reconciles (wps : list Waypoint) (sc : Scene) :
  scene_wf sc → ∃ sc', waypointEffect wps sc = Some sc' ∧ reconciled wps sc'.
Proof.
  intros (v & Hv & Hwf). destruct sc as [vw r c]; simpl in *. subst vw.
  destruct (waypointEffect_spec wps v r c Hwf)
    as (v' & r' & Heff & Hwf' & Hps & Hss & Hpl & _).
  eexists. split; [exact Heff|]. exists v'. by split_and!.
Qed.

Lemma reconciled_wf (wps : list Waypoint) (sc : Scene) :
  reconciled wps sc → scene_wf sc.
Proof. intros (v & Hv & Hwf & _). by exists v. Qed.

Lemma emptyEntitiesRef_wf (v : Viewer) : table_wf v emptyEntitiesRef.
Proof.
  split; simpl.
  - split; [apply NoDup_nil_2|]. intros h Hh. by apply elem_of_nil in Hh.
  - intros h Hh. by apply elem_of_nil in Hh.
Qed.

(** Mounting and every store operation leave a reconciled scene; the
    effect never throws. *)
Lemma mountApp_reconciled (v : Viewer) (c : SharedCtx) :
  ∃ a, mountApp v c = Some a ∧ reconciled (waypoints (panel a)) (scene a).
Proof.
  unfold mountApp.
  destruct (waypointEffect_reconciles [] (mkScene (Some v) emptyEntitiesRef c))
    as (sc & -> & Hrec).
  { exists v. split; [done|]. apply emptyEntitiesRef_wf. }
  simpl. eauto.
Qed.

Lemma commit_reconciled (op : StoreOp) (a : App) :
  scene_wf (scene a) →
  ∃ a', commit op a = Some a' ∧ panel a' = applyOp op (panel a)
        ∧ reconciled (waypoints (panel a')) (scene a').
Proof.
  intros Hwf. unfold commit.
  destruct (waypointEffect_reconciles (waypoints (applyOp op (panel a))) (scene a) Hwf)
    as (sc & -> & Hrec).
  simpl. eauto.
Qed.

Lemma run_reconciled (ops : list StoreOp) (a : App) :
  reconciled (waypoints (panel a)) (scene a) →
  ∃ a', run ops a = Some a' ∧ reconciled (waypoints (panel a')) (scene a').
Proof.
  revert a. induction ops as [|op ops IH]; intros a Hrec; simpl; [eauto|].
  destruct (commit_reconciled op a) as (a1 & -> & _ & Hrec1).
  { by eapply reconciled_wf. }
  simpl. by apply IH.
Qed.

Lemma refreshPoint_fixed_position (i : nat) (wp : Waypoint) (e : Entity) :
  refreshPoint i wp e = e → ent_position e = Some (groundPosition wp).
Proof. by intros <-. Qed.

Lemma setPolylinePositions_fixed (ps : Positions) (e : Entity) :
  setPolylinePositions ps e = Some e →
  ∃ pl, ent_polyline e = Some pl ∧ positions pl = ps.
Proof.
  unfold setPolylinePositions. destruct e as [n p pt lb [pl|]]; simpl; [|done].
  intros [= Heq]. eexists. split; [done|]. by rewrite <- Heq.
Qed.
End ReconciliationProofs.

Lemma run_panel `{CesiumAPI} (ops : list StoreOp) (a a' : App) :
  run ops a = Some a' → panel a' = foldl (λ s op, applyOp op s) (panel a) ops.
Proof.
  revert a. induction ops as [|op ops IH]; intros a; simpl.
  - by intros [= <-].
  - unfold commit at 1.
    destruct (waypointEffect _ (scene a)) as [sc|]; simpl; [|done].
    intros Hrun. by rewrite (IH _ Hrun).
Qed.

Lemma waypointEffect_count `{CesiumAPI} (wps : list Waypoint) (sc sc' : Scene) :
  is_Some (viewer sc) → waypointEffect wps sc = Some sc' →
  manualWaypointsCount (ctx sc') = length wps.
Proof.
  intros [v Hv]. unfold waypointEffect. rewrite Hv.
  destruct (ensurePolyline wps v (entitiesRef sc)) as [v0 r0].
  destruct (syncYellowSegments wps v0 r0) as [[v1 r1]|]; simpl; [|done].
  destruct (trimEntities _ _ v1 (points r1)) as [v2 pts2].
  destruct (growPoints _ wps v2 pts2) as [[v3 pts3]|]; simpl; [|done].
  destruct (forEachPoint 0 wps pts3 v3) as [v4|]; simpl; [|done].
  by intros [= <-].
Qed.

Lemma emptyScene_wf : scene_wf Sample.emptyScene.
Proof.
  exists Sample.emptyViewer. split; [reflexivity|].
  split; simpl.
  - split; [apply NoDup_nil_2|]. intros h Hh. by apply elem_of_nil in Hh.
  - intros h Hh. by apply elem_of_nil in Hh.
Defined.

(** C7: a second reconciliation pass over the same waypoint list returns
    the scene of the first pass unchanged: the same entity objects, the same
    collection, the same refs, and no further call on [viewer.entities]. *)
Theorem reconciliation_idempotent `{CesiumAPI} (wps : list Waypoint) (sc : Scene) :
  scene_wf sc →
  ∃ sc1 v1,
    waypointEffect wps sc = Some sc1
    ∧ viewer sc1 = Some v1
    ∧ waypointEffect wps sc1 = Some sc1
    ∧ ∀ sc2 v2, waypointEffect wps sc1 = Some sc2 → viewer sc2 = Some v2 →
        calls v2 = calls v1 ∧ objects v2 = objects v1 ∧ entities v2 = entities v1
        ∧ entitiesRef sc2 = entitiesRef sc1.
Proof.
  intros Hwf.
  destruct (waypointEffect_reconciles wps sc Hwf) as (sc1 & Heff & Hrec).
  pose proof (waypointEffect_fixed wps sc1 Hrec) as Hfix.
  destruct Hrec as (v1 & Hv1 & _).
  exists sc1, v1. split_and!; try done.
  intros sc2 v2 Heff2 Hv2. rewrite Hfix in Heff2. injection Heff2 as <-.
  rewrite Hv1 in Hv2. by injection Hv2 as <-.
Qed.

Lemma reconciliation_idempotent_witness :
  ∃ sc1, waypointEffect [Sample.wpA; Sample.wpB] Sample.emptyScene = Some sc1
         ∧ waypointEffect [Sample.wpA; Sample.wpB] sc1 = Some sc1.
Proof.
  destruct (@reconciliation_idempotent flatCesium [Sample.wpA; Sample.wpB]
              Sample.emptyScene emptyScene_wf)
    as (sc1 & v1 & Heff & _ & Hfix & _).
  exists sc1. split; [exact Heff|exact Hfix].
Defined.

(** ** Manual and KML planning *)

(** C8 (counterexample): with a KML file loaded, the manual planner is not
    blocked: on the Manual tab in add mode a click places a waypoint, and the
    Start button uploads the manual mission. *)
Lemma manual_actions_with_kml_loaded :
  let loaded := Overlay.handleFileSelect "area.kml" true true
                  Sample.noContext Overlay.initialOverlay in
  let s := toggleAddMode (setPlannerMode MANUAL (setPlannerMode KML initialPanel)) in
  let s' := @leftClickFn flatCesium "3f2c" (1%float, 2%float) s in
  kmlUploaded loaded.1 = true
  ∧ Overlay.uploadedKmlFile loaded.2 = Some "area.kml"
  ∧ waypoints s' = [mkWaypoint "3f2c" 1%float 2%float 5%float "WAYPOINT"]
  ∧ clickStart loaded.1 s' = Some CallHandleStartMission.
Proof. split_and!; reflexivity. Qed.

(** C8 (as amended): while at least one manual waypoint exists, as counted
    by the reconciliation effect, the KML actions requested from the panel
    (start the KML mission, generate the path) call nothing.  In the other
    direction the manual actions are blocked while the planner is on its KML
    tab, not while a file is loaded: on the KML tab a click adds no waypoint
    and the Start button does not upload the manual mission.  A state in
    which the Start button uploads the manual mission is one in which the
    request to start the KML mission calls nothing. *)
Theorem planner_guards `{CesiumAPI} :
  (∀ wps sc sc' o, is_Some (viewer sc) → waypointEffect wps sc = Some sc' → wps ≠ [] →
     Overlay.onStartKml (ctx sc') o = [] ∧ Overlay.onGeneratePath (ctx sc') o = [])
  ∧ (∀ c o, 0 < manualWaypointsCount c →
     Overlay.onWindowEvent c EvStartKmlMission o = []
     ∧ Overlay.onWindowEvent c EvGenerateKmlPath o = [])
  ∧ (∀ s c uuid click, plannerMode s = KML →
     leftClickFn uuid click s = s
     ∧ clickStart c s ≠ Some CallHandleStartMission)
  ∧ (∀ s c o, manualWaypointsCount c = length (waypoints s) →
     clickStart c s = Some CallHandleStartMission → Overlay.onStartKml c o = []).
Proof.
  assert (Hblocked : ∀ c o, 0 < manualWaypointsCount c →
            Overlay.onStartKml c o = [] ∧ Overlay.onGeneratePath c o = []).
  { intros c o Hpos. unfold Overlay.onStartKml, Overlay.onGeneratePath, Overlay.isKmlBlocked.
    by rewrite bool_decide_eq_true_2 by done. }
  split_and!.
  - intros wps sc sc' o Hv Heff Hne. apply Hblocked.
    rewrite (waypointEffect_count wps sc sc' Hv Heff).
    destruct wps; [done|simpl; lia].
  - intros c o Hpos. by apply Hblocked.
  - intros s c uuid click Hmode. split.
    + unfold leftClickFn. rewrite Hmode. simpl. by rewrite orb_true_r.
    + unfold clickStart, handleUnifiedStart. rewrite Hmode. simpl.
      by destruct (canStart c s).
  - intros s c o Hcount Hstart. apply Hblocked. rewrite Hcount.
    unfold clickStart, canStart, handleUnifiedStart in Hstart.
    destruct (plannerMode s); simpl in Hstart.
    + by destruct (decide (0 < length (waypoints s)));
        [|rewrite bool_decide_eq_false_2 in Hstart by done].
    + by destruct (kmlUploaded c).
Qed.

(** ** More on the planner's telemetry poller *)

Lemma aborted_pollStep (p : Poller) (e : PollEvent) (c : nat) :
  c ∈ aborted p → c ∈ aborted (pollStep p e).
Proof.
  intros Hc. destruct e as [|c' r|c' body| | |]; simpl.
  - by rewrite aborted_timerFires.
  - unfold fetchSettles. case_bool_decide; [|done]. case_bool_decide; [done|].
    destruct r as [|ok]; [done|].
    by destruct (negb (mounted p) || negb (connectedRef p))%bool.
  - unfold bodySettles. case_bool_decide; [|done]. case_bool_decide; [done|].
    destruct body as [data|]; [|done]. by destruct (negb (data_fleet data)).
  - unfold onConnected. by destruct (negb (mounted p)).
  - unfold onDisconnected. destruct (negb (mounted p)); [done|]. simpl.
    destruct (fetchControllerRef p); [by apply list_elem_of_further|done].
  - unfold cleanup; simpl.
    destruct (fetchControllerRef p); [by apply list_elem_of_further|done].
Qed.

Lemma aborted_foldl_pollStep (es : list PollEvent) (p : Poller) (c : nat) :
  c ∈ aborted p → c ∈ aborted (foldl pollStep p es).
Proof.
  revert p. induction es as [|e es IH]; intros p Hc; simpl; [done|].
  by apply IH, aborted_pollStep.
Qed.






(** X3: the request that was issued last before a disconnect is aborted
    for good: however the poller goes on afterwards, reconnects included,
    neither the arrival of that request's response nor the end of the read
    of its body changes the displayed telemetry. *)
Theorem aborted_request_never_applied (p : Poller) (c : nat) (es : list PollEvent)
    (r : Arrival) (body : option Snapshot) :
  mounted p = true →
  fetchControllerRef p = Some c →
  let q := foldl pollStep (onDisconnected p) es in
  Planner.telemetry (fetchSettles c r q) = Planner.telemetry q
  ∧ Planner.telemetry (bodySettles c body q) = Planner.telemetry q
  ∧ Planner.telemetry (bodySettles c body (fetchSettles c r q)) = Planner.telemetry q.
Proof.
  intros Hm Hc q.
  assert (Hab : c ∈ aborted q).
  { apply aborted_foldl_pollStep. unfold onDisconnected. rewrite Hm. simpl.
    rewrite Hc. apply list_elem_of_here. }
  assert (Hf : ∀ q', c ∈ aborted q' →
            Planner.telemetry (fetchSettles c r q') = Planner.telemetry q'
            ∧ c ∈ aborted (fetchSettles c r q')).
  { intros q' Hab'. unfold fetchSettles. case_bool_decide; [|done].
    by rewrite bool_decide_eq_true_2. }
  assert (Hb : ∀ q', c ∈ aborted q' →
            Planner.telemetry (bodySettles c body q') = Planner.telemetry q').
  { intros q' Hab'. unfold bodySettles. case_bool_decide; [|done].
    by rewrite bool_decide_eq_true_2. }
  destruct (Hf q Hab) as [Hf1 Hf2].
  split_and!; [done|by apply Hb|]. rewrite Hb by done. done.
Qed.

Lemma aborted_request_never_applied_witness :
  let p := pollRun [OnConnected; TimerFires] in
  let q := foldl pollStep (onDisconnected p) [OnConnected; TimerFires] in
  Planner.telemetry (fetchSettles 0 (FetchResponds true) q) = Planner.telemetry q.
Proof.
  exact (proj1 (aborted_request_never_applied (pollRun [OnConnected; TimerFires]) 0
                  [OnConnected; TimerFires] (FetchResponds true)
                  (Some Sample.tickN) eq_refl eq_refl)).
Defined.

(** ** Selecting and dragging a marker *)

(** X4: a mouse move, whatever the state, leaves the pointer state, the
    selection and the modes alone and keeps the number and order of the
    waypoints; every waypoint keeps its id, altitude and mode, and only the
    waypoint at the index of the drag can change at all (its longitude and
    latitude). *)
Theorem drag_moves_only_the_dragged_waypoint `{CesiumAPI} (endPosition : ScreenPos)
    (s : Panel) (ptr : Pointer) :
  let st' := mouseMoveFn endPosition (s, ptr) in
  st'.2 = ptr
  ∧ selectedIdx st'.1 = selectedIdx s
  ∧ addMode st'.1 = addMode s
  ∧ plannerMode st'.1 = plannerMode s
  ∧ length (waypoints st'.1) = length (waypoints s)
  ∧ ∀ j wp, waypoints s !! j = Some wp →
      ∃ wp', waypoints st'.1 !! j = Some wp'
             ∧ id wp' = id wp ∧ altitude wp' = altitude wp ∧ mode wp' = mode wp
             ∧ (idx (dragStateRef ptr) ≠ Some j → wp' = wp).
Proof.
  unfold mouseMoveFn. cbn [fst snd].
  assert (Hsame : ∀ j wp, waypoints s !! j = Some wp →
            ∃ wp', waypoints s !! j = Some wp'
                   ∧ id wp' = id wp ∧ altitude wp' = altitude wp ∧ mode wp' = mode wp
                   ∧ (idx (dragStateRef ptr) ≠ Some j → wp' = wp)) by eauto 10.
  destruct (negb (dragging (dragStateRef ptr))
            || negb (bool_decide (plannerMode s = MANUAL)))%bool; [done|].
  destruct (idx (dragStateRef ptr)) as [i|] eqn:Hi; [|done].
  destruct (pickEllipsoid endPosition) as [cart|]; [|done].
  destruct (toDegrees (Some cart)) as [deg|]; [|done].
  simpl. split_and!; try done.
  - apply length_imap.
  - intros j wp Hj.
    pose proof (updateWaypoint_lookup i
                  (mkPatch None (Some (deg_longitude deg)) (Some (deg_latitude deg))
                     None None) s j) as Hlk.
    simpl in Hlk. rewrite Hlk, Hj. simpl.
    eexists. split; [done|]. case_decide as Hji.
    + split_and!; try done. intros Hne. by subst.
    + done.
Qed.

Lemma findIndex_NoDup (pts : list nat) (i h : nat) :
  NoDup pts → pts !! i = Some h → findIndex h pts = Some i.
Proof.
  intros Hnd Hi. unfold findIndex.
  destruct (list_find (λ e, e = h) pts) as [[i' x]|] eqn:Hfind; simpl.
  - apply list_find_Some in Hfind as (Hi' & -> & _).
    f_equal. by eapply NoDup_lookup.
  - apply list_find_None in Hfind.
    apply list_elem_of_lookup_2 in Hi.
    by eapply (proj1 (Forall_forall _ _)) in Hfind.
Qed.

Lemma findIndex_not_elem_of (pts : list nat) (h : nat) :
  h ∉ pts → findIndex h pts = None.
Proof.
  intros Hnot. unfold findIndex.
  destruct (list_find (λ e, e = h) pts) as [[i' x]|] eqn:Hfind; [|done].
  apply list_find_Some in Hfind as (Hi' & -> & _).
  destruct Hnot. by eapply list_elem_of_lookup_2.
Qed.

(** X5: with pairwise distinct markers, outside add mode on the Manual
    tab, a press on the marker at index [i] selects waypoint [i], starts a
    drag of index [i] and switches camera rotation off; a press on any other
    entity, or on nothing, changes nothing. *)
Theorem press_on_marker_starts_its_drag (pts : list nat) (s : Panel) (ptr : Pointer) :
  NoDup pts →
  addMode s = false →
  plannerMode s = MANUAL →
  (∀ i h, pts !! i = Some h →
     leftDownFn (Some h) pts (s, ptr)
     = (setSelectedIdx (Some i) s,
        {| dragStateRef := {| dragging := true; idx := Some i |};
           enableRotate := false |}))
  ∧ (∀ h, h ∉ pts → leftDownFn (Some h) pts (s, ptr) = (s, ptr))
  ∧ leftDownFn None pts (s, ptr) = (s, ptr).
Proof.
  intros Hnd Hadd Hmode. unfold leftDownFn. simpl. rewrite Hadd, Hmode. simpl.
  split_and!; [|  |done].
  - intros i h Hi. by rewrite (findIndex_NoDup pts i h Hnd Hi).
  - intros h Hh. by rewrite (findIndex_not_elem_of pts h Hh).
Qed.

Lemma press_on_marker_starts_its_drag_witness :
  leftDownFn (Some 3) [1; 3] (Sample.threeWaypoints, initialPointer)
  = (setSelectedIdx (Some 1) Sample.threeWaypoints,
     {| dragStateRef := {| dragging := true; idx := Some 1 |};
        enableRotate := false |}).
Proof.
  assert (Hnd : NoDup [1; 3]).
  { apply (bool_decide_unpack (NoDup [1; 3])). vm_compute. exact I. }
  apply (proj1 (press_on_marker_starts_its_drag [1; 3] Sample.threeWaypoints
                  initialPointer Hnd eq_refl eq_refl) 1 3).
  reflexivity.
Defined.

Lemma mouseMoveFn_pointer `{CesiumAPI} (pos : ScreenPos) (st : Panel * Pointer) :
  (mouseMoveFn pos st).2 = st.2.
Proof.
  unfold mouseMoveFn.
  destruct (negb (dragging (dragStateRef st.2))
            || negb (bool_decide (plannerMode st.1 = MANUAL)))%bool; [done|].
  destruct (idx (dragStateRef st.2)); [|done].
  destruct (pickEllipsoid pos); [|done].
  by destruct (toDegrees _).
Qed.

Lemma pointer_invariant_step `{CesiumAPI} (st : Panel * Pointer) (e : PointerEvent) :
  enableRotate st.2 = negb (dragging (dragStateRef st.2)) →
  (dragging (dragStateRef st.2) = true → is_Some (idx (dragStateRef st.2))) →
  enableRotate (pointerStep st e).2 = negb (dragging (dragStateRef (pointerStep st e).2))
  ∧ (dragging (dragStateRef (pointerStep st e).2) = true →
     is_Some (idx (dragStateRef (pointerStep st e).2))).
Proof.
  intros Hrot Hidx. destruct st as [s ptr]. simpl in *.
  destruct e as [uuid pos|picked pts|pos| | |m]; simpl; try done.
  - unfold leftDownFn. simpl.
    destruct (addMode s || negb (bool_decide (plannerMode s = MANUAL)))%bool; [done|].
    destruct picked as [h|]; [|done].
    destruct (findIndex h pts); simpl; [|done]. eauto.
  - by rewrite mouseMoveFn_pointer.
  - unfold leftUpFn. cbn [fst snd].
    destruct (dragging (dragStateRef ptr)) eqn:Hd; simpl; [done|].
    rewrite Hd. split; [done|]. intros Ht. discriminate Ht.
Qed.

(** X6: for every sequence of clicks, presses, moves, releases and mode
    changes, camera rotation is off exactly while a drag is in progress, a
    drag in progress always has its waypoint index, and a release ends the
    drag and leaves rotation on. *)
Theorem rotation_off_only_while_dragging `{CesiumAPI} (es : list PointerEvent)
    (s : Panel) :
  let st := foldl pointerStep (s, initialPointer) es in
  enableRotate st.2 = negb (dragging (dragStateRef st.2))
  ∧ (dragging (dragStateRef st.2) = true → is_Some (idx (dragStateRef st.2)))
  ∧ dragging (dragStateRef (pointerStep st LeftUp).2) = false
  ∧ enableRotate (pointerStep st LeftUp).2 = true.
Proof.
  assert (Hgen : ∀ st,
            enableRotate st.2 = negb (dragging (dragStateRef st.2)) →
            (dragging (dragStateRef st.2) = true → is_Some (idx (dragStateRef st.2))) →
            let st' := foldl pointerStep st es in
            enableRotate st'.2 = negb (dragging (dragStateRef st'.2))
            ∧ (dragging (dragStateRef st'.2) = true →
               is_Some (idx (dragStateRef st'.2)))).
  { induction es as [|e es IH]; intros st Hrot Hidx; simpl; [done|].
    destruct (pointer_invariant_step st e Hrot Hidx) as [Hrot' Hidx'].
    by apply IH. }
  destruct (Hgen (s, initialPointer)) as [Hrot Hidx]; [done|done|].
  cbn zeta. set (st := foldl pointerStep (s, initialPointer) es) in *.
  split_and!; try done.
  - cbn [pointerStep]. unfold leftUpFn.
    by destruct (dragging (dragStateRef st.2)) eqn:Hd.
  - cbn [pointerStep]. unfold leftUpFn.
    destruct (dragging (dragStateRef st.2)) eqn:Hd; [done|].
    exact Hrot.
Qed.

(** X7: on the KML tab the pointer handlers do nothing to the mission: a
    click adds no waypoint, a press selects nothing and starts no drag, a
    move changes no waypoint, and a release leaves the panel's state as it
    was. *)
Theorem kml_tab_ignores_pointer_input `{CesiumAPI} (s : Panel) (ptr : Pointer)
    (uuid : string) (pos : ScreenPos) (picked : option nat) (pts : list nat) :
  plannerMode s = KML →
  leftClickFn uuid pos s = s
  ∧ leftDownFn picked pts (s, ptr) = (s, ptr)
  ∧ mouseMoveFn pos (s, ptr) = (s, ptr)
  ∧ (leftUpFn (s, ptr)).1 = s.
Proof.
  intros Hmode. split_and!.
  - unfold leftClickFn. rewrite Hmode. simpl. by rewrite orb_true_r.
  - unfold leftDownFn. cbn [fst snd]. rewrite Hmode. simpl. by rewrite orb_true_r.
  - unfold mouseMoveFn. cbn [fst snd]. rewrite Hmode. simpl. by rewrite orb_true_r.
  - unfold leftUpFn. cbn [fst snd]. by destruct (dragging _).
Qed.

Lemma kml_tab_ignores_pointer_input_witness :
  @leftClickFn flatCesium "3f2c" (1%float, 2%float)
    (setPlannerMode KML Sample.threeWaypoints)
  = setPlannerMode KML Sample.threeWaypoints.
Proof.
  exact (proj1 (@kml_tab_ignores_pointer_input flatCesium
                  (setPlannerMode KML Sample.threeWaypoints) initialPointer
                  "3f2c" (1%float, 2%float) None [] eq_refl)).
Defined.

(** ** Teardown and the viewer's collection *)

Lemma filter_all (P : nat → Prop) `{∀ x, Decision (P x)} (l : list nat) :
  (∀ x, x ∈ l → P x) → filter P l = l.
Proof.
  induction l as [|x l IH]; intros Hl; [done|].
  rewrite filter_cons. destruct (decide (P x)) as [_|Hn].
  - f_equal. apply IH. intros y Hy. by apply Hl, list_elem_of_further.
  - destruct Hn. apply Hl, list_elem_of_here.
Qed.

Lemma filter_none (P : nat → Prop) `{∀ x, Decision (P x)} (l : list nat) :
  (∀ x, x ∈ l → ¬ P x) → filter P l = [].
Proof.
  induction l as [|x l IH]; intros Hl; [done|].
  rewrite filter_cons. destruct (decide (P x)) as [Hp|_].
  - by destruct (Hl x (list_elem_of_here _ _)).
  - apply IH. intros y Hy. by apply Hl, list_elem_of_further.
Qed.

Section TeardownProofs.
Context `{CesiumAPI}.

Lemma removeEach_spec (arr : list nat) (v : Viewer) :
  objects (removeEach arr v) = objects v
  ∧ nextEntity (removeEach arr v) = nextEntity v
  ∧ ∀ h, h ∈ entities (removeEach arr v) ↔ h ∈ entities v ∧ h ∉ arr.
Proof.
  unfold removeEach. revert v. induction arr as [|x arr IH]; intros v; cbn [foldl].
  - split_and!; try done. intros h. rewrite elem_of_nil. tauto.
  - destruct (IH (entities_remove (Some x) v)) as (Ho & Hn & He).
    rewrite Ho, Hn. split_and!; try done.
    intros h. rewrite He. simpl. rewrite list_elem_of_filter, elem_of_cons. tauto.
Qed.

Lemma unmountCleanup_entities (sc : Scene) (handlerRef : bool) (v : Viewer) :
  viewer sc = Some v →
  ∃ v', (unmountCleanup sc handlerRef).1
        = {| viewer := Some v'; entitiesRef := emptyEntitiesRef; ctx := ctx sc |}
        ∧ objects v' = objects v
        ∧ ∀ h, h ∈ entities v' ↔ h ∈ entities v ∧ h ∉ held (entitiesRef sc).
Proof.
  intros Hv. unfold unmountCleanup. rewrite Hv. simpl.
  eexists. split; [reflexivity|].
  destruct (removeEach_spec (points (entitiesRef sc))
              (removeEach (yellowSegments (entitiesRef sc))
                 (entities_remove (polyline (entitiesRef sc)) v))) as (Ho3 & _ & He3).
  destruct (removeEach_spec (yellowSegments (entitiesRef sc))
              (entities_remove (polyline (entitiesRef sc)) v)) as (Ho2 & _ & He2).
  split.
  - rewrite Ho3, Ho2. by destruct (polyline (entitiesRef sc)).
  - intros h. rewrite He3, He2. unfold held. rewrite !elem_of_app.
    destruct (polyline (entitiesRef sc)) as [pl|]; simpl.
    + rewrite list_elem_of_filter, list_elem_of_singleton. tauto.
    + rewrite elem_of_nil. tauto.
Qed.

Lemma tracks_perm (before v : Viewer) (hs hs' : list nat) :
  hs ≡ₚ hs' → tracks before v hs → tracks before v hs'.
Proof.
  intros Hp (Hn & Hnd & Hr & He). split_and!; [done|by rewrite <- Hp| |].
  - intros h Hh. apply Hr. by rewrite Hp.
  - intros h. rewrite He. by rewrite Hp.
Qed.

Lemma tracks_same (before v v' : Viewer) (hs : list nat) :
  nextEntity v' = nextEntity v → entities v' = entities v →
  tracks before v hs → tracks before v' hs.
Proof. intros Hn He (? & ? & ? & ?). unfold tracks. by rewrite Hn, He. Qed.

Lemma tracks_add (before v : Viewer) (e : Entity) (hs : list nat) :
  tracks before v hs → tracks before (entities_add e v).2 (hs ++ [nextEntity v]).
Proof.
  intros (Hn & Hnd & Hr & He). split_and!; simpl.
  - lia.
  - apply NoDup_app. split_and!; [done| |apply NoDup_singleton].
    intros h Hh ->%list_elem_of_singleton. apply Hr in Hh. lia.
  - intros h [Hh| ->%list_elem_of_singleton]%elem_of_app; [apply Hr in Hh|]; lia.
  - intros h. rewrite !elem_of_app, He. tauto.
Qed.

Lemma tracks_trim (before v v' : Viewer) (arr rest : list nat) (needed : nat) :
  viewer_consistent before →
  nextEntity v' = nextEntity v →
  (∀ h, h ∈ entities v' ↔ h ∈ entities v ∧ h ∉ drop needed arr) →
  tracks before v (arr ++ rest) → tracks before v' (take needed arr ++ rest).
Proof.
  intros Hcons Hn' He' (Hn & Hnd & Hr & He).
  assert (Hsub : ∀ h, h ∈ take needed arr ++ rest → h ∈ arr ++ rest).
  { intros h [Hh|Hh]%elem_of_app; apply elem_of_app; [left|by right].
    by apply (subseteq_take needed). }
  assert (Hsplit : NoDup (take needed arr ++ drop needed arr ++ rest)).
  { by rewrite app_assoc, take_drop. }
  apply NoDup_app in Hsplit as (Hnd1 & Hdisj & Hnd2).
  apply NoDup_app in Hnd2 as (Hnd2 & Hdisj2 & Hnd3).
  split_and!.
  - lia.
  - apply NoDup_app. split_and!; [done| |done].
    intros h Hh Hh'. apply (Hdisj h Hh), elem_of_app. by right.
  - intros h Hh. rewrite Hn'. by apply Hr, Hsub.
  - intros h. rewrite He', He. split.
    + intros [[Hb|Hin] Hnd']; [by left|right].
      rewrite <- (take_drop needed arr), <- app_assoc in Hin.
      rewrite !elem_of_app in Hin. rewrite elem_of_app. tauto.
    + intros [Hb|Hin].
      * split; [by left|]. intros Hd.
        assert (h ∈ arr ++ rest) as Hh%Hr.
        { apply elem_of_app. left. rewrite <- (take_drop needed arr).
          apply elem_of_app. by right. }
        apply Hcons in Hb. lia.
      * split; [right; by apply Hsub|]. intros Hd.
        apply elem_of_app in Hin as [Hin|Hin].
        -- apply (Hdisj h Hin), elem_of_app. by left.
        -- by apply (Hdisj2 h Hd).
Qed.

Lemma tracks_grow (before v v' : Viewer) (arr rest : list nat) (k : nat) :
  nextEntity v' = nextEntity v + k →
  entities v' = entities v ++ seq (nextEntity v) k →
  tracks before v (arr ++ rest) →
  tracks before v' ((arr ++ seq (nextEntity v) k) ++ rest).
Proof.
  intros Hn' He' (Hn & Hnd & Hr & He).
  assert (Hfresh : ∀ h, h ∈ seq (nextEntity v) k → h ∉ arr ++ rest).
  { intros h Hh Hh'. apply elem_of_seq in Hh. apply Hr in Hh'. lia. }
  apply NoDup_app in Hnd as (Hnd1 & Hdisj & Hnd2).
  split_and!.
  - lia.
  - apply NoDup_app. split_and!; [| |done].
    + apply NoDup_app. split_and!; [done| |apply NoDup_seq].
      intros h Hh Hh'. apply (Hfresh h Hh'), elem_of_app. by left.
    + intros h [Hh|Hh]%elem_of_app Hh'; [by apply (Hdisj h)|].
      apply (Hfresh h Hh), elem_of_app. by right.
  - intros h Hh. rewrite Hn'.
    assert (h ∈ arr ++ rest ∨ h ∈ seq (nextEntity v) k) as [Hold|Hnew].
    { rewrite !elem_of_app in Hh. rewrite elem_of_app. tauto. }
    + apply Hr in Hold. lia.
    + apply elem_of_seq in Hnew. lia.
  - intros h. rewrite He', !elem_of_app, He, elem_of_app. tauto.
Qed.

Lemma updateSegments_collection (wps : list Waypoint) (segs : list nat) (n i : nat)
    (v v' : Viewer) :
  updateSegments n i wps segs v = Some v' →
  nextEntity v' = nextEntity v ∧ entities v' = entities v ∧ calls v' = calls v.
Proof.
  revert i v. induction n as [|n IH]; intros i v; cbn [updateSegments].
  - by intros [= <-].
  - intros Hrun.
    destruct (wps !! i) as [a|]; simpl in Hrun; [|done].
    destruct (wps !! (i + 1)) as [b|]; simpl in Hrun; [|done].
    destruct (segs !! i) as [h|]; simpl in Hrun; [|done].
    destruct (objects v !! h) as [e|]; simpl in Hrun; [|done].
    destruct (setPolylinePositions _ e) as [e'|]; simpl in Hrun; [|done].
    by destruct (IH _ _ Hrun) as (-> & -> & ->).
Qed.

Lemma forEachPoint_collection (wps : list Waypoint) (pts : list nat) (i : nat)
    (v v' : Viewer) :
  forEachPoint i wps pts v = Some v' →
  nextEntity v' = nextEntity v ∧ entities v' = entities v ∧ calls v' = calls v.
Proof.
  revert i v. induction pts as [|h pts IH]; intros i v; cbn [forEachPoint].
  - by intros [= <-].
  - intros Hrun.
    destruct (wps !! i) as [wp|]; simpl in Hrun; [|done].
    destruct (objects v !! h) as [e|]; simpl in Hrun; [|done].
    by destruct (IH _ _ Hrun) as (-> & -> & ->).
Qed.

(** A pass keeps the collection in step with the refs. *)
Lemma waypointEffect_tracks (before : Viewer) (wps : list Waypoint) (v : Viewer)
    (r : EntitiesRef) (c : SharedCtx) (sc' : Scene) :
  viewer_consistent before →
  collection_is before v r →
  waypointEffect wps {| viewer := Some v; entitiesRef := r; ctx := c |} = Some sc' →
  ∃ v', viewer sc' = Some v' ∧ collection_is before v' (entitiesRef sc').
Proof.
  intros Hcons Htr. unfold collection_is, held in *.
  unfold waypointEffect. simpl.
  destruct r as [pts pl segs]; simpl in *.
  (* the mission path *)
  assert (Hens : ∃ va pl', ensurePolyline wps v (mkEntitiesRef pts pl segs)
                           = (va, mkEntitiesRef pts (Some pl') segs)
                           ∧ tracks before va (segs ++ pts ++ [pl'])).
  { unfold ensurePolyline. destruct pl as [p|]; simpl in *.
    - exists v, p. split; [done|]. eapply tracks_perm; [|exact Htr].
      solve_Permutation.
    - eexists _, _. split; [reflexivity|].
      eapply tracks_perm; [|apply tracks_add; exact Htr].
      rewrite app_nil_r. solve_Permutation. }
  destruct Hens as (va & pl' & -> & Ha).
  (* the segments *)
  unfold syncYellowSegments. simpl.
  destruct (trimEntities_spec (length segs) (neededSegments wps) va segs)
    as (v1 & -> & _ & Hn1 & He1); [lia|].
  apply (tracks_trim before va v1 segs (pts ++ [pl']) _ Hcons Hn1 He1) in Ha.
  destruct (growSegments_spec (neededSegments wps) (neededSegments wps) v1
              (take (neededSegments wps) segs)) as (v2 & -> & Hn2 & He2 & _); [lia|].
  apply (tracks_grow before v1 v2 _ (pts ++ [pl']) _ Hn2 He2) in Ha.
  set (segs2 := take (neededSegments wps) segs ++ seq (nextEntity v1) _) in *.
  destruct (updateSegments (neededSegments wps) 0 wps segs2 v2) as [v3|] eqn:Hu;
    simpl; [|done].
  destruct (updateSegments_collection _ _ _ _ _ _ Hu) as (Hn3 & He3 & _).
  apply (tracks_same before v2 v3 _ Hn3 He3) in Ha.
  (* the markers *)
  assert (Hb : tracks before v3 (pts ++ segs2 ++ [pl'])).
  { eapply tracks_perm; [|exact Ha]. solve_Permutation. }
  destruct (trimEntities_spec (length pts) (length wps) v3 pts)
    as (v4 & -> & _ & Hn4 & He4); [lia|].
  apply (tracks_trim before v3 v4 pts (segs2 ++ [pl']) _ Hcons Hn4 He4) in Hb.
  destruct (growPoints_spec (length wps) wps v4 (take (length wps) pts))
    as (v5 & -> & Hn5 & He5 & _); [lia|]. simpl.
  apply (tracks_grow before v4 v5 _ (segs2 ++ [pl']) _ Hn5 He5) in Hb.
  destruct (forEachPoint 0 wps _ v5) as [v6|] eqn:Hf; simpl; [|done].
  destruct (forEachPoint_collection _ _ _ _ _ Hf) as (Hn6 & He6 & _).
  apply (tracks_same before v5 v6 _ Hn6 He6) in Hb.
  intros [= <-]. simpl. exists v6. split; [done|]. exact Hb.
Qed.

Lemma mountApp_tracks (v0 : Viewer) (c0 : SharedCtx) (a0 : App) :
  viewer_consistent v0 →
  mountApp v0 c0 = Some a0 →
  ∃ v, viewer (scene a0) = Some v ∧ collection_is v0 v (entitiesRef (scene a0)).
Proof.
  intros Hcons Hmount. unfold mountApp in Hmount.
  destruct (waypointEffect [] _) as [sc|] eqn:Heff; simpl in Hmount; [|done].
  injection Hmount as <-. simpl.
  eapply (waypointEffect_tracks v0); [done| |exact Heff].
  unfold collection_is, held, tracks. simpl.
  split_and!; [done|apply NoDup_nil_2| |].
  - intros h Hh. by apply elem_of_nil in Hh.
  - intros h. rewrite elem_of_nil. tauto.
Qed.

Lemma run_tracks (before : Viewer) (ops : list StoreOp) (a a' : App) (v : Viewer) :
  viewer_consistent before →
  viewer (scene a) = Some v →
  collection_is before v (entitiesRef (scene a)) →
  run ops a = Some a' →
  ∃ v', viewer (scene a') = Some v' ∧ collection_is before v' (entitiesRef (scene a')).
Proof.
  intros Hcons. revert a v. induction ops as [|op ops IH]; intros a v Hv Htr; simpl.
  - intros [= <-]. eauto.
  - unfold commit at 1.
    destruct (waypointEffect _ (scene a)) as [sc|] eqn:Heff; simpl; [|done].
    destruct (scene a) as [vw r c] eqn:Hsc. simpl in *. subst vw.
    destruct (waypointEffect_tracks before _ v r c sc Hcons Htr Heff) as (v1 & Hv1 & Htr1).
    intros Hrun. by apply (IH (mkApp (applyOp op (panel a)) sc) v1 Hv1 Htr1 Hrun).
Qed.
End TeardownProofs.

(** X8: from the mounting of the panel on a consistent viewer, after any
    sequence of store operations, the viewer's collection holds exactly the
    entities that were there before the mount and the entities the panel's
    refs hold (markers, segments, the mission path); the latter are pairwise
    distinct.  No entity the panel created is left in the collection without
    being referenced, and no entity of other components is removed. *)
Theorem no_orphaned_entities `{CesiumAPI} (v0 : Viewer) (c0 : SharedCtx)
    (ops : list StoreOp) :
  viewer_consistent v0 →
  ∃ a0 a v,
    mountApp v0 c0 = Some a0 ∧ run ops a0 = Some a ∧ viewer (scene a) = Some v
    ∧ NoDup (held (entitiesRef (scene a)))
    ∧ (∀ h, h ∈ held (entitiesRef (scene a)) → h ∉ entities v0)
    ∧ ∀ h, h ∈ entities v ↔ h ∈ entities v0 ∨ h ∈ held (entitiesRef (scene a)).
Proof.
  intros Hcons.
  destruct (mountApp_reconciled v0 c0) as (a0 & Hmount & Hrec0).
  destruct (run_reconciled ops a0 Hrec0) as (a & Hrun & _).
  destruct (mountApp_tracks v0 c0 a0 Hcons Hmount) as (v1 & Hv1 & Htr1).
  destruct (run_tracks v0 ops a0 a v1 Hcons Hv1 Htr1 Hrun)
    as (v & Hv & (_ & Hnd & Hr & He)).
  exists a0, a, v. split_and!; try done.
  intros h Hh Hh0. apply Hr in Hh. apply Hcons in Hh0. lia.
Qed.

Lemma emptyViewer_consistent : viewer_consistent Sample.emptyViewer.
Proof. intros h Hh. by apply elem_of_nil in Hh. Defined.

Lemma no_orphaned_entities_witness :
  ∃ a0 a, mountApp Sample.emptyViewer Sample.noContext = Some a0
          ∧ run [OpAdd "a" 1%float 2%float None; OpRemove 0] a0 = Some a.
Proof.
  destruct (@no_orphaned_entities flatCesium Sample.emptyViewer Sample.noContext
              [OpAdd "a" 1%float 2%float None; OpRemove 0] emptyViewer_consistent)
    as (a0 & a & v & Hm & Hr & _).
  by exists a0, a.
Defined.

(** X9: unmounting the panel after any sequence of store operations
    removes every entity the panel created: the refs are empty, the handler
    is gone, and the viewer's collection holds exactly the entities it held
    before the panel was mounted. *)
Theorem teardown_leaves_no_entity `{CesiumAPI} (v0 : Viewer) (c0 : SharedCtx)
    (ops : list StoreOp) (handlerRef : bool) :
  viewer_consistent v0 →
  ∃ a0 a v',
    mountApp v0 c0 = Some a0 ∧ run ops a0 = Some a
    ∧ (unmountCleanup (scene a) handlerRef).2 = false
    ∧ viewer (unmountCleanup (scene a) handlerRef).1 = Some v'
    ∧ entitiesRef (unmountCleanup (scene a) handlerRef).1 = emptyEntitiesRef
    ∧ ∀ h, h ∈ entities v' ↔ h ∈ entities v0.
Proof.
  intros Hcons.
  destruct (mountApp_reconciled v0 c0) as (a0 & Hmount & Hrec0).
  destruct (run_reconciled ops a0 Hrec0) as (a & Hrun & _).
  destruct (mountApp_tracks v0 c0 a0 Hcons Hmount) as (v1 & Hv1 & Htr1).
  destruct (run_tracks v0 ops a0 a v1 Hcons Hv1 Htr1 Hrun)
    as (v & Hv & (_ & Hnd & Hr & He)).
  destruct (unmountCleanup_entities (scene a) handlerRef v Hv) as (v' & Hclean & _ & He').
  exists a0, a, v'. rewrite Hclean. simpl. split_and!; try done.
  intros h. rewrite He', He. split.
  - intros [[Hb|Hin] Hnot]; [done|by destruct Hnot].
  - intros Hb. split; [by left|]. intros Hin. apply Hr in Hin. apply Hcons in Hb. lia.
Qed.

Lemma teardown_leaves_no_entity_witness :
  ∃ a0 a, mountApp Sample.emptyViewer Sample.noContext = Some a0
          ∧ run [OpAdd "a" 1%float 2%float None; OpAdd "b" 3%float 4%float None] a0 = Some a
          ∧ ∃ v', viewer (unmountCleanup (scene a) true).1 = Some v'
                  ∧ ∀ h, h ∈ entities v' ↔ h ∈ entities Sample.emptyViewer.
Proof.
  destruct (@teardown_leaves_no_entity flatCesium Sample.emptyViewer Sample.noContext
              [OpAdd "a" 1%float 2%float None; OpAdd "b" 3%float 4%float None] true
              emptyViewer_consistent)
    as (a0 & a & v' & Hm & Hr & _ & Hv & _ & He).
  exists a0, a. split_and!; [done|done|]. by exists v'.
Defined.

(** ** What the viewer renders for the panel *)

Section RenderedProofs.
Context `{CesiumAPI}.

Lemma filter_sublist_mono (P : nat → Prop) `{∀ x, Decision (P x)} (l k : list nat) :
  l `sublist_of` k → filter P l `sublist_of` filter P k.
Proof.
  induction 1 as [|x l k _ IH|x l k _ IH]; [done| |].
  - rewrite !filter_cons. destruct (decide (P x)); [by apply sublist_skip|done].
  - rewrite filter_cons. destruct (decide (P x)); [by apply sublist_cons|done].
Qed.

Lemma trimEntities_sublist (fuel needed : nat) (v : Viewer) (arr : list nat) :
  entities (trimEntities fuel needed v arr).1 `sublist_of` entities v.
Proof.
  revert v arr. induction fuel as [|fuel IH]; intros v arr; cbn [trimEntities]; [done|].
  case_decide; [|done]. unfold pop.
  etrans; [apply IH|]. destruct (last arr); simpl; [apply sublist_filter|done].
Qed.

Lemma isYellowSegment_not_marker (v : Viewer) (h : nat) :
  kindAt isYellowSegment v h = true → kindAt isMarker v h = false.
Proof.
  unfold kindAt. destruct (objects v !! h) as [e|]; simpl; [|done].
  unfold isYellowSegment, isMarker. by destruct (ent_point e).
Qed.

Lemma isMarker_not_segment (v : Viewer) (h : nat) :
  kindAt isMarker v h = true → kindAt isYellowSegment v h = false.
Proof.
  intros Hm. destruct (kindAt isYellowSegment v h) eqn:Hs; [|done].
  apply isYellowSegment_not_marker in Hs. congruence.
Qed.

Lemma kinds_refreshPoint (i : nat) (wp : Waypoint) (e : Entity) :
  isMarker (refreshPoint i wp e) = isMarker e
  ∧ isYellowSegment (refreshPoint i wp e) = isYellowSegment e.
Proof. by destruct e as [n p [pt|] lb pl]. Qed.

Lemma kinds_setPolylinePositions (ps : Positions) (e e' : Entity) :
  setPolylinePositions ps e = Some e' →
  isMarker e' = isMarker e ∧ isYellowSegment e' = isYellowSegment e.
Proof.
  unfold setPolylinePositions. destruct e as [n p pt lb [pl|]]; simpl; [|done].
  intros [= <-]. by destruct pt.
Qed.

Lemma kindAt_store (P : Entity → bool) (h h0 : nat) (e e' : Entity) (v : Viewer) :
  objects v !! h = Some e → P e' = P e →
  kindAt P (store h e' v) h0 = kindAt P v h0.
Proof.
  intros He HP. unfold kindAt. simpl. destruct (decide (h0 = h)) as [->|Hne].
  - by rewrite lookup_insert_eq, He.
  - by rewrite lookup_insert_ne.
Qed.

Lemma kindAt_frame (P : Entity → bool) (v v' : Viewer) (h : nat) :
  objects v' !! h = objects v !! h → kindAt P v' h = kindAt P v h.
Proof. unfold kindAt. by intros ->. Qed.

(** The update loops change no entity's kind. *)
Lemma updateSegments_kinds (wps : list Waypoint) (segs : list nat) (n i : nat)
    (v v' : Viewer) :
  updateSegments n i wps segs v = Some v' →
  ∀ h, kindAt isMarker v' h = kindAt isMarker v h
       ∧ kindAt isYellowSegment v' h = kindAt isYellowSegment v h.
Proof.
  revert i v. induction n as [|n IH]; intros i v; cbn [updateSegments].
  - by intros [= <-].
  - intros Hrun h0.
    destruct (wps !! i) as [a|]; simpl in Hrun; [|done].
    destruct (wps !! (i + 1)) as [b|]; simpl in Hrun; [|done].
    destruct (segs !! i) as [h|]; simpl in Hrun; [|done].
    destruct (objects v !! h) as [e|] eqn:He; simpl in Hrun; [|done].
    destruct (setPolylinePositions _ e) as [e'|] eqn:Hset; simpl in Hrun; [|done].
    destruct (kinds_setPolylinePositions _ _ _ Hset) as [Hm Hs].
    destruct (IH _ _ Hrun h0) as [-> ->].
    by rewrite !(kindAt_store _ h h0 e e' v He).
Qed.

Lemma forEachPoint_kinds (wps : list Waypoint) (pts : list nat) (i : nat)
    (v v' : Viewer) :
  forEachPoint i wps pts v = Some v' →
  ∀ h, kindAt isMarker v' h = kindAt isMarker v h
       ∧ kindAt isYellowSegment v' h = kindAt isYellowSegment v h.
Proof.
  revert i v. induction pts as [|h pts IH]; intros i v; cbn [forEachPoint].
  - by intros [= <-].
  - intros Hrun h0.
    destruct (wps !! i) as [wp|]; simpl in Hrun; [|done].
    destruct (objects v !! h) as [e|] eqn:He; simpl in Hrun; [|done].
    destruct (kinds_refreshPoint i wp e) as [Hm Hs].
    destruct (IH _ _ Hrun h0) as [-> ->].
    by rewrite !(kindAt_store _ h h0 e (refreshPoint i wp e) v He).
Qed.

(** The growing loops create yellow segments and markers. *)
Lemma growSegments_kinds (fuel needed : nat) (v : Viewer) (segs : list nat) (h : nat) :
  (h < nextEntity v →
   objects (growSegments fuel needed v segs).1 !! h = objects v !! h)
  ∧ (nextEntity v ≤ h < nextEntity (growSegments fuel needed v segs).1 →
     kindAt isYellowSegment (growSegments fuel needed v segs).1 h = true).
Proof.
  revert v segs. induction fuel as [|fuel IH]; intros v segs; cbn [growSegments].
  - simpl. split; [done|lia].
  - case_decide; [|simpl; split; [done|lia]].
    unfold entities_add.
    match goal with |- context [growSegments fuel needed ?v1 ?s1] =>
      destruct (IH v1 s1) as [Hold Hnew]; set (v' := (growSegments fuel needed v1 s1).1) in *
    end.
    simpl in Hold, Hnew. split.
    + intros Hh. rewrite Hold by lia. apply lookup_insert_ne. lia.
    + intros Hh. destruct (decide (h = nextEntity v)) as [->|Hne].
      * unfold kindAt. rewrite Hold by lia. by rewrite lookup_insert_eq.
      * apply Hnew. lia.
Qed.

Lemma growPoints_kinds (fuel : nat) (wps : list Waypoint) (v v' : Viewer)
    (pts pts' : list nat) (h : nat) :
  growPoints fuel wps v pts = Some (v', pts') →
  (h < nextEntity v → objects v' !! h = objects v !! h)
  ∧ (nextEntity v ≤ h < nextEntity v' → kindAt isMarker v' h = true).
Proof.
  revert v pts. induction fuel as [|fuel IH]; intros v pts; cbn [growPoints].
  - intros [= <- <-]. split; [done|lia].
  - case_decide; [|intros [= <- <-]; split; [done|lia]].
    destruct (wps !! length pts) as [wp|]; simpl; [|done].
    intros Hrun. destruct (IH _ _ Hrun) as [Hold Hnew]. simpl in Hold, Hnew. split.
    + intros Hh. rewrite Hold by lia. apply lookup_insert_ne. lia.
    + intros Hh. destruct (decide (h = nextEntity v)) as [->|Hne].
      * unfold kindAt. rewrite Hold by lia. by rewrite lookup_insert_eq.
      * apply Hnew. lia.
Qed.

(** *** The viewer part of the invariant *)

Lemma fresh_ok_shrink (before v v' : Viewer) :
  nextEntity v' = nextEntity v →
  entities v' `sublist_of` entities v →
  fresh_ok before v → fresh_ok before v'.
Proof.
  intros Hn Hsub (Hle & Hcons & Hnd). split_and!.
  - lia.
  - intros h Hh. rewrite Hn. apply Hcons. by eapply elem_of_sublist.
  - eapply sublist_NoDup; [exact Hnd|]. by apply filter_sublist_mono.
Qed.

Lemma fresh_ok_grow (before v v' : Viewer) (k : nat) :
  nextEntity v' = nextEntity v + k →
  entities v' = entities v ++ seq (nextEntity v) k →
  fresh_ok before v → fresh_ok before v'.
Proof.
  intros Hn He (Hle & Hcons & Hnd). split_and!.
  - lia.
  - intros h. rewrite He, Hn, elem_of_app, elem_of_seq.
    intros [Hh%Hcons|Hh]; lia.
  - unfold created. rewrite He, filter_app. apply NoDup_app. split_and!.
    + exact Hnd.
    + intros h [_ Hh]%list_elem_of_filter [_ Hh']%list_elem_of_filter.
      apply Hcons in Hh. apply elem_of_seq in Hh'. lia.
    + apply NoDup_filter, NoDup_seq.
Qed.

Lemma fresh_ok_same (before v v' : Viewer) :
  nextEntity v' = nextEntity v → entities v' = entities v →
  fresh_ok before v → fresh_ok before v'.
Proof.
  intros Hn He (Hle & Hcons & Hnd). unfold fresh_ok, viewer_consistent, created.
  by rewrite Hn, He.
Qed.

(** *** The refs part of the invariant *)

Lemma kinds_ok_frame (v v' : Viewer) (r : EntitiesRef) :
  nextEntity v ≤ nextEntity v' →
  (∀ h, h < nextEntity v →
        kindAt isMarker v' h = kindAt isMarker v h
        ∧ kindAt isYellowSegment v' h = kindAt isYellowSegment v h) →
  kinds_ok v r → kinds_ok v' r.
Proof.
  intros Hn Hsame (Hp & Hs & Hl). split_and!.
  - intros h Hh. destruct (Hp h Hh) as [Hlt Hk].
    destruct (Hsame h Hlt) as [-> _]. split; [lia|done].
  - intros h Hh. destruct (Hs h Hh) as [Hlt Hk].
    destruct (Hsame h Hlt) as [_ ->]. split; [lia|done].
  - intros h Hh. destruct (Hl h Hh) as (Hlt & Hk1 & Hk2).
    destruct (Hsame h Hlt) as [-> ->]. split; [lia|done].
Qed.

Lemma kinds_ok_objects (v v' : Viewer) (r : EntitiesRef) :
  nextEntity v ≤ nextEntity v' →
  (∀ h, h < nextEntity v → objects v' !! h = objects v !! h) →
  kinds_ok v r → kinds_ok v' r.
Proof.
  intros Hn Ho. apply kinds_ok_frame; [done|].
  intros h Hh. split; apply kindAt_frame; by apply Ho.
Qed.

Lemma kinds_ok_take_segments (v : Viewer) (pts segs : list nat) (pl : option nat)
    (n : nat) :
  kinds_ok v (mkEntitiesRef pts pl segs) → kinds_ok v (mkEntitiesRef pts pl (take n segs)).
Proof.
  intros (Hp & Hs & Hl). split_and!; [done| |done].
  intros h Hh. apply Hs. by apply (subseteq_take n).
Qed.

Lemma kinds_ok_take_points (v : Viewer) (pts segs : list nat) (pl : option nat)
    (n : nat) :
  kinds_ok v (mkEntitiesRef pts pl segs) → kinds_ok v (mkEntitiesRef (take n pts) pl segs).
Proof.
  intros (Hp & Hs & Hl). split_and!; [|done..].
  intros h Hh. apply Hp. by apply (subseteq_take n).
Qed.

Lemma kinds_ok_new_segments (v : Viewer) (pts segs new : list nat) (pl : option nat) :
  (∀ h, h ∈ new → h < nextEntity v ∧ kindAt isYellowSegment v h = true) →
  kinds_ok v (mkEntitiesRef pts pl segs) →
  kinds_ok v (mkEntitiesRef pts pl (segs ++ new)).
Proof.
  intros Hnew (Hp & Hs & Hl). split_and!; [done| |done].
  intros h [Hh|Hh]%elem_of_app; [by apply Hs|by apply Hnew].
Qed.

Lemma kinds_ok_new_points (v : Viewer) (pts segs new : list nat) (pl : option nat) :
  (∀ h, h ∈ new → h < nextEntity v ∧ kindAt isMarker v h = true) →
  kinds_ok v (mkEntitiesRef pts pl segs) →
  kinds_ok v (mkEntitiesRef (pts ++ new) pl segs).
Proof.
  intros Hnew (Hp & Hs & Hl). split_and!; [|done..].
  intros h [Hh|Hh]%elem_of_app; [by apply Hp|by apply Hnew].
Qed.

(** *** A pass keeps what is rendered in step with the refs *)

Lemma ensurePolyline_rendered (before : Viewer) (wps : list Waypoint) (v : Viewer)
    (r : EntitiesRef) :
  rendered_ok before v r →
  rendered_ok before (ensurePolyline wps v r).1 (ensurePolyline wps v r).2
  ∧ points (ensurePolyline wps v r).2 = points r
  ∧ yellowSegments (ensurePolyline wps v r).2 = yellowSegments r.
Proof.
  intros [Hfresh Hkinds]. unfold ensurePolyline.
  destruct r as [pts [pl|] segs]; simpl; [done|].
  split_and!; [|done..]. split.
  - eapply (fresh_ok_grow before v _ 1); [simpl; lia|done|done].
  - assert (Hold : kinds_ok
              (entities_add
                 {| ent_name := "Mission Path"; ent_position := None;
                    ent_point := None; ent_label := None;
                    ent_polyline := Some {| positions := CallbackProperty wps;
                                            width := 3; material := "#00FF88" |} |} v).2
              (mkEntitiesRef pts None segs)).
    { eapply kinds_ok_objects; [| |exact Hkinds]; simpl; [lia|].
      intros h Hh. apply lookup_insert_ne. lia. }
    destruct Hold as (Hp & Hs & _). split_and!; [done..|].
    simpl. intros h [= <-]. unfold kindAt. simpl. rewrite lookup_insert_eq.
    split_and!; [lia|done|done].
Qed.

Lemma waypointEffect_rendered (before : Viewer) (wps : list Waypoint) (v : Viewer)
    (r : EntitiesRef) (c : SharedCtx) (sc' : Scene) :
  rendered_ok before v r →
  waypointEffect wps {| viewer := Some v; entitiesRef := r; ctx := c |} = Some sc' →
  ∃ v', viewer sc' = Some v' ∧ rendered_ok before v' (entitiesRef sc').
Proof.
  intros Hok. unfold waypointEffect. simpl.
  destruct (ensurePolyline_rendered before wps v r Hok) as ([Hf Hk] & Hpts & Hsegs).
  destruct (ensurePolyline wps v r) as [va [pts pl segs]]. simpl in *. subst pts segs.
  clear Hok. set (pts := points r) in *. set (segs := yellowSegments r) in *.
  (* the segments *)
  unfold syncYellowSegments. simpl.
  pose proof (trimEntities_sublist (length segs) (neededSegments wps) va segs) as Hsub1.
  destruct (trimEntities_spec (length segs) (neededSegments wps) va segs)
    as (v1 & Ht1 & Ho1 & Hn1 & _); [lia|].
  rewrite Ht1 in *. simpl in Hsub1.
  apply (fresh_ok_shrink before va v1 Hn1 Hsub1) in Hf.
  apply (kinds_ok_take_segments _ _ _ _ (neededSegments wps)) in Hk.
  apply (kinds_ok_objects va v1) in Hk; [|lia|by intros; rewrite Ho1].
  pose proof (growSegments_kinds (neededSegments wps) (neededSegments wps) v1
                (take (neededSegments wps) segs)) as Hg.
  destruct (growSegments_spec (neededSegments wps) (neededSegments wps) v1
              (take (neededSegments wps) segs)) as (v2 & Hg2 & Hn2 & He2 & Ho2 & _); [lia|].
  rewrite Hg2 in *. simpl in Hg.
  apply (fresh_ok_grow before v1 v2 _ Hn2 He2) in Hf.
  apply (kinds_ok_objects v1 v2) in Hk; [|lia|done].
  apply (kinds_ok_new_segments v2 _ _
           (seq (nextEntity v1)
              (neededSegments wps - length (take (neededSegments wps) segs)))) in Hk.
  2:{ intros h Hh%elem_of_seq. split; [lia|]. apply Hg. lia. }
  set (segs2 := take (neededSegments wps) segs ++ seq (nextEntity v1) _) in *.
  destruct (updateSegments (neededSegments wps) 0 wps segs2 v2) as [v3|] eqn:Hu;
    simpl; [|done].
  destruct (updateSegments_collection _ _ _ _ _ _ Hu) as (Hn3 & He3 & _).
  apply (fresh_ok_same before v2 v3 Hn3 He3) in Hf.
  apply (kinds_ok_frame v2 v3) in Hk;
    [|lia|intros h _; apply (updateSegments_kinds _ _ _ _ _ _ Hu)].
  (* the markers *)
  pose proof (trimEntities_sublist (length pts) (length wps) v3 pts) as Hsub4.
  destruct (trimEntities_spec (length pts) (length wps) v3 pts)
    as (v4 & Ht4 & Ho4 & Hn4 & _); [lia|].
  rewrite Ht4 in *. simpl in Hsub4.
  apply (fresh_ok_shrink before v3 v4 Hn4 Hsub4) in Hf.
  apply (kinds_ok_take_points _ _ _ _ (length wps)) in Hk.
  apply (kinds_ok_objects v3 v4) in Hk; [|lia|by intros; rewrite Ho4].
  destruct (growPoints_spec (length wps) wps v4 (take (length wps) pts))
    as (v5 & Hg5 & Hn5 & He5 & Ho5 & _); [lia|].
  rewrite Hg5. simpl.
  apply (fresh_ok_grow before v4 v5 _ Hn5 He5) in Hf.
  apply (kinds_ok_objects v4 v5) in Hk; [|lia|done].
  apply (kinds_ok_new_points v5 _ _
           (seq (nextEntity v4) (length wps - length (take (length wps) pts)))) in Hk.
  2:{ intros h Hh%elem_of_seq. split; [lia|].
      apply (growPoints_kinds _ _ _ _ _ _ h Hg5). lia. }
  set (pts5 := take (length wps) pts ++ seq (nextEntity v4) _) in *.
  destruct (forEachPoint 0 wps pts5 v5) as [v6|] eqn:Hfe; simpl; [|done].
  destruct (forEachPoint_collection _ _ _ _ _ Hfe) as (Hn6 & He6 & _).
  apply (fresh_ok_same before v5 v6 Hn6 He6) in Hf.
  apply (kinds_ok_frame v5 v6) in Hk;
    [|lia|intros h _; apply (forEachPoint_kinds _ _ _ _ _ Hfe)].
  intros [= <-]. simpl. exists v6. by split.
Qed.

Lemma mountApp_rendered (v0 : Viewer) (c0 : SharedCtx) (a0 : App) :
  viewer_consistent v0 →
  mountApp v0 c0 = Some a0 →
  ∃ v, viewer (scene a0) = Some v ∧ rendered_ok v0 v (entitiesRef (scene a0)).
Proof.
  intros Hcons Hmount. unfold mountApp in Hmount.
  destruct (waypointEffect [] _) as [sc|] eqn:Heff; simpl in Hmount; [|done].
  injection Hmount as <-. simpl.
  eapply (waypointEffect_rendered v0); [|exact Heff].
  split.
  - split_and!; [done|done|]. unfold created. rewrite filter_none; [apply NoDup_nil_2|].
    intros h Hh%Hcons. lia.
  - split_and!; simpl; [intros h Hh; by apply elem_of_nil in Hh..|done].
Qed.

Lemma run_rendered (before : Viewer) (ops : list StoreOp) (a a' : App) (v : Viewer) :
  viewer (scene a) = Some v →
  rendered_ok before v (entitiesRef (scene a)) →
  run ops a = Some a' →
  ∃ v', viewer (scene a') = Some v' ∧ rendered_ok before v' (entitiesRef (scene a')).
Proof.
  revert a v. induction ops as [|op ops IH]; intros a v Hv Hok; simpl.
  - intros [= <-]. eauto.
  - unfold commit at 1.
    destruct (waypointEffect _ (scene a)) as [sc|] eqn:Heff; simpl; [|done].
    destruct (scene a) as [vw r c] eqn:Hsc. simpl in *. subst vw.
    destruct (waypointEffect_rendered before _ v r c sc Hok Heff) as (v1 & Hv1 & Hok1).
    intros Hrun. by apply (IH (mkApp (applyOp op (panel a)) sc) v1 Hv1 Hok1 Hrun).
Qed.

(** What was added since [before] and is still in the collection is what
    the refs hold, each handle once. *)
Lemma created_held (before v : Viewer) (r : EntitiesRef) :
  viewer_consistent before →
  collection_is before v r →
  rendered_ok before v r →
  created before v ≡ₚ held r.
Proof.
  intros Hcons (_ & Hnd & Hr & He) [(_ & _ & Hndc) _].
  apply NoDup_Permutation; [done..|].
  intros h. unfold created. rewrite list_elem_of_filter, He. split.
  - intros [Hge [Hb%Hcons|Hh]]; [lia|done].
  - intros Hh. split; [by apply Hr|by right].
Qed.

Lemma renderedMarkers_points (before v : Viewer) (r : EntitiesRef) :
  viewer_consistent before →
  collection_is before v r →
  rendered_ok before v r →
  renderedMarkers before v ≡ₚ points r.
Proof.
  intros Hcons Htr Hok. unfold renderedMarkers.
  rewrite (created_held before v r Hcons Htr Hok).
  destruct Hok as [_ (Hp & Hs & Hl)]. unfold held. rewrite !filter_app.
  rewrite (filter_all _ (points r)) by (intros h Hh; by apply Hp).
  rewrite (filter_none _ (yellowSegments r)).
  2:{ intros h Hh. destruct (Hs h Hh) as [_ Hk%isYellowSegment_not_marker]. congruence. }
  rewrite (filter_none _ (option_list (polyline r))).
  2:{ intros h Hh. destruct (polyline r) as [pl|]; simpl in Hh;
        [|by apply elem_of_nil in Hh].
      apply list_elem_of_singleton in Hh as ->.
      destruct (Hl pl eq_refl) as (_ & Hk & _). congruence. }
  by rewrite !app_nil_r.
Qed.

Lemma renderedSegments_segments (before v : Viewer) (r : EntitiesRef) :
  viewer_consistent before →
  collection_is before v r →
  rendered_ok before v r →
  renderedSegments before v ≡ₚ yellowSegments r.
Proof.
  intros Hcons Htr Hok. unfold renderedSegments.
  rewrite (created_held before v r Hcons Htr Hok).
  destruct Hok as [_ (Hp & Hs & Hl)]. unfold held. rewrite !filter_app.
  rewrite (filter_none _ (points r)).
  2:{ intros h Hh. destruct (Hp h Hh) as [_ Hk%isMarker_not_segment]. congruence. }
  rewrite (filter_all _ (yellowSegments r)) by (intros h Hh; by apply Hs).
  rewrite (filter_none _ (option_list (polyline r))).
  2:{ intros h Hh. destruct (polyline r) as [pl|]; simpl in Hh;
        [|by apply elem_of_nil in Hh].
      apply list_elem_of_singleton in Hh as ->.
      destruct (Hl pl eq_refl) as (_ & _ & Hk). congruence. }
  by rewrite app_nil_r.
Qed.

(** The mission path, once created, stays the entity it is. *)
Lemma waypointEffect_polyline (wps : list Waypoint) (v : Viewer) (r : EntitiesRef)
    (c : SharedCtx) (sc' : Scene) (pl : nat) :
  polyline r = Some pl →
  waypointEffect wps {| viewer := Some v; entitiesRef := r; ctx := c |} = Some sc' →
  polyline (entitiesRef sc') = Some pl.
Proof.
  intros Hpl. unfold waypointEffect, ensurePolyline, syncYellowSegments. simpl.
  rewrite Hpl.
  destruct (trimEntities _ _ v (yellowSegments r)) as [v1 segs1].
  destruct (growSegments _ _ v1 segs1) as [v2 segs2].
  destruct (updateSegments _ 0 wps segs2 v2) as [v3|]; simpl; [|done].
  destruct (trimEntities _ _ v3 (points r)) as [v4 pts4].
  destruct (growPoints _ wps v4 pts4) as [[v5 pts5]|]; simpl; [|done].
  destruct (forEachPoint 0 wps pts5 v5) as [v6|]; simpl; [|done].
  by intros [= <-].
Qed.
End RenderedProofs.

(** C3: from the mounting of the panel on a consistent viewer, after any
    sequence of add, update, remove and clear operations, each followed by
    the reconciliation effect, the effect has completed without an error;
    the waypoint markers the viewer renders (the point entities in its
    collection that were added since the mount, each counted as often as the
    collection holds it) are exactly the entries of [points], as many as
    there are waypoints; and the i-th of them is a point entity whose
    position is the ground position of the i-th waypoint. *)
Theorem markers_match_waypoints `{CesiumAPI} (v0 : Viewer) (c0 : SharedCtx)
    (ops : list StoreOp) :
  viewer_consistent v0 →
  ∃ a0 a v,
    mountApp v0 c0 = Some a0
    ∧ run ops a0 = Some a
    ∧ panel a = foldl (λ s op, applyOp op s) initialPanel ops
    ∧ viewer (scene a) = Some v
    ∧ renderedMarkers v0 v ≡ₚ points (entitiesRef (scene a))
    ∧ length (renderedMarkers v0 v) = length (waypoints (panel a))
    ∧ length (points (entitiesRef (scene a))) = length (waypoints (panel a))
    ∧ NoDup (points (entitiesRef (scene a)))
    ∧ ∀ i wp, waypoints (panel a) !! i = Some wp →
        ∃ h e, points (entitiesRef (scene a)) !! i = Some h
               ∧ h ∈ entities v
               ∧ objects v !! h = Some e
               ∧ isMarker e = true
               ∧ ent_position e = Some (fromDegrees (longitude wp) (latitude wp) 0%float).
Proof.
  intros Hcons.
  destruct (mountApp_reconciled v0 c0) as (a0 & Hmount & Hrec0).
  destruct (run_reconciled ops a0 Hrec0) as (a & Hrun & Hrec).
  destruct (mountApp_tracks v0 c0 a0 Hcons Hmount) as (v1 & Hv1 & Htr1).
  destruct (mountApp_rendered v0 c0 a0 Hcons Hmount) as (v1' & Hv1' & Hok1).
  assert (v1' = v1) as -> by congruence.
  destruct (run_tracks v0 ops a0 a v1 Hcons Hv1 Htr1 Hrun) as (v & Hv & Htr).
  destruct (run_rendered v0 ops a0 a v1 Hv1 Hok1 Hrun) as (v' & Hv' & Hok).
  assert (v' = v) as -> by congruence.
  destruct Hrec as (v' & Hv'' & [[Hnd Hall] _] & [Hlen Hps] & _).
  assert (v' = v) as -> by congruence.
  pose proof (renderedMarkers_points v0 v _ Hcons Htr Hok) as Hperm.
  exists a0, a, v. split_and!; try done.
  - rewrite (run_panel ops a0 a Hrun). f_equal.
    unfold mountApp in Hmount.
    destruct (waypointEffect [] _) as [sc|]; simpl in Hmount; [|done].
    by injection Hmount as <-.
  - by rewrite Hperm.
  - by apply NoDup_app in Hnd as (? & _ & _).
  - intros i wp Hwp.
    destruct (lookup_lt_is_Some_2 (points (entitiesRef (scene a))) i) as [h Hh].
    { apply lookup_lt_Some in Hwp. lia. }
    destruct (Hps i wp h Hwp Hh) as (e & He & Hfix).
    exists h, e. split_and!; try done.
    + apply Hall, elem_of_app. left. by eapply list_elem_of_lookup_2.
    + destruct Hok as [_ (Hp & _)].
      destruct (Hp h) as [_ Hk]; [by eapply list_elem_of_lookup_2|].
      unfold kindAt in Hk. by rewrite He in Hk.
    + by apply refreshPoint_fixed_position in Hfix.
Qed.

Lemma markers_match_waypoints_witness :
  ∃ a0 a v,
    mountApp Sample.emptyViewer Sample.noContext = Some a0
    ∧ run [OpAdd "a" 77.5%float 12.5%float None; OpAdd "b" 77.625%float 12.5%float None;
           OpAdd "c" 77.75%float 13%float None; OpRemove 0] a0 = Some a
    ∧ viewer (scene a) = Some v
    ∧ length (renderedMarkers Sample.emptyViewer v) = 2.
Proof.
  destruct (@markers_match_waypoints flatCesium Sample.emptyViewer Sample.noContext
              [OpAdd "a" 77.5%float 12.5%float None; OpAdd "b" 77.625%float 12.5%float None;
               OpAdd "c" 77.75%float 13%float None; OpRemove 0] emptyViewer_consistent)
    as (a0 & a & v & Hm & Hr & Hp & Hv & _ & Hlen & _).
  exists a0, a, v. split_and!; [done..|].
  rewrite Hlen, Hp. reflexivity.
Defined.

(** C6: from the mounting of the panel on a consistent viewer and after
    any sequence of store operations, a reconciliation pass over [n]
    waypoints completes and leaves [max(0, n - 1)] segment entities:
    segment [i] is an entity of the viewer's collection whose polyline joins
    the ground positions of waypoints [i] and [i+1]; the yellow segments the
    viewer renders (the entities of that kind in its collection that were
    added since the mount, each counted as often as the collection holds it)
    are exactly the entries of the pool; the new pool is the old one cut to
    at most that length, followed by entities created in this pass; and the
    entities that were cut off have left the collection. *)
Theorem segments_join_consecutive_waypoints `{CesiumAPI} (v0 : Viewer) (c0 : SharedCtx)
    (ops : list StoreOp) (wps : list Waypoint) :
  viewer_consistent v0 →
  ∃ a0 a v sc' v' fresh,
    mountApp v0 c0 = Some a0
    ∧ run ops a0 = Some a
    ∧ viewer (scene a) = Some v
    ∧ waypointEffect wps (scene a) = Some sc'
    ∧ viewer sc' = Some v'
    ∧ length (yellowSegments (entitiesRef sc')) = Nat.max 0 (length wps - 1)
    ∧ (∀ i a b, wps !! i = Some a → wps !! (i + 1) = Some b →
         ∃ h e pl, yellowSegments (entitiesRef sc') !! i = Some h
                   ∧ h ∈ entities v'
                   ∧ objects v' !! h = Some e
                   ∧ isYellowSegment e = true
                   ∧ ent_polyline e = Some pl
                   ∧ positions pl
                     = PositionList [fromDegrees (longitude a) (latitude a) 0%float;
                                     fromDegrees (longitude b) (latitude b) 0%float])
    ∧ renderedSegments v0 v' ≡ₚ yellowSegments (entitiesRef sc')
    ∧ length (renderedSegments v0 v') = Nat.max 0 (length wps - 1)
    ∧ yellowSegments (entitiesRef sc')
      = take (Nat.max 0 (length wps - 1)) (yellowSegments (entitiesRef (scene a)))
        ++ fresh
    ∧ (∀ h, h ∈ fresh → nextEntity v ≤ h)
    ∧ (∀ h, h ∈ drop (Nat.max 0 (length wps - 1))
                  (yellowSegments (entitiesRef (scene a))) →
            h ∈ entities v ∧ h ∉ entities v').
Proof.
  intros Hcons.
  destruct (mountApp_reconciled v0 c0) as (a0 & Hmount & Hrec0).
  destruct (run_reconciled ops a0 Hrec0) as (a & Hrun & Hrec).
  destruct (mountApp_tracks v0 c0 a0 Hcons Hmount) as (v1 & Hv1 & Htr1).
  destruct (mountApp_rendered v0 c0 a0 Hcons Hmount) as (v1' & Hv1' & Hok1).
  assert (v1' = v1) as -> by congruence.
  destruct (run_tracks v0 ops a0 a v1 Hcons Hv1 Htr1 Hrun) as (v & Hv & Htr).
  destruct (run_rendered v0 ops a0 a v1 Hv1 Hok1 Hrun) as (vx & Hvx & Hok).
  assert (vx = v) as -> by congruence.
  destruct Hrec as (vx & Hvx' & Hwf & _ & _ & [pl Hpl] & _).
  assert (vx = v) as -> by congruence. clear Hvx Hvx'.
  destruct (scene a) as [vw r c] eqn:Hsc. simpl in *. subst vw.
  destruct (waypointEffect_spec wps v r c Hwf)
    as (v' & r' & Heff & [[Hnd' Hall'] _] & _ & [Hslen Hss] & _
        & (n & Hn & Hpool) & (m & Hm & Hpts)).
  pose proof (waypointEffect_polyline wps v r c _ pl Hpl Heff) as Hpl'.
  destruct (waypointEffect_tracks v0 wps v r c _ Hcons Htr Heff) as (vx & Hvx & Htr').
  destruct (waypointEffect_rendered v0 wps v r c _ Hok Heff) as (vy & Hvy & Hok').
  simpl in *. injection Hvx as <-. injection Hvy as <-.
  rewrite neededSegments_eq in Hslen, Hpool.
  pose proof (renderedSegments_segments v0 v' r' Hcons Htr' Hok') as Hperm.
  eexists a0, a, v, _, v', _. rewrite !Hsc.
  split_and!; [done|done|done|exact Heff|done|..]; simpl.
  - exact Hslen.
  - intros i wa wb Ha Hb.
    destruct (lookup_lt_is_Some_2 (yellowSegments r') i) as [h Hh].
    { apply lookup_lt_Some in Hb. lia. }
    destruct (Hss i wa wb h Ha Hb Hh) as (e & He & Hset).
    destruct (setPolylinePositions_fixed _ _ Hset) as (pl0 & Hpl0 & Hpos).
    exists h, e, pl0. split_and!; try done.
    + apply Hall', elem_of_app. right. by eapply list_elem_of_lookup_2.
    + destruct Hok' as [_ (_ & Hs & _)].
      destruct (Hs h) as [_ Hk]; [by eapply list_elem_of_lookup_2|].
      unfold kindAt in Hk. by rewrite He in Hk.
  - exact Hperm.
  - by rewrite Hperm.
  - exact Hpool.
  - intros h Hh. apply elem_of_seq in Hh. lia.
  - intros h Hh.
    destruct Htr as (_ & Hndh & Hr & He). destruct Htr' as (_ & _ & _ & He').
    unfold held in *. rewrite Hpl in *. rewrite Hpl' in *. simpl in *.
    assert (Hseg : h ∈ yellowSegments r) by (by eapply subseteq_drop).
    assert (Hheld : h ∈ points r ++ yellowSegments r ++ [pl]).
    { rewrite !elem_of_app. tauto. }
    pose proof (Hr h Hheld) as Hrange.
    split; [apply He; by right|].
    rewrite He'. intros [Hb|Hin].
    { apply Hcons in Hb. lia. }
    apply NoDup_app in Hndh as (_ & Hdisj1 & Hnd2).
    apply NoDup_app in Hnd2 as (Hnds & Hdisj2 & _).
    rewrite <- (take_drop (length wps - 1) (yellowSegments r)) in Hnds.
    apply NoDup_app in Hnds as (_ & Hdisj3 & _).
    rewrite Hpts, Hpool, !elem_of_app, !elem_of_seq, list_elem_of_singleton in Hin.
    destruct Hin as [[Hin|Hin]|[[Hin|Hin]| ->]]; [|lia| |lia|].
    + apply (subseteq_take (length wps)) in Hin.
      apply (Hdisj1 h Hin). rewrite elem_of_app. tauto.
    + by apply (Hdisj3 h Hin).
    + apply (Hdisj2 pl Hseg). by apply list_elem_of_singleton.
Qed.

Lemma segments_join_consecutive_waypoints_witness :
  ∃ a0 a sc' v',
    mountApp Sample.emptyViewer Sample.noContext = Some a0
    ∧ run [OpAdd "a" 77.5%float 12.5%float None; OpAdd "b" 77.625%float 12.5%float None;
           OpAdd "c" 77.75%float 13%float None] a0 = Some a
    ∧ waypointEffect [Sample.wpA; Sample.wpB] (scene a) = Some sc'
    ∧ viewer sc' = Some v'
    ∧ length (renderedSegments Sample.emptyViewer v') = 1
    ∧ ∀ h, h ∈ drop 1 (yellowSegments (entitiesRef (scene a))) → h ∉ entities v'.
Proof.
  destruct (@segments_join_consecutive_waypoints flatCesium Sample.emptyViewer
              Sample.noContext
              [OpAdd "a" 77.5%float 12.5%float None; OpAdd "b" 77.625%float 12.5%float None;
               OpAdd "c" 77.75%float 13%float None]
              [Sample.wpA; Sample.wpB] emptyViewer_consistent)
    as (a0 & a & v & sc' & v' & fresh & Hm & Hr & _ & Heff & Hv' & _ & _ & _ & Hlen
        & _ & _ & Hgone).
  exists a0, a, sc', v'. split_and!; [done..|].
  intros h Hh. by apply Hgone.
Defined.

(** ** The connection list of multi-drone mode *)

Lemma updateConnection_ids (i : nat) (field : Overlay.ConnectionField) (value : string)
    (cs : list Overlay.Connection) :
  Overlay.id <$> Overlay.updateConnection i field value cs = Overlay.id <$> cs.
Proof.
  unfold Overlay.updateConnection. rewrite <- list_fmap_compose.
  apply list_fmap_ext. intros j c _. simpl. case_decide; [|done]. by destruct field.
Qed.

Lemma NoDup_fmap_filter {A B} (f : A → B) (P : A → Prop) `{∀ x, Decision (P x)}
    (l : list A) :
  NoDup (f <$> l) → NoDup (f <$> filter P l).
Proof.
  induction l as [|x l IH]; [done|]. rewrite fmap_cons, filter_cons.
  intros [Hnot Hnd]%NoDup_cons. destruct (decide (P x)); [|by apply IH].
  rewrite fmap_cons. apply NoDup_cons. split; [|by apply IH].
  intros Hin. apply Hnot. apply list_elem_of_fmap in Hin as (y & -> & Hy).
  apply list_elem_of_fmap. exists y. split; [done|].
  by apply list_elem_of_filter in Hy as [_ ?].
Qed.

Lemma connection_invariant_step (cs : list Overlay.Connection) (op : Overlay.ConnectionOp) :
  NoDup (Overlay.id <$> cs) → 1 ≤ length cs →
  NoDup (Overlay.id <$> Overlay.connectionStep cs op)
  ∧ 1 ≤ length (Overlay.connectionStep cs op).
Proof.
  intros Hnd Hlen. destruct op as [|i|i field value]; simpl.
  - unfold Overlay.addConnection. rewrite fmap_app, length_app. simpl.
    split; [|lia]. apply NoDup_app. split_and!; [done| |apply NoDup_singleton].
    intros x Hx ->%list_elem_of_singleton.
    assert (x' : max_list ((Overlay.id <$> cs) ++ [0]) + 1
                 ≤ max_list ((Overlay.id <$> cs) ++ [0])); [|lia].
    apply max_list_elem_of_le, elem_of_app. by left.
  - unfold Overlay.removeConnection. case_decide as Hlt; [|done]. split.
    + by apply NoDup_fmap_filter.
    + destruct cs as [|c1 [|c2 cs]]; simpl in *; try lia.
      rewrite !filter_cons. apply NoDup_cons in Hnd as [Hnot _].
      destruct (decide (Overlay.id c1 ≠ i)) as [|H1%dec_stable]; simpl; [lia|].
      destruct (decide (Overlay.id c2 ≠ i)) as [|H2%dec_stable]; simpl; [lia|].
      destruct Hnot. apply elem_of_cons. left. congruence.
  - rewrite updateConnection_ids. unfold Overlay.updateConnection.
    by rewrite length_fmap.
Qed.

(** X10: whatever connections are added, removed and edited, starting from
    the initial single connection, the ids of the list stay pairwise
    distinct and the list never becomes empty. *)
Theorem connection_ids_stay_distinct (ops : list Overlay.ConnectionOp) :
  let cs := foldl Overlay.connectionStep Overlay.initialConnections ops in
  NoDup (Overlay.id <$> cs) ∧ 1 ≤ length cs.
Proof.
  assert (Hgen : ∀ cs, NoDup (Overlay.id <$> cs) → 1 ≤ length cs →
            NoDup (Overlay.id <$> foldl Overlay.connectionStep cs ops)
            ∧ 1 ≤ length (foldl Overlay.connectionStep cs ops)).
  { induction ops as [|op ops IH]; intros cs Hnd Hlen; simpl; [done|].
    destruct (connection_invariant_step cs op Hnd Hlen). by apply IH. }
  apply Hgen; simpl; [|lia]. apply NoDup_singleton.
Qed.

(** X11: [updateConnection] addresses a connection by its id: the
    connections with that id get the new field value and keep their id, all
    others are untouched, and an id that no connection has leaves the list as
    it is. *)
Theorem updateConnection_by_id (i : nat) (field : Overlay.ConnectionField)
    (value : string) (cs : list Overlay.Connection) :
  length (Overlay.updateConnection i field value cs) = length cs
  ∧ (∀ j c, cs !! j = Some c →
       Overlay.updateConnection i field value cs !! j
       = Some (if decide (Overlay.id c = i) then Overlay.setField field value c else c))
  ∧ Overlay.id <$> Overlay.updateConnection i field value cs = Overlay.id <$> cs
  ∧ (i ∉ Overlay.id <$> cs → Overlay.updateConnection i field value cs = cs).
Proof.
  split_and!.
  - unfold Overlay.updateConnection. by rewrite length_fmap.
  - intros j c Hj. unfold Overlay.updateConnection. by rewrite list_lookup_fmap, Hj.
  - apply updateConnection_ids.
  - intros Hnot. unfold Overlay.updateConnection.
    rewrite <- (list_fmap_id cs) at 2. apply list_fmap_ext. intros j c Hj. simpl.
    case_decide as Hid; [|done]. destruct Hnot. rewrite <- Hid.
    apply list_elem_of_fmap. exists c. split; [done|]. by eapply list_elem_of_lookup_2.
Qed.

Lemma filter_id_ne_all (i : nat) (cs : list Overlay.Connection) :
  i ∉ Overlay.id <$> cs → filter (λ c, Overlay.id c ≠ i) cs = cs.
Proof.
  induction cs as [|c cs IH]; intros Hnot; [done|].
  rewrite fmap_cons in Hnot. apply not_elem_of_cons in Hnot as [Hne Hnot].
  rewrite filter_cons_True by done. f_equal. by apply IH.
Qed.

Lemma filter_id_ne_NoDup (i : nat) (cs : list Overlay.Connection) (j : nat)
    (c : Overlay.Connection) :
  NoDup (Overlay.id <$> cs) → cs !! j = Some c → Overlay.id c = i →
  filter (λ c, Overlay.id c ≠ i) cs = take j cs ++ drop (S j) cs.
Proof.
  revert j. induction cs as [|c0 cs IH]; intros j Hnd Hj Hid; [done|].
  rewrite fmap_cons in Hnd. apply NoDup_cons in Hnd as [Hnot Hnd].
  destruct j as [|j]; simpl in Hj.
  - injection Hj as ->. rewrite filter_cons_False by (intros Hc; by apply Hc).
    simpl. rewrite drop_0. apply filter_id_ne_all. by rewrite <- Hid.
  - rewrite filter_cons_True.
    + simpl. f_equal. by apply IH.
    + intros Heq. apply Hnot. rewrite Heq, <- Hid.
      apply list_elem_of_fmap. exists c. split; [done|]. by eapply list_elem_of_lookup_2.
Qed.

(** X12: with pairwise distinct ids and more than one connection,
    [removeConnection] of the id of the connection at position [j] removes
    exactly that connection and keeps the others in order; the last
    remaining connection is never removed, and an id that no connection has
    removes nothing. *)
Theorem removeConnection_removes_one (i : nat) (cs : list Overlay.Connection) :
  NoDup (Overlay.id <$> cs) →
  (∀ j c, 1 < length cs → cs !! j = Some c → Overlay.id c = i →
     Overlay.removeConnection i cs = take j cs ++ drop (S j) cs)
  ∧ (length cs ≤ 1 → Overlay.removeConnection i cs = cs)
  ∧ (i ∉ Overlay.id <$> cs → Overlay.removeConnection i cs = cs).
Proof.
  intros Hnd. unfold Overlay.removeConnection. split_and!.
  - intros j c Hlen Hj Hid. rewrite decide_True by done.
    by eapply filter_id_ne_NoDup.
  - intros Hlen. by rewrite decide_False by lia.
  - intros Hnot. case_decide; [|done]. by apply filter_id_ne_all.
Qed.

Lemma removeConnection_removes_one_witness :
  Overlay.removeConnection 1 (Overlay.addConnection Overlay.initialConnections)
  = drop 1 (Overlay.addConnection Overlay.initialConnections).
Proof.
  assert (Hnd : NoDup (Overlay.id <$> Overlay.addConnection Overlay.initialConnections)).
  { apply (bool_decide_unpack (NoDup _)). vm_compute. exact I. }
  destruct (removeConnection_removes_one 1
              (Overlay.addConnection Overlay.initialConnections) Hnd) as (Hrem & _ & _).
  exact (Hrem 0 _ ltac:(simpl; lia) eq_refl eq_refl).
Defined.

(** ** Connecting and disconnecting *)

Lemma alternates_extend (b : bool) (es : list WindowEvent) :
  (Overlay.alternates b (es ++ [EvTelemetryConnected]) →
   Overlay.alternates b (es ++ [EvTelemetryConnected; EvTelemetryDisconnected]))
  ∧ (Overlay.alternates b (es ++ [EvTelemetryDisconnected]) →
     Overlay.alternates b (es ++ [EvTelemetryDisconnected; EvTelemetryConnected])).
Proof.
  revert b. induction es as [|e es IH]; intros b; simpl.
  - by split; intros [-> _].
  - destruct e; try (by split; intros []).
    + split; intros [-> Ha]; (split; [done|]); by apply IH.
    + split; intros [-> Ha]; (split; [done|]); by apply IH.
Qed.

Lemma alternates_prefix (b : bool) (es es' : list WindowEvent) :
  Overlay.alternates b (es ++ es') → Overlay.alternates b es.
Proof.
  revert b. induction es as [|e es IH]; intros b; simpl; [done|].
  destruct e; try done; intros [-> Ha]; (split; [done|]); by eapply IH.
Qed.

Lemma alternates_last (b : bool) (es : list WindowEvent) :
  (Overlay.alternates b (es ++ [EvTelemetryDisconnected]) →
   (es = [] ∧ b = false) ∨ last es = Some EvTelemetryConnected)
  ∧ (Overlay.alternates b (es ++ [EvTelemetryConnected]) →
     (es = [] ∧ b = true) ∨ last es = Some EvTelemetryDisconnected).
Proof.
  revert b. induction es as [|e es IH]; intros b; simpl.
  - split; intros [-> _]; by left.
  - destruct e; try (by split; intros []).
    + split; intros [-> Ha]; right.
      * destruct (proj1 (IH false) Ha) as [[-> _]|Hl]; [done|].
        by rewrite last_cons, Hl.
      * destruct (proj2 (IH false) Ha) as [[-> ?]|Hl]; [done|].
        by rewrite last_cons, Hl.
    + split; intros [-> Ha]; right.
      * destruct (proj1 (IH true) Ha) as [[-> ?]|Hl]; [done|].
        by rewrite last_cons, Hl.
      * destruct (proj2 (IH true) Ha) as [[-> _]|Hl]; [done|].
        by rewrite last_cons, Hl.
Qed.

Lemma link_ok_step (l : Overlay.Link) (e : Overlay.LinkEvent) :
  Overlay.link_ok l → Overlay.link_ok (Overlay.linkStep l e).
Proof.
  intros Hok. pose proof Hok as (Hlen & Hbusy & Hkind & Halt).
  destruct e as [|outcome]; simpl.
  - unfold Overlay.clickLinkButton.
    destruct (Overlay.isConnecting l) eqn:Hc; [done|].
    assert (Overlay.requests l = []) as Hreq.
    { destruct (Overlay.requests l); [done|]. by pose proof (proj2 Hbusy ltac:(done)). }
    unfold Overlay.link_ok, Overlay.nextLinkEvent. simpl. rewrite Hreq. simpl.
    split_and!; [done|done| |done].
    by intros req ->%list_elem_of_singleton.
  - unfold Overlay.linkSettles.
    destruct (Overlay.requests l) as [|req rest] eqn:Hreq; [done|].
    assert (rest = []) as -> by (destruct rest; [done|simpl in Hlen; lia]).
    pose proof (Hkind req (list_elem_of_here _ _)) as Hreq'. clear Hok.
    unfold Overlay.link_ok, Overlay.nextLinkEvent in *.
    destruct (Overlay.link_isConnected l) eqn:Hconn; subst req;
      destruct outcome as [m|[|] d]; simpl; rewrite ?Hconn;
      (split_and!; [lia|done|by intros ? ?%elem_of_nil|]);
      rewrite <- ?app_assoc; simpl; try done.
    + by apply alternates_extend.
    + by apply alternates_extend.
Qed.

Lemma link_ok_run (es : list Overlay.LinkEvent) :
  Overlay.link_ok (foldl Overlay.linkStep Overlay.initialLink es).
Proof.
  assert (Hgen : ∀ l, Overlay.link_ok l → Overlay.link_ok (foldl Overlay.linkStep l es)).
  { induction es as [|e es IH]; intros l Hok; simpl; [done|].
    by apply IH, link_ok_step. }
  apply Hgen. unfold Overlay.link_ok. simpl. repeat split; try done; try lia.
  by intros ? ?%elem_of_nil.
Qed.

(** X13: for every sequence of clicks on the link button and settling
    requests, at most one connect or disconnect request is pending, the
    button is busy exactly while one is, the "telemetry-connected" and
    "telemetry-disconnected" events dispatched so far alternate starting with
    a connect, and the link counts as connected exactly when the last
    dispatched event is "telemetry-connected". *)
Theorem link_events_alternate (es : list Overlay.LinkEvent) :
  let l := foldl Overlay.linkStep Overlay.initialLink es in
  length (Overlay.requests l) ≤ 1
  ∧ (Overlay.isConnecting l = true ↔ Overlay.requests l ≠ [])
  ∧ Overlay.alternates true (Overlay.dispatched l)
  ∧ (Overlay.link_isConnected l = true
     ↔ last (Overlay.dispatched l) = Some EvTelemetryConnected).
Proof.
  destruct (link_ok_run es) as (Hlen & Hbusy & _ & Halt).
  cbn zeta. set (l := foldl Overlay.linkStep Overlay.initialLink es) in *.
  split_and!; [done|done|by eapply alternates_prefix|].
  unfold Overlay.nextLinkEvent in Halt.
  destruct (Overlay.link_isConnected l).
  - apply alternates_last in Halt as [[_ ?]|Hl]; [done|]. by rewrite Hl.
  - apply alternates_last in Halt as [[-> _]|Hl]; [done|]. by rewrite Hl.
Qed.

(** X14: when the pending connect or disconnect request fails,
    [connectError] is set to a non-empty text, the bar stops being busy,
    no event is dispatched and the link stays connected or disconnected as
    it was.  The status line shows that error text after a failed connect;
    after a failed disconnect the link is still connected and the line
    reads "Connected", so the error text is not displayed. *)
Theorem failed_link_request_reports (es : list Overlay.LinkEvent)
    (outcome : Overlay.LinkOutcome) :
  Overlay.link_failure outcome →
  Overlay.requests (foldl Overlay.linkStep Overlay.initialLink es) ≠ [] →
  let l := foldl Overlay.linkStep Overlay.initialLink es in
  let l' := Overlay.linkSettles outcome l in
  truthy_string (Overlay.connectError l') = true
  ∧ Overlay.isConnecting l' = false
  ∧ Overlay.requests l' = []
  ∧ Overlay.dispatched l' = Overlay.dispatched l
  ∧ Overlay.link_isConnected l' = Overlay.link_isConnected l
  ∧ Overlay.statusText l'
    = (if Overlay.link_isConnected l then "Connected" else Overlay.connectError l')
  ∧ (Overlay.link_isConnected l = false →
     Overlay.statusText l' = Overlay.connectError l')
  ∧ (Overlay.link_isConnected l = true → Overlay.statusText l' = "Connected").
Proof.
  intros Hfail Hpending.
  destruct (link_ok_run es) as (Hlen & _ & Hkind & _).
  cbn zeta. set (l := foldl Overlay.linkStep Overlay.initialLink es) in *.
  assert (Hmain :
    truthy_string (Overlay.connectError (Overlay.linkSettles outcome l)) = true
    ∧ Overlay.isConnecting (Overlay.linkSettles outcome l) = false
    ∧ Overlay.requests (Overlay.linkSettles outcome l) = []
    ∧ Overlay.dispatched (Overlay.linkSettles outcome l) = Overlay.dispatched l
    ∧ Overlay.link_isConnected (Overlay.linkSettles outcome l)
      = Overlay.link_isConnected l).
  { unfold Overlay.linkSettles.
    destruct (Overlay.requests l) as [|req rest] eqn:Hreq; [done|].
    assert (rest = []) as -> by (destruct rest; [done|simpl in Hlen; lia]).
    pose proof (Hkind req (list_elem_of_here _ _)) as Hreq'.
    destruct (Overlay.link_isConnected l) eqn:Hconn; subst req;
      destruct outcome as [m|[|] d]; simpl in *; try done;
      (split; [|done]);
      repeat match goal with
             | |- context [if truthy_string ?x then _ else _] =>
                 let H := fresh in destruct (truthy_string x) eqn:H
             end; done. }
  destruct Hmain as (Herr & Hbusy & Hreq & Hdisp & Hconn).
  assert (Htext : Overlay.statusText (Overlay.linkSettles outcome l)
                  = if Overlay.link_isConnected l then "Connected"
                    else Overlay.connectError (Overlay.linkSettles outcome l)).
  { unfold Overlay.statusText. by rewrite Hconn, Herr. }
  split_and!; [done..| |].
  - intros Hdown. by rewrite Htext, Hdown.
  - intros Hup. by rewrite Htext, Hup.
Qed.

Lemma failed_link_request_reports_witness :
  Overlay.statusText
    (Overlay.linkSettles (Overlay.LinkResponds false None)
       (foldl Overlay.linkStep Overlay.initialLink [Overlay.ButtonClicked]))
  = "Failed to connect".
Proof.
  pose proof (failed_link_request_reports [Overlay.ButtonClicked]
                (Overlay.LinkResponds false None) I ltac:(discriminate)) as Hw.
  cbn zeta in Hw. destruct Hw as (_ & _ & _ & _ & _ & Htext & _).
  exact Htext.
Defined.

(** ** The selected drone across the two panels *)

Lemma handleStartMission_posts (outcome : PostOutcome) (s : Panel) :
  waypoints s ≠ [] →
  ∃ body rest, (handleStartMission outcome s).2 = PostManualMission body :: rest
               ∧ rb_waypoints body = waypoints s
               ∧ rb_sys_id body
                 = if truthy_id (selectedDroneId s) then selectedDroneId s else None.
Proof.
  intros Hne. unfold handleStartMission.
  destruct (waypoints s) as [|w ws] eqn:Hw; [done|].
  destruct outcome as [m str|[|] body]; simpl; eauto.
Qed.

(** X15: whenever the overlay changes its selection through the drone
    selector or through the default selection of a fleet status, the event
    it dispatches makes the selection of the mounted planner panel the same
    drone (an id of 0 counting as none), and a manual mission uploaded then
    carries that drone as [sys_id], or no [sys_id] when none is selected. *)
Theorem selection_reaches_the_upload (o : Overlay.Overlay) (value : option N)
    (captured : option N) (r : Overlay.FleetFetch) (s : Panel) (outcome : PostOutcome)
    (res : Overlay.Overlay * list WindowEvent) :
  res = Overlay.onSelectChange value o ∨ res = Overlay.fetchFleetStatus captured r o →
  res.2 ≠ [] →
  waypoints s ≠ [] →
  let s' := deliver true res.2 s in
  selectedDroneId s'
  = (if truthy_id (Overlay.selectedDroneId res.1)
     then Overlay.selectedDroneId res.1 else None)
  ∧ waypoints s' = waypoints s
  ∧ ∃ body rest, (handleStartMission outcome s').2 = PostManualMission body :: rest
                 ∧ rb_waypoints body = waypoints s
                 ∧ rb_sys_id body = selectedDroneId s'.
Proof.
  intros Hres Hev Hw.
  assert (Hshape : ∃ k, res.2 = [EvDroneSelected k] ∧ Overlay.selectedDroneId res.1 = k).
  { destruct Hres as [-> | ->].
    - unfold Overlay.onSelectChange in *. case_bool_decide; simpl in *; [eauto|done].
    - unfold Overlay.fetchFleetStatus in *.
      destruct r as [|[|] data]; simpl in *; try done.
      destruct (negb (truthy_id captured)); simpl in *; [|done].
      destruct (Overlay.fleet data) as [f|]; simpl in *; [|done].
      destruct (Overlay.Object_keys f); simpl in *; [done|eauto]. }
  destruct Hshape as (k & Hev' & Hk). cbn zeta.
  rewrite Hev', Hk. unfold deliver. simpl.
  split_and!; [done..|].
  destruct (handleStartMission_posts outcome
              (setSelectedDroneId (if truthy_id k then k else None) s) Hw)
    as (body & rest & Hpost & Hwps & Hsys).
  exists body, rest. split_and!; [done..|]. rewrite Hsys. simpl.
  destruct (truthy_id k) eqn:Hk'; simpl; [by rewrite Hk'|done].
Qed.

Lemma selection_reaches_the_upload_witness :
  selectedDroneId
    (deliver true (Overlay.fetchFleetStatus None (Overlay.FleetResponds true Sample.fleet12)
                Overlay.initialOverlay).2 Sample.threeWaypoints)
  = Some 1%N.
Proof.
  exact (proj1 (selection_reaches_the_upload Overlay.initialOverlay None None
                  (Overlay.FleetResponds true Sample.fleet12) Sample.threeWaypoints
                  (PostResponds true None) _ (or_intror eq_refl)
                  ltac:(vm_compute; discriminate) ltac:(discriminate))).
Defined.

(** ** The drone pins of the overlay *)

Lemma Object_entries_elem_of {A} (f : gmap N A) (k : N) (d : A) :
  (k, d) ∈ Overlay.Object_entries f ↔ f !! k = Some d.
Proof.
  unfold Overlay.Object_entries. rewrite merge_sort_Permutation.
  apply elem_of_map_to_list.
Qed.

Lemma Object_entries_NoDup {A} (f : gmap N A) :
  NoDup (Overlay.Object_entries f).*1.
Proof.
  unfold Overlay.Object_entries. rewrite merge_sort_Permutation.
  apply NoDup_fst_map_to_list.
Qed.

Lemma Object_keys_NoDup {A} (f : gmap N A) : NoDup (Overlay.Object_keys f).
Proof.
  unfold Overlay.Object_keys. rewrite merge_sort_Permutation.
  apply NoDup_fst_map_to_list.
Qed.

Lemma droneColor_Some (k : N) : k ≠ 0%N → is_Some (Overlay.droneColor k).
Proof.
  intros Hk. unfold Overlay.droneColor. cbn zeta.
  change (Z.of_nat (length Overlay.droneColors)) with 6%Z.
  pose proof (Z.rem_bound_pos (Z.of_N k - 1) 6 ltac:(lia) ltac:(lia)) as Hb.
  destruct (decide (0 ≤ Z.rem (Z.of_N k - 1) 6)%Z) as [_|Hn]; [|lia].
  apply lookup_lt_is_Some. simpl. lia.
Qed.

Section PinProofs.
Context `{CesiumAPI}.

Lemma placeDrone_spec (sel : option N) (g : Overlay.Globe) (ref : gmap N nat)
    (k : N) (d : Overlay.DroneSummary) :
  Overlay.pins_wf g ref → k ≠ 0%N →
  ∃ g' ref',
    Overlay.placeDrone sel (Some (g, ref)) (k, d) = Some (g', ref')
    ∧ Overlay.pins_wf g' ref'
    ∧ (∀ h, h ∈ Overlay.shown g → h ∈ Overlay.shown g')
    ∧ (∀ k', k' ≠ k → ref' !! k' = ref !! k')
    ∧ (∀ h, ref !! k = Some h → ref' !! k = Some h)
    ∧ (∀ h, ref' !! k ≠ Some h →
         Overlay.pinObjects g' !! h = Overlay.pinObjects g !! h)
    ∧ (Overlay.located d = true →
         ∃ h e, ref' !! k = Some h ∧ Overlay.pinObjects g' !! h = Some e
                ∧ Overlay.oe_position e = Some (Overlay.pinPosition d))
    ∧ (Overlay.located d = false → g' = g ∧ ref' = ref).
Proof.
  intros [Hwf Hinj] Hk.
  unfold Overlay.placeDrone, Overlay.located, Overlay.isFiniteNumber. simpl.
  destruct (is_finite (Overlay.latitude_deg d)) eqn:Hlat;
    destruct (is_finite (Overlay.longitude_deg d)) eqn:Hlon;
    simpl; try (exists g, ref; by split_and!).
  destruct (ref !! k) as [h|] eqn:Href.
  - destruct (Hwf k h Href) as ([e He] & Hin & Hlt).
    eexists _, ref. split; [done|]. split_and!.
    + split; [|done]. intros k' h' Hk'. simpl.
      destruct (Hwf k' h' Hk') as ([e' He'] & ? & ?). split_and!; [|done..].
      destruct (decide (h' = h)) as [->|Hne].
      * rewrite lookup_alter_eq, He. by eexists.
      * rewrite lookup_alter_ne by done. by eexists.
    + done.
    + done.
    + congruence.
    + intros h' Hh'. simpl. rewrite lookup_alter_ne; [done|congruence].
    + intros _. eexists h, _. split; [done|]. simpl.
      rewrite lookup_alter_eq, He. by split.
    + done.
  - destruct (droneColor_Some k Hk) as [c ->]. simpl.
    eexists _, _. split; [done|]. split_and!.
    + split.
      * intros k' h' Hk'. simpl.
        destruct (decide (k' = k)) as [->|Hne].
        -- rewrite lookup_insert_eq in Hk'. injection Hk' as <-.
           rewrite lookup_insert_eq. split_and!; [by eexists| |lia].
           apply elem_of_app. right. apply list_elem_of_singleton. done.
        -- rewrite lookup_insert_ne in Hk' by done.
           destruct (Hwf k' h' Hk') as (He' & ? & ?).
           rewrite lookup_insert_ne by lia. split_and!; [done| |lia].
           apply elem_of_app. by left.
      * intros k1 k2 h'.
        destruct (decide (k1 = k)) as [->|Hne1], (decide (k2 = k)) as [->|Hne2];
          rewrite ?lookup_insert_eq, ?lookup_insert_ne by done; try done.
        -- intros [= <-] Hk2. destruct (Hwf k2 _ Hk2) as (_ & _ & ?). lia.
        -- intros Hk1 [= <-]. destruct (Hwf k1 _ Hk1) as (_ & _ & ?). lia.
        -- apply Hinj.
    + intros h Hh. simpl. apply elem_of_app. by left.
    + intros k' Hk'. by rewrite lookup_insert_ne.
    + intros h Hh. congruence.
    + intros h Hh. simpl. rewrite lookup_insert_eq in Hh.
      rewrite lookup_insert_ne; [done|congruence].
    + intros _. eexists _, _. rewrite lookup_insert_eq. split; [done|]. simpl.
      rewrite lookup_insert_eq. by split.
    + done.
Qed.

Lemma placeDrones_spec (sel : option N) (g : Overlay.Globe) (ref : gmap N nat)
    (es : list (N * Overlay.DroneSummary)) :
  Overlay.pins_wf g ref → NoDup es.*1 → (∀ e, e ∈ es → e.1 ≠ 0%N) →
  ∃ g' ref',
    foldl (Overlay.placeDrone sel) (Some (g, ref)) es = Some (g', ref')
    ∧ Overlay.pins_wf g' ref'
    ∧ (∀ h, h ∈ Overlay.shown g → h ∈ Overlay.shown g')
    ∧ (∀ k, k ∉ es.*1 → ref' !! k = ref !! k)
    ∧ (∀ k h, ref !! k = Some h → ref' !! k = Some h)
    ∧ (∀ h, (∀ k d, (k, d) ∈ es → Overlay.located d = true → ref' !! k ≠ Some h) →
         Overlay.pinObjects g' !! h = Overlay.pinObjects g !! h)
    ∧ (∀ k d, (k, d) ∈ es → Overlay.located d = true →
         ∃ h e, ref' !! k = Some h ∧ Overlay.pinObjects g' !! h = Some e
                ∧ Overlay.oe_position e = Some (Overlay.pinPosition d))
    ∧ (∀ k d, (k, d) ∈ es → Overlay.located d = false → ref' !! k = ref !! k).
Proof.
  intros Hwf. induction es as [|[kx dx] es IH] using rev_ind; intros Hnd Hnz.
  - exists g, ref. simpl. split_and!; try done; by intros k d Hin%elem_of_nil.
  - rewrite fmap_app in Hnd. apply NoDup_app in Hnd as (Hnd & Hfresh & _).
    destruct IH as (g1 & ref1 & Hrun & Hwf1 & Hshown & Hother & Hkeep & Hheap
                    & Hpin & Hstale); [done|..].
    { intros e He. apply Hnz, elem_of_app. by left. }
    assert (kx ∉ es.*1) as Hkx.
    { intros Hin. apply (Hfresh kx Hin). simpl. apply list_elem_of_singleton. done. }
    destruct (placeDrone_spec sel g1 ref1 kx dx Hwf1) as
      (g2 & ref2 & Hstep & Hwf2 & Hshown2 & Hother2 & Hkeep2 & Hheap2 & Hpin2 & Hstale2).
    { apply (Hnz (kx, dx)), elem_of_app. right. by apply list_elem_of_singleton. }
    exists g2, ref2. rewrite foldl_app, Hrun. simpl. split; [done|].
    assert (Hne : ∀ k d, (k, d) ∈ es → k ≠ kx).
    { intros k d Hin ->. apply Hkx, list_elem_of_fmap. by exists (kx, d). }
    split_and!.
    + done.
    + auto.
    + intros k Hk. rewrite fmap_app in Hk. apply not_elem_of_app in Hk as [Hk1 Hk2].
      simpl in Hk2. rewrite Hother2, Hother; [done|done|].
      intros ->. apply Hk2, list_elem_of_singleton. done.
    + intros k h Hk. destruct (decide (k = kx)) as [->|Hnek].
      * by apply Hkeep2, Hkeep.
      * rewrite Hother2 by done. by apply Hkeep.
    + intros h Hh.
      assert (Overlay.pinObjects g1 !! h = Overlay.pinObjects g !! h) as <-.
      { apply Hheap. intros k d Hin Hloc Hk1.
        apply (Hh k d); [apply elem_of_app; by left|done|].
        rewrite Hother2; [done|by eapply Hne]. }
      destruct (Overlay.located dx) eqn:Hloc.
      * apply Hheap2, (Hh kx dx); [|done].
        apply elem_of_app. right. by apply list_elem_of_singleton.
      * by destruct (Hstale2 eq_refl) as [-> _].
    + intros k d [Hin|Hin%list_elem_of_singleton]%elem_of_app Hloc.
      * destruct (Hpin k d Hin Hloc) as (h & e & Hk1 & He & Hpos).
        assert (ref2 !! k = Some h) as Hk2.
        { rewrite Hother2; [done|by eapply Hne]. }
        exists h, e. split_and!; [done| |done].
        rewrite Hheap2; [done|]. intros Hkx2.
        destruct Hwf2 as [_ Hinj2].
        apply (Hne k d Hin). by apply (Hinj2 k kx h).
      * injection Hin as -> ->. by apply Hpin2.
    + intros k d [Hin|Hin%list_elem_of_singleton]%elem_of_app Hloc.
      * rewrite Hother2; [by eapply Hstale|by eapply Hne].
      * injection Hin as -> ->. destruct (Hstale2 Hloc) as [_ ->]. by apply Hother.
Qed.

Lemma dropMissing_spec (f : gmap N Overlay.DroneSummary) (g : Overlay.Globe)
    (ref : gmap N nat) (ks : list N) :
  NoDup ks →
  let st := foldl (Overlay.dropMissing f) (g, ref) ks in
  Overlay.pinObjects st.1 = Overlay.pinObjects g
  ∧ Overlay.nextHandle st.1 = Overlay.nextHandle g
  ∧ (∀ k, st.2 !! k = if decide (k ∈ ks ∧ f !! k = None) then None else ref !! k)
  ∧ (∀ h, h ∈ Overlay.shown st.1 ↔
          h ∈ Overlay.shown g
          ∧ ¬ ∃ k, k ∈ ks ∧ f !! k = None ∧ ref !! k = Some h).
Proof.
  cbn zeta. induction ks as [|kx ks IH] using rev_ind; intros Hnd.
  - cbn [foldl fst snd]. split_and!; [done|done|..].
    + intros k. case_decide as Hd; [|done]. destruct Hd as [Hin _].
      by apply elem_of_nil in Hin.
    + intros h. split; [|by intros []]. intros Hh. split; [done|].
      intros (k & Hin & _). by apply elem_of_nil in Hin.
  - apply NoDup_app in Hnd as (Hnd & Hfresh & _).
    destruct (IH Hnd) as (Hobj & Hnext & Href & Hshown). clear IH.
    assert (kx ∉ ks) as Hkx.
    { intros Hin. apply (Hfresh kx Hin), list_elem_of_singleton. done. }
    rewrite foldl_app. simpl.
    destruct (foldl (Overlay.dropMissing f) (g, ref) ks) as [g1 ref1]. simpl in *.
    assert (ref1 !! kx = ref !! kx) as Hkx1.
    { rewrite Href. case_decide as Hd; [|done]. by destruct Hd. }
    unfold Overlay.dropMissing. simpl. rewrite Hkx1.
    destruct (f !! kx) as [d|] eqn:Hf.
    + simpl. split_and!; [done|done|..].
      * intros k. rewrite Href.
        destruct (decide (k ∈ ks ∧ f !! k = None)) as [[Hin Hk]|Hn1],
                 (decide (k ∈ ks ++ [kx] ∧ f !! k = None)) as [[Hin' Hk']|Hn2];
          try done.
        -- destruct Hn2. split; [|done]. apply elem_of_app. by left.
        -- apply elem_of_app in Hin' as [Hin'|Hin'%list_elem_of_singleton].
           ++ by destruct Hn1.
           ++ subst k. congruence.
      * intros h. rewrite Hshown. split; intros [Hin Hn]; (split; [done|]);
          intros (k & Hk & Hfk & Hrk); apply Hn; exists k.
        -- apply elem_of_app in Hk as [Hk|Hk%list_elem_of_singleton];
             [done|subst k; congruence].
        -- split_and!; [|done..]. apply elem_of_app. by left.
    + assert (Hdel : ∀ k, delete kx ref1 !! k
                = if decide (k ∈ ks ++ [kx] ∧ f !! k = None) then None else ref !! k).
      { intros k. destruct (decide (k = kx)) as [->|Hne].
        - rewrite lookup_delete_eq. case_decide as Hn; [done|].
          destruct Hn. split; [|done]. apply elem_of_app. right.
          by apply list_elem_of_singleton.
        - rewrite lookup_delete_ne by done. rewrite Href.
          destruct (decide (k ∈ ks ∧ f !! k = None)) as [[Hin Hk]|Hn1],
                   (decide (k ∈ ks ++ [kx] ∧ f !! k = None)) as [[Hin' Hk']|Hn2];
            try done.
          + destruct Hn2. split; [|done]. apply elem_of_app. by left.
          + apply elem_of_app in Hin' as [Hin'|Hin'%list_elem_of_singleton];
              [by destruct Hn1|done]. }
      destruct (ref !! kx) as [hx|] eqn:Hrx; simpl.
      * split_and!; [done|done|done|].
        intros h. rewrite list_elem_of_filter, Hshown. split.
        -- intros (Hne & Hin & Hn). split; [done|].
           intros (k & Hk & Hfk & Hrk).
           apply elem_of_app in Hk as [Hk|Hk%list_elem_of_singleton].
           ++ apply Hn. by exists k.
           ++ subst k. congruence.
        -- intros [Hin Hn]. split_and!; [|done|].
           ++ intros ->. apply Hn. exists kx. split_and!; [|done..].
              apply elem_of_app. right. by apply list_elem_of_singleton.
           ++ intros (k & Hk & Hfk & Hrk). apply Hn. exists k.
              split_and!; [|done..]. apply elem_of_app. by left.
      * split_and!; [done|done|done|].
        intros h. rewrite Hshown. split; intros [Hin Hn]; (split; [done|]);
          intros (k & Hk & Hfk & Hrk); apply Hn; exists k.
        -- apply elem_of_app in Hk as [Hk|Hk%list_elem_of_singleton];
             [done|subst k; congruence].
        -- split_and!; [|done..]. apply elem_of_app. by left.
Qed.

Lemma filter_remove_other (P : nat → Prop) `{∀ x, Decision (P x)} (h : nat)
    (l : list nat) :
  ¬ P h → filter P (filter (λ x, x ≠ h) l) = filter P l.
Proof.
  intros Hh. induction l as [|x l IH]; [done|].
  rewrite (filter_cons (λ x, x ≠ h)).
  destruct (decide (x ≠ h)) as [Hne|Heq].
  - rewrite !filter_cons. destruct (decide (P x)); by rewrite IH.
  - apply dec_stable in Heq as ->. rewrite filter_cons.
    destruct (decide (P h)); [done|]. apply IH.
Qed.

Lemma filter_agree (P Q : nat → Prop) `{∀ x, Decision (P x)} `{∀ x, Decision (Q x)}
    (l : list nat) :
  (∀ x, x ∈ l → P x ↔ Q x) → filter P l = filter Q l.
Proof.
  induction l as [|x l IH]; intros Hl; [done|].
  rewrite !filter_cons.
  pose proof (Hl x (list_elem_of_here _ _)) as Hx.
  rewrite IH by (intros y Hy; apply Hl; by apply list_elem_of_further).
  destruct (decide (P x)), (decide (Q x)); tauto.
Qed.

Lemma placeDrone_frame (sel : option N) (g g' : Overlay.Globe) (ref ref' : gmap N nat)
    (e : N * Overlay.DroneSummary) :
  Overlay.placeDrone sel (Some (g, ref)) e = Some (g', ref') →
  Overlay.nextHandle g ≤ Overlay.nextHandle g'
  ∧ (∀ k h, ref !! k = Some h → ref' !! k = Some h)
  ∧ (∀ k h, ref' !! k = Some h → ref !! k = Some h ∨ Overlay.nextHandle g ≤ h)
  ∧ (∀ h, h ∈ Overlay.shown g' → h ∈ Overlay.shown g ∨ ∃ k, ref' !! k = Some h)
  ∧ (∀ n0, n0 ≤ Overlay.nextHandle g →
       filter (λ h, h < n0) (Overlay.shown g') = filter (λ h, h < n0) (Overlay.shown g)).
Proof.
  unfold Overlay.placeDrone. simpl.
  destruct (negb _ || negb _).
  { intros [= <- <-]. split_and!; auto. }
  destruct (ref !! e.1) as [h|] eqn:Href.
  { intros [= <- <-]. simpl. split_and!; auto. }
  destruct (Overlay.droneColor e.1) as [c|]; [|done]. simpl.
  intros [= <- <-]. simpl. split_and!.
  - lia.
  - intros k h Hk. rewrite lookup_insert_ne; [done|congruence].
  - intros k h. destruct (decide (k = e.1)) as [->|Hne].
    + rewrite lookup_insert_eq. intros [= <-]. by right.
    + rewrite lookup_insert_ne by done. by left.
  - intros h [Hh|Hh%list_elem_of_singleton]%elem_of_app; [by left|].
    right. exists e.1. by rewrite lookup_insert_eq, Hh.
  - intros n0 Hn0. rewrite filter_app, filter_cons.
    destruct (decide (Overlay.nextHandle g < n0)); [lia|].
    by rewrite filter_nil, app_nil_r.
Qed.

Lemma placeDrones_frame (sel : option N) (es : list (N * Overlay.DroneSummary))
    (g g' : Overlay.Globe) (ref ref' : gmap N nat) :
  foldl (Overlay.placeDrone sel) (Some (g, ref)) es = Some (g', ref') →
  Overlay.nextHandle g ≤ Overlay.nextHandle g'
  ∧ (∀ k h, ref !! k = Some h → ref' !! k = Some h)
  ∧ (∀ k h, ref' !! k = Some h → ref !! k = Some h ∨ Overlay.nextHandle g ≤ h)
  ∧ (∀ h, h ∈ Overlay.shown g' → h ∈ Overlay.shown g ∨ ∃ k, ref' !! k = Some h)
  ∧ (∀ n0, n0 ≤ Overlay.nextHandle g →
       filter (λ h, h < n0) (Overlay.shown g') = filter (λ h, h < n0) (Overlay.shown g)).
Proof.
  revert g' ref'. induction es as [|e es IH] using rev_ind; intros g' ref'.
  - intros [= <- <-]. split_and!; auto.
  - rewrite foldl_app. simpl.
    destruct (foldl (Overlay.placeDrone sel) (Some (g, ref)) es) as [[g1 ref1]|];
      [|done].
    intros Hstep. apply placeDrone_frame in Hstep as (Hn & Hk & Hr & Hs & Hf).
    destruct (IH g1 ref1 eq_refl) as (Hn1 & Hk1 & Hr1 & Hs1 & Hf1). split_and!.
    + lia.
    + auto.
    + intros k h Hkh. destruct (Hr k h Hkh) as [Hkh1|?]; [|right; lia].
      destruct (Hr1 k h Hkh1) as [?|?]; [by left|right; lia].
    + intros h Hh. destruct (Hs h Hh) as [Hh1|?]; [|by right].
      destruct (Hs1 h Hh1) as [?|[k Hkh]]; [by left|].
      right. exists k. by apply Hk.
    + intros n0 Hn0. rewrite Hf by lia. by apply Hf1.
Qed.

Lemma dropMissing_frame (f : gmap N Overlay.DroneSummary) (ks : list N)
    (g : Overlay.Globe) (ref : gmap N nat) (n0 : nat) :
  (∀ k h, ref !! k = Some h → n0 ≤ h) →
  filter (λ h, h < n0) (Overlay.shown (foldl (Overlay.dropMissing f) (g, ref) ks).1)
  = filter (λ h, h < n0) (Overlay.shown g).
Proof.
  revert g ref. induction ks as [|k ks IH]; intros g ref Hge; [done|].
  simpl. unfold Overlay.dropMissing at 2. simpl.
  destruct (f !! k); [by apply IH|].
  destruct (ref !! k) as [h|] eqn:Hk.
  - rewrite IH.
    + simpl. apply filter_remove_other. specialize (Hge k h Hk). lia.
    + intros k' h' Hk'. apply lookup_delete_Some in Hk' as [_ Hk']. by eapply Hge.
  - rewrite IH; [done|].
    intros k' h' Hk'. apply lookup_delete_Some in Hk' as [_ Hk']. by eapply Hge.
Qed.

Lemma removeEach_shown (hs : list nat) (g : Overlay.Globe) :
  Overlay.shown (foldl (λ g h, Overlay.globe_remove h g) g hs)
  = filter (λ h, h ∉ hs) (Overlay.shown g).
Proof.
  revert g. induction hs as [|x hs IH]; intros g; simpl.
  - induction (Overlay.shown g) as [|y l IHl]; [done|].
    rewrite filter_cons. destruct (decide (y ∉ [])) as [_|Hn]; [by f_equal|].
    destruct Hn. apply not_elem_of_nil.
  - rewrite IH. simpl. rewrite list_filter_filter. apply filter_agree.
    intros h _. rewrite not_elem_of_cons. tauto.
Qed.

Lemma Object_values_elem_of {A} (m : gmap N A) (a : A) :
  a ∈ Overlay.Object_values m ↔ ∃ k, m !! k = Some a.
Proof.
  unfold Overlay.Object_values. rewrite list_elem_of_fmap. split.
  - intros ([k a'] & -> & Hin%Object_entries_elem_of). by exists k.
  - intros [k Hk]. exists (k, a). split; [done|]. by apply Object_entries_elem_of.
Qed.

Lemma dropMissing_wf (f : gmap N Overlay.DroneSummary) (g : Overlay.Globe)
    (ref : gmap N nat) :
  Overlay.pins_wf g ref →
  Overlay.pins_wf (foldl (Overlay.dropMissing f) (g, ref) (Overlay.Object_keys ref)).1
                  (foldl (Overlay.dropMissing f) (g, ref) (Overlay.Object_keys ref)).2.
Proof.
  intros [Hwf Hinj].
  destruct (dropMissing_spec f g ref (Overlay.Object_keys ref) (Object_keys_NoDup ref))
    as (Hobj & Hnext & Href & Hshown).
  split.
  - intros k h Hk. rewrite Href in Hk. case_decide as Hc; [done|].
    destruct (Hwf k h Hk) as (He & Hin & Hlt).
    rewrite Hobj, Hnext. split_and!; [done| |done].
    apply Hshown. split; [done|]. intros (k' & Hk' & Hfk' & Hrk').
    apply Hc. by rewrite (Hinj k k' h).
  - intros k1 k2 h Hk1 Hk2. rewrite Href in Hk1, Hk2.
    repeat case_decide; try done. by apply (Hinj k1 k2 h).
Qed.

Lemma updateFleetPins_inv (g0 : Overlay.Globe) (sel : option N)
    (f : gmap N Overlay.DroneSummary) (p : Overlay.Pins) :
  Overlay.pins_inv g0 p → f !! 0%N = None →
  ∃ p', Overlay.updateFleetPins sel (Some f) p = Some p' ∧ Overlay.pins_inv g0 p'.
Proof.
  destruct p as [gl dr ref].
  intros (g & Hg & Hwf & Hn0 & Hdr & Hge & Hfilter & Hheld) Hzero.
  simpl in *. subst gl. unfold Overlay.updateFleetPins. simpl.
  destruct (placeDrones_spec sel g ref (Overlay.Object_entries f) Hwf)
    as (g1 & ref1 & Hrun & Hwf1 & _).
  { apply Object_entries_NoDup. }
  { intros [k d] Hin%Object_entries_elem_of. simpl. intros ->. congruence. }
  rewrite Hrun. simpl.
  destruct (placeDrones_frame _ _ _ _ _ _ Hrun) as (Hn & Hk & Hr & Hs & Hf).
  assert (Hge1 : ∀ k h, ref1 !! k = Some h → Overlay.nextHandle g0 ≤ h).
  { intros k h Hkh. destruct (Hr k h Hkh) as [?|?]; [by eapply Hge|lia]. }
  pose proof (dropMissing_wf f g1 ref1 Hwf1) as Hwf2.
  pose proof (dropMissing_frame f (Overlay.Object_keys ref1) g1 ref1 _ Hge1) as Hf2.
  destruct (dropMissing_spec f g1 ref1 (Overlay.Object_keys ref1)
              (Object_keys_NoDup ref1)) as (Hobj & Hnext & Href & Hshown).
  destruct (foldl (Overlay.dropMissing f) (g1, ref1) (Overlay.Object_keys ref1))
    as [g2 ref2]. simpl in *.
  eexists. split; [done|]. exists g2. simpl.
  assert (Hsub : ∀ k h, ref2 !! k = Some h → ref1 !! k = Some h).
  { intros k h Hkh. rewrite Href in Hkh. by case_decide. }
  split_and!; [done|done|lia|..].
  - intros h Hh. destruct (Hdr h Hh) as [Hb Hfree]. split; [lia|].
    intros k Hkh%Hsub. destruct (Hr k h Hkh) as [?|?]; [by eapply Hfree|lia].
  - intros k h Hkh%Hsub. by eapply Hge1.
  - rewrite Hf2, Hf by done. done.
  - intros h [Hin Hkeep]%Hshown Hh.
    assert (Hcase : dr = Some h ∨ ∃ k, ref1 !! k = Some h).
    { destruct (Hs h Hin) as [Hin0|?]; [|by right].
      destruct (Hheld h Hin0 Hh) as [?|[k Hkh]]; [by left|].
      right. exists k. by apply Hk. }
    destruct Hcase as [?|[k Hkh]]; [by left|]. right. exists k.
    rewrite Href. case_decide as Hc; [|done]. destruct Hkeep.
    exists k. by destruct Hc.
Qed.

Lemma pinStep_inv (g0 : Overlay.Globe) (p : Overlay.Pins) (e : Overlay.PinEvent) :
  Overlay.pins_inv g0 p → Overlay.no_zero_id e →
  ∃ p', Overlay.pinStep (Some p) e = Some p' ∧ Overlay.pins_inv g0 p'.
Proof.
  intros Hinv Hvalid. destruct e as [o|lon lat|]; simpl.
  - unfold Overlay.fleetPinsEffect.
    destruct (Overlay.multiConnectionMode o); [|by exists p].
    destruct (Overlay.fleetStatus o) as [status|] eqn:Hstatus; [|by exists p].
    destruct (Overlay.globe p); [|by exists p].
    destruct (Overlay.fleet status) as [f|] eqn:Hfleet; [|by exists p].
    apply updateFleetPins_inv; [done|]. by apply (Hvalid status f).
  - eexists. split; [done|].
    destruct p as [gl dr ref].
    destruct Hinv as (g & Hg & [Hwf Hinj] & Hn0 & Hdr & Hge & Hfilter & Hheld).
    simpl in *. subst gl. unfold Overlay.updateUavPin. simpl.
    assert (Hsame : Overlay.pins_inv g0
              {| Overlay.globe := Some g; Overlay.droneEntityRef := dr;
                 Overlay.droneEntitiesRef := ref |}).
    { exists g. by split_and!. }
    destruct lon as [lon|]; [|done]. destruct lat as [lat|]; [|done].
    destruct (negb _ || negb _); [done|].
    destruct dr as [hu|].
    + exists (Overlay.assign hu
                (Overlay.setPosition (fromDegrees lon lat 0%float)) g).
      simpl. split_and!; try done. split; [|done].
      intros k h Hkh. destruct (Hwf k h Hkh) as (He & ? & ?).
      split_and!; [|done..]. simpl. by apply lookup_alter_is_Some.
    + eexists. simpl. split; [done|]. simpl. split_and!.
      * split; [|done]. intros k h Hkh. destruct (Hwf k h Hkh) as (He & ? & ?).
        simpl. split_and!; [|by apply elem_of_app; left|lia].
        apply lookup_insert_is_Some. destruct (decide (Overlay.nextHandle g = h));
          [by left|by right].
      * lia.
      * intros h [= <-]. split; [lia|]. intros k Hkh.
        destruct (Hwf k _ Hkh) as (_ & _ & ?). lia.
      * done.
      * rewrite filter_app, filter_cons.
        destruct (decide (Overlay.nextHandle g < Overlay.nextHandle g0)); [lia|].
        by rewrite filter_nil, app_nil_r.
      * intros h [Hin|Hin%list_elem_of_singleton]%elem_of_app Hh.
        -- destruct (Hheld h Hin Hh) as [?|?]; [done|by right].
        -- left. by rewrite Hin.
  - eexists. split; [done|].
    destruct p as [gl dr ref].
    destruct Hinv as (g & Hg & [Hwf Hinj] & Hn0 & Hdr & Hge & Hfilter & Hheld).
    simpl in *. subst gl. unfold Overlay.removeUavPin. simpl.
    destruct dr as [hu|]; [|exists g; by split_and!].
    destruct (Hdr hu eq_refl) as [Hb Hfree].
    eexists. simpl. split; [done|]. simpl. split_and!.
    + split; [|done]. intros k h Hkh. destruct (Hwf k h Hkh) as (He & ? & ?).
      simpl. split_and!; [done| |done].
      apply list_elem_of_filter. split; [|done]. intros ->. by eapply Hfree.
    + done.
    + done.
    + done.
    + rewrite filter_remove_other; [done|lia].
    + intros h [Hne Hin]%list_elem_of_filter Hh.
      destruct (Hheld h Hin Hh) as [[= ->]|?]; [done|by right].
Qed.

Lemma pinRun_inv (g0 : Overlay.Globe) (es : list Overlay.PinEvent) (p : Overlay.Pins) :
  Overlay.pins_inv g0 p → Forall Overlay.no_zero_id es →
  ∃ p', foldl Overlay.pinStep (Some p) es = Some p' ∧ Overlay.pins_inv g0 p'.
Proof.
  revert p. induction es as [|e es IH]; intros p Hinv Hvalid; [by exists p|].
  apply Forall_cons in Hvalid as [He Hes].
  destruct (pinStep_inv g0 p e Hinv He) as (p1 & Hstep & Hinv1).
  cbn [foldl]. rewrite Hstep. by apply IH.
Qed.

(** X16: one pass of [updateFleetPins] over a fleet without system id 0
    leaves exactly the pins of the fleet: no drone outside the fleet keeps
    a pin, and the entity of a drone that left is out of the collection;
    every drone whose latitude and longitude are finite numbers has a pin
    at [fromDegrees(lon, lat, 0)]; a drone whose coordinates are not finite
    keeps the pin it had, untouched, and gets none if it had none; the
    other entities of the viewer stay in the collection. *)
Theorem fleet_pins_follow_fleet (sel : option N) (f : gmap N Overlay.DroneSummary)
    (g : Overlay.Globe) (droneRef : option nat) (ref : gmap N nat) :
  Overlay.pins_wf g ref →
  f !! 0%N = None →
  ∃ g' ref',
    Overlay.updateFleetPins sel (Some f)
      {| Overlay.globe := Some g; Overlay.droneEntityRef := droneRef;
         Overlay.droneEntitiesRef := ref |}
    = Some {| Overlay.globe := Some g'; Overlay.droneEntityRef := droneRef;
              Overlay.droneEntitiesRef := ref' |}
    ∧ Overlay.pins_wf g' ref'
    ∧ (∀ k, is_Some (ref' !! k) → is_Some (f !! k))
    ∧ (∀ k d, f !! k = Some d → Overlay.located d = true →
         ∃ h e, ref' !! k = Some h ∧ Overlay.pinObjects g' !! h = Some e
                ∧ Overlay.oe_position e = Some (Overlay.pinPosition d))
    ∧ (∀ k d, f !! k = Some d → Overlay.located d = false →
         ref' !! k = ref !! k
         ∧ ∀ h, ref !! k = Some h →
                Overlay.pinObjects g' !! h = Overlay.pinObjects g !! h)
    ∧ (∀ k h, ref !! k = Some h → f !! k = None → h ∉ Overlay.shown g')
    ∧ (∀ h, h ∈ Overlay.shown g → (∀ k, ref !! k ≠ Some h) → h ∈ Overlay.shown g').
Proof.
  intros Hwf Hzero. unfold Overlay.updateFleetPins. cbn [Overlay.globe].
  destruct (placeDrones_spec sel g ref (Overlay.Object_entries f) Hwf)
    as (g1 & ref1 & Hrun & Hwf1 & Hshown & Hother & Hkeep & Hheap & Hpin & Hstale).
  { apply Object_entries_NoDup. }
  { intros [k d] Hin%Object_entries_elem_of. simpl. intros ->. congruence. }
  cbn [Overlay.droneEntitiesRef Overlay.droneEntityRef]. rewrite Hrun. simpl.
  pose proof (dropMissing_spec f g1 ref1 (Overlay.Object_keys ref1)
                (Object_keys_NoDup ref1)) as Hdrop. cbn zeta in Hdrop.
  destruct (foldl (Overlay.dropMissing f) (g1, ref1) (Overlay.Object_keys ref1))
    as [g2 ref2]. simpl in Hdrop.
  destruct Hdrop as (Hobj & Hnext & Href & Hshown2).
  exists g2, ref2. split; [done|].
  assert (Hkeys : ∀ k h, ref1 !! k = Some h → k ∈ Overlay.Object_keys ref1).
  { intros k h Hk. apply Object_keys_elem_of, elem_of_dom. by eexists. }
  assert (Hkept : ∀ k, is_Some (f !! k) → ref2 !! k = ref1 !! k).
  { intros k [d Hd]. rewrite Href. case_decide as Hc; [|done].
    destruct Hc as [_ Hc]. congruence. }
  assert (Hentries : ∀ k, f !! k = None → k ∉ (Overlay.Object_entries f).*1).
  { intros k Hk [[k' d] [-> Hin]]%list_elem_of_fmap.
    apply Object_entries_elem_of in Hin. simpl in *. congruence. }
  destruct Hwf1 as [Hwf1 Hinj1].
  split_and!.
  - split.
    + intros k h Hk. rewrite Href in Hk. case_decide as Hc; [done|].
      destruct (Hwf1 k h Hk) as (He & Hin & Hlt).
      rewrite Hobj, Hnext. split_and!; [done| |done].
      apply Hshown2. split; [done|]. intros (k' & Hk' & Hfk' & Hrk').
      apply Hc. by rewrite (Hinj1 k k' h).
    + intros k1 k2 h Hk1 Hk2. rewrite Href in Hk1, Hk2.
      repeat case_decide; try done. by apply (Hinj1 k1 k2 h).
  - intros k [h Hk]. rewrite Href in Hk. case_decide as Hc; [done|].
    destruct (f !! k) eqn:Hf; [by eexists|].
    destruct Hc. split; [|done]. by eapply Hkeys.
  - intros k d Hf Hloc.
    destruct (Hpin k d (proj2 (Object_entries_elem_of f k d) Hf) Hloc)
      as (h & e & Hk & He & Hpos).
    exists h, e. rewrite Hkept, Hobj by by eexists. done.
  - intros k d Hf Hloc.
    pose proof (Hstale k d (proj2 (Object_entries_elem_of f k d) Hf) Hloc) as Hk.
    rewrite Hkept by by eexists. split; [done|].
    intros h Hh. rewrite Hobj. apply Hheap.
    intros k' d' Hin' Hloc' Hk'. rewrite <- Hk in Hh.
    assert (k' = k) as -> by by apply (Hinj1 k' k h).
    apply Object_entries_elem_of in Hin'. congruence.
  - intros k h Hk Hf Hin. apply Hshown2 in Hin as [_ Hn]. apply Hn.
    exists k. pose proof (Hkeep k h Hk) as Hk1. split_and!; [|done..].
    by eapply Hkeys.
  - intros h Hin Hfree. apply Hshown2. split; [by apply Hshown|].
    intros (k & _ & Hf & Hk). rewrite Hother in Hk by by apply Hentries.
    by apply (Hfree k).
Qed.

(** X17: whatever fleet passes (over fleets without system id 0),
    single-pin updates and pin removals happened since the overlay had no
    pin, on a viewer whose collection only holds handles it handed out, the
    clean-up that runs when the link is not connected empties both refs and
    leaves in the viewer's collection exactly the entities it held before
    the first pin, in their order. *)
Theorem disconnect_removes_every_pin (g0 : Overlay.Globe) (es : list Overlay.PinEvent) :
  (∀ h, h ∈ Overlay.shown g0 → h < Overlay.nextHandle g0) →
  Forall Overlay.no_zero_id es →
  ∃ p g',
    foldl Overlay.pinStep
      (Some {| Overlay.globe := Some g0; Overlay.droneEntityRef := None;
               Overlay.droneEntitiesRef := ∅ |}) es = Some p
    ∧ Overlay.clearPins p
      = {| Overlay.globe := Some g'; Overlay.droneEntityRef := None;
           Overlay.droneEntitiesRef := ∅ |}
    ∧ Overlay.shown g' = Overlay.shown g0.
Proof.
  intros Hcons Hvalid.
  destruct (pinRun_inv g0 es
              {| Overlay.globe := Some g0; Overlay.droneEntityRef := None;
                 Overlay.droneEntitiesRef := ∅ |}) as (p & Hrun & Hinv); [|done|].
  { exists g0. simpl. split_and!.
    - done.
    - split; intros *; rewrite lookup_empty; discriminate.
    - done.
    - done.
    - intros k h. rewrite lookup_empty. discriminate.
    - by apply filter_all.
    - intros h Hin Hh. apply Hcons in Hin. lia. }
  destruct p as [gl dr ref].
  destruct Hinv as (g & Hg & _ & _ & Hdr & Hge & Hfilter & Hheld).
  simpl in *. subst gl. eexists _, _. split; [done|].
  unfold Overlay.clearPins. simpl. split; [done|].
  rewrite removeEach_shown, <- Hfilter.
  destruct dr as [hu|]; simpl.
  - destruct (Hdr hu eq_refl) as [Hb _].
    rewrite list_filter_filter. apply filter_agree. intros x Hx. split.
    + intros [Hval Hne].
      destruct (decide (x < Overlay.nextHandle g0)) as [|Hn]; [done|].
      destruct (Hheld x Hx ltac:(lia)) as [[= ->]|[k Hk]]; [done|].
      destruct Hval. apply Object_values_elem_of. by exists k.
    + intros Hlt. split.
      * intros [k Hk]%Object_values_elem_of. specialize (Hge k x Hk). lia.
      * intros ->. lia.
  - apply filter_agree. intros x Hx. split.
    + intros Hval.
      destruct (decide (x < Overlay.nextHandle g0)) as [|Hn]; [done|].
      destruct (Hheld x Hx ltac:(lia)) as [?|[k Hk]]; [done|].
      destruct Hval. apply Object_values_elem_of. by exists k.
    + intros Hlt [k Hk]%Object_values_elem_of. specialize (Hge k x Hk). lia.
Qed.

Lemma updateUavPin_skips (lon lat : option float) (p : Overlay.Pins) :
  Overlay.isFiniteNumber lon && Overlay.isFiniteNumber lat = false →
  Overlay.updateUavPin lon lat p = p.
Proof.
  intros Hc. unfold Overlay.updateUavPin.
  destruct (Overlay.globe p); [|done].
  destruct lon as [lon|]; [|done]. destruct lat as [lat|]; [|done].
  destruct (Overlay.isFiniteNumber (Some lon)), (Overlay.isFiniteNumber (Some lat));
    done.
Qed.

Lemma updateUavPins_one_entity (g0 : Overlay.Globe) (ref : gmap N nat)
    (cs : list (option float * option float)) :
  let p := Overlay.updateUavPins cs
             {| Overlay.globe := Some g0; Overlay.droneEntityRef := None;
                Overlay.droneEntitiesRef := ref |} in
  ∃ g, Overlay.globe p = Some g
       ∧ Overlay.droneEntitiesRef p = ref
       ∧ ((Overlay.droneEntityRef p = None ∧ g = g0)
          ∨ ∃ h, Overlay.droneEntityRef p = Some h
                 ∧ is_Some (Overlay.pinObjects g !! h)
                 ∧ Overlay.shown g = Overlay.shown g0 ++ [h]).
Proof.
  cbn zeta. unfold Overlay.updateUavPins.
  induction cs as [|[lon lat] cs IH] using rev_ind.
  - exists g0. simpl. split_and!; [done|done|by left].
  - rewrite foldl_app. cbn [foldl fst snd].
    destruct (foldl _ _ cs) as [gl dr ref'].
    destruct IH as (g & Hg & Href & Hcase). simpl in Hg, Href, Hcase. subst gl ref'.
    destruct (Overlay.isFiniteNumber lon && Overlay.isFiniteNumber lat) eqn:Hfin.
    2:{ rewrite updateUavPin_skips by done. by exists g. }
    apply andb_true_iff in Hfin as [Hlon Hlat].
    unfold Overlay.updateUavPin. simpl.
    destruct lon as [lon|]; [|done]. destruct lat as [lat|]; [|done].
    rewrite Hlon, Hlat. simpl.
    destruct Hcase as [[-> ->]|(h & -> & He & Hshown)].
    + eexists. simpl. split_and!; [done|done|]. right.
      eexists. split_and!; [done| |done]. simpl. rewrite lookup_insert_eq. by eexists.
    + eexists. simpl. split_and!; [done|done|]. right.
      exists h. split_and!; [done| |done]. simpl. by apply lookup_alter_is_Some.
Qed.

(** X18: after any sequence of calls of [updateUavPin] from a state without
    pin, the viewer holds one UAV entity, added after the entities it held,
    and its position is [fromDegrees(lon, lat, 0)] of the last call whose
    longitude and latitude were both finite numbers: the calls with a
    missing or non-finite coordinate that follow leave it where it is. *)
Theorem uav_pin_shows_last_valid_fix (g0 : Overlay.Globe) (ref : gmap N nat)
    (before after : list (option float * option float)) (lon lat : float) :
  is_finite lon = true →
  is_finite lat = true →
  (∀ c, c ∈ after → Overlay.isFiniteNumber c.1 && Overlay.isFiniteNumber c.2 = false) →
  let p := Overlay.updateUavPins (before ++ (Some lon, Some lat) :: after)
             {| Overlay.globe := Some g0; Overlay.droneEntityRef := None;
                Overlay.droneEntitiesRef := ref |} in
  ∃ g h e,
    Overlay.globe p = Some g
    ∧ Overlay.droneEntityRef p = Some h
    ∧ Overlay.shown g = Overlay.shown g0 ++ [h]
    ∧ Overlay.pinObjects g !! h = Some e
    ∧ Overlay.oe_position e = Some (fromDegrees lon lat 0%float).
Proof.
  intros Hlon Hlat Hafter. cbn zeta.
  pose proof (updateUavPins_one_entity g0 ref before) as Hbefore. cbn zeta in Hbefore.
  unfold Overlay.updateUavPins in *. rewrite foldl_app. cbn [foldl fst snd].
  destruct (foldl _ _ before) as [gl dr ref'].
  destruct Hbefore as (g & Hg & _ & Hcase). simpl in Hg, Hcase. subst gl.
  assert (Hskip : ∀ p, foldl (λ p c, Overlay.updateUavPin c.1 c.2 p) p after = p).
  { clear -Hafter. induction after as [|c cs IH]; intros p; [done|]. simpl.
    rewrite updateUavPin_skips by (apply Hafter, list_elem_of_here).
    apply IH. intros c' Hc'. by apply Hafter, list_elem_of_further. }
  rewrite Hskip. unfold Overlay.updateUavPin. simpl. rewrite Hlon, Hlat. simpl.
  destruct Hcase as [[-> ->]|(h & -> & [e He] & Hshown)].
  - eexists _, _, _. simpl.
    split_and!; [done|done|done|simpl; by rewrite lookup_insert_eq|done].
  - eexists _, h, _. simpl.
    split_and!; [done|done|done|simpl; by rewrite lookup_alter_eq, He|done].
Qed.

End PinProofs.

Lemma emptyGlobe_wf : Overlay.pins_wf Sample.emptyGlobe ∅.
Proof. split; intros *; rewrite lookup_empty; discriminate. Defined.

Lemma fleet_pins_follow_fleet_witness :
  ∃ g' ref',
    Overlay.updateFleetPins (Some 1%N) (Some Sample.twoDrones) Sample.noPins
    = Some {| Overlay.globe := Some g'; Overlay.droneEntityRef := None;
              Overlay.droneEntitiesRef := ref' |}
    ∧ is_Some (ref' !! 1%N) ∧ is_Some (ref' !! 2%N).
Proof.
  destruct (@fleet_pins_follow_fleet flatCesium (Some 1%N) Sample.twoDrones
              Sample.emptyGlobe None ∅ emptyGlobe_wf eq_refl)
    as (g' & ref' & Hrun & _ & _ & Hpin & _).
  exists g', ref'. split; [exact Hrun|].
  split.
  - destruct (Hpin 1%N Sample.drone eq_refl eq_refl) as (h & _ & -> & _). by eexists.
  - destruct (Hpin 2%N Sample.drone eq_refl eq_refl) as (h & _ & -> & _). by eexists.
Defined.

Lemma emptyGlobe_consistent :
  ∀ h, h ∈ Overlay.shown Sample.emptyGlobe → h < Overlay.nextHandle Sample.emptyGlobe.
Proof. intros h Hh. by apply elem_of_nil in Hh. Defined.

Lemma twoDrones_no_zero_id :
  Forall Overlay.no_zero_id
    [Overlay.FleetEffect
       (Overlay.setFleetStatus (Some Sample.fleet12)
          (Overlay.setConnection true true Overlay.initialOverlay));
     Overlay.UavPinUpdate (Some 77.5%float) (Some 12.5%float);
     Overlay.UavPinRemoved].
Proof.
  repeat constructor. intros status f [= <-] [= <-]. reflexivity.
Defined.

Lemma disconnect_removes_every_pin_witness :
  ∃ p g',
    foldl Overlay.pinStep (Some Sample.noPins)
      [Overlay.FleetEffect
         (Overlay.setFleetStatus (Some Sample.fleet12)
            (Overlay.setConnection true true Overlay.initialOverlay));
       Overlay.UavPinUpdate (Some 77.5%float) (Some 12.5%float);
       Overlay.UavPinRemoved] = Some p
    ∧ Overlay.clearPins p
      = {| Overlay.globe := Some g'; Overlay.droneEntityRef := None;
           Overlay.droneEntitiesRef := ∅ |}
    ∧ Overlay.shown g' = [].
Proof.
  exact (@disconnect_removes_every_pin flatCesium Sample.emptyGlobe _
           emptyGlobe_consistent twoDrones_no_zero_id).
Defined.

Lemma uav_pin_shows_last_valid_fix_witness :
  ∃ g h e,
    Overlay.globe
      (Overlay.updateUavPins
         [(Some 77.5%float, Some 12.5%float); (Some 77.625%float, Some 12.5%float);
          (None, Some 13%float)] Sample.noPins) = Some g
    ∧ Overlay.droneEntityRef
        (Overlay.updateUavPins
           [(Some 77.5%float, Some 12.5%float); (Some 77.625%float, Some 12.5%float);
            (None, Some 13%float)] Sample.noPins) = Some h
    ∧ Overlay.shown g = [h]
    ∧ Overlay.pinObjects g !! h = Some e
    ∧ Overlay.oe_position e = Some (@fromDegrees flatCesium 77.625%float 12.5%float 0%float).
Proof.
  apply (@uav_pin_shows_last_valid_fix flatCesium Sample.emptyGlobe ∅
           [(Some 77.5%float, Some 12.5%float)] [(None, Some 13%float)]
           77.625%float 12.5%float eq_refl eq_refl).
  intros c ->%list_elem_of_singleton. reflexivity.
Defined.

(** ** The KML layer and the surveillance path *)

Section LayerProofs.
Context `{CesiumAPI}.

Lemma added_refl (g : Overlay.Globe) : Overlay.added g g [].
Proof. unfold Overlay.added. simpl. rewrite app_nil_r. split_and!; [done|done|lia]. Qed.

Lemma added_trans (g g1 g2 : Overlay.Globe) (ents1 ents2 : list nat) :
  Overlay.added g g1 ents1 → Overlay.added g1 g2 ents2 →
  Overlay.added g g2 (ents1 ++ ents2).
Proof.
  intros (Hs1 & He1 & Hn1) (Hs2 & He2 & Hn2). unfold Overlay.added.
  rewrite Hs2, Hs1, Hn2, Hn1, length_app, seq_app, <- He1, <- Hn1, <- He2.
  split_and!; [by rewrite app_assoc|done|lia].
Qed.

Lemma added_add (e : Overlay.OverlayEntity) (g : Overlay.Globe) :
  Overlay.added g (Overlay.globe_add e g).2 [(Overlay.globe_add e g).1].
Proof. unfold Overlay.added. simpl. split_and!; [done|done|lia]. Qed.

Lemma added_fresh (g g' : Overlay.Globe) (ents : list nat) (h : nat) :
  Overlay.added g g' ents → h ∈ ents → Overlay.nextHandle g ≤ h.
Proof.
  intros (_ & He & _) Hin. rewrite He in Hin. apply elem_of_seq in Hin. lia.
Qed.

Lemma add_fold {A} (f : A → Overlay.Globe → nat * Overlay.Globe) (xs : list A)
    (acc : list nat) (g : Overlay.Globe) :
  (∀ x g, ∃ e, f x g = Overlay.globe_add e g) →
  ∃ new g',
    foldl (λ st x, let '(h, g') := f x st.2 in (st.1 ++ [h], g')) (acc, g) xs
    = (acc ++ new, g')
    ∧ Overlay.added g g' new ∧ length new = length xs.
Proof.
  intros Hf. induction xs as [|x xs IH] using rev_ind.
  - exists [], g. simpl. rewrite app_nil_r. split_and!; [done|apply added_refl|done].
  - destruct IH as (new & g1 & Hrun & Hadd & Hlen).
    rewrite foldl_app, Hrun. simpl. destruct (Hf x g1) as [e ->].
    pose proof (added_add e g1) as Hstep.
    destruct (Overlay.globe_add e g1) as [h g2]. simpl in Hstep.
    exists (new ++ [h]), g2. split_and!.
    + by rewrite app_assoc.
    + by eapply added_trans.
    + rewrite !length_app. simpl. lia.
Qed.

Lemma renderPolygon_added (options : Overlay.KmlOptions) (polygon : Overlay.KmlShape)
    (g : Overlay.Globe) :
  Overlay.added g (Overlay.renderPolygon options polygon g).2
                (Overlay.renderPolygon options polygon g).1
  ∧ length (Overlay.renderPolygon options polygon g).1 = 2.
Proof.
  unfold Overlay.renderPolygon, Overlay.added. simpl. split_and!; [|done|lia|done].
  by rewrite <- app_assoc.
Qed.

Lemma renderPolygons_added (options : Overlay.KmlOptions) (ps : list Overlay.KmlShape)
    (acc : list nat) (g : Overlay.Globe) :
  ∃ new g',
    foldl (λ st polygon,
             let '(hs, g') := Overlay.renderPolygon options polygon st.2 in
             (st.1 ++ hs, g')) (acc, g) ps
    = (acc ++ new, g')
    ∧ Overlay.added g g' new ∧ length new = 2 * length ps.
Proof.
  induction ps as [|x xs IH] using rev_ind.
  - exists [], g. simpl. rewrite app_nil_r. split_and!; [done|apply added_refl|done].
  - destruct IH as (new & g1 & Hrun & Hadd & Hlen).
    rewrite foldl_app, Hrun. cbn [foldl fst snd].
    destruct (renderPolygon_added options x g1) as [Hstep Hlen2].
    destruct (Overlay.renderPolygon options x g1) as [hs g2]. simpl in Hstep, Hlen2.
    exists (new ++ hs), g2. split_and!.
    + by rewrite app_assoc.
    + by eapply added_trans.
    + rewrite !length_app. simpl. lia.
Qed.

Lemma renderKMLData_added (options : Overlay.KmlOptions) (data : Overlay.CesiumData)
    (g : Overlay.Globe) :
  Overlay.clearExisting options = false →
  ∃ ents g',
    Overlay.renderKMLData options data g = (ents, g')
    ∧ Overlay.added g g' ents
    ∧ length ents
      = (if Overlay.pointShow options then length (Overlay.kml_points data) else 0)
        + length (Overlay.kml_lines data)
        + 2 * length (Overlay.kml_polygons data).
Proof.
  intros Hclear. unfold Overlay.renderKMLData. rewrite Hclear. cbn zeta.
  assert (Hpoints : ∃ new g1,
            (if Overlay.pointShow options
             then foldl (λ st point,
                    let '(h, g') := Overlay.renderPoint options point st.2 in
                    (st.1 ++ [h], g')) ([], g) (Overlay.kml_points data)
             else ([], g)) = (new, g1)
            ∧ Overlay.added g g1 new
            ∧ length new
              = if Overlay.pointShow options
                then length (Overlay.kml_points data) else 0).
  { destruct (Overlay.pointShow options).
    - destruct (add_fold (Overlay.renderPoint options) (Overlay.kml_points data) [] g)
        as (new & g1 & Hrun & Hadd & Hlen).
      { intros x g'. by eexists. }
      exists new, g1. by rewrite Hrun.
    - exists [], g. split_and!; [done|apply added_refl|done]. }
  destruct Hpoints as (new1 & g1 & -> & Hadd1 & Hlen1).
  destruct (add_fold (Overlay.renderLineString options) (Overlay.kml_lines data) new1 g1)
    as (new2 & g2 & -> & Hadd2 & Hlen2).
  { intros x g'. by eexists. }
  destruct (renderPolygons_added options (Overlay.kml_polygons data) (new1 ++ new2) g2)
    as (new3 & g3 & -> & Hadd3 & Hlen3).
  eexists _, g3. split; [done|]. split.
  - eapply added_trans; [|done]. by eapply added_trans.
  - rewrite !length_app. lia.
Qed.

Lemma remove_added (g : Overlay.Globe) (base ents gone : list nat) (n0 : nat) :
  (∀ h, h ∈ base → h < n0) →
  (∀ h, h ∈ ents → h ∈ gone) →
  (∀ h, h ∈ gone → n0 ≤ h) →
  Overlay.shown g = base ++ ents →
  Overlay.shown (foldl (λ g h, Overlay.globe_remove h g) g gone) = base.
Proof.
  intros Hbase Hents Hgone Hshown.
  rewrite removeEach_shown, Hshown, filter_app.
  rewrite filter_all, filter_none, app_nil_r; [done|..].
  - intros h Hh Hn. by apply Hn, Hents.
  - intros h Hh Hin. apply Hbase in Hh. apply Hgone in Hin. lia.
Qed.

Lemma removeUavPin_shown (p : Overlay.Pins) (g : Overlay.Globe) :
  Overlay.globe p = Some g →
  ∃ g1, Overlay.globe (Overlay.removeUavPin p) = Some g1
        ∧ Overlay.droneEntityRef (Overlay.removeUavPin p) = None
        ∧ Overlay.droneEntitiesRef (Overlay.removeUavPin p) = Overlay.droneEntitiesRef p
        ∧ Overlay.shown g1
          = filter (λ h, Overlay.droneEntityRef p ≠ Some h) (Overlay.shown g)
        ∧ Overlay.nextHandle g1 = Overlay.nextHandle g.
Proof.
  intros Hg. unfold Overlay.removeUavPin. rewrite Hg.
  destruct (Overlay.droneEntityRef p) as [pin|] eqn:Hpin; simpl.
  - eexists. split_and!; [done..| |done]. simpl.
    apply filter_agree. intros h _. split; [congruence|].
    intros Hne ->. by apply Hne.
  - exists g. split_and!; [done..| |done]. by rewrite filter_all.
Qed.

Lemma updateUavPin_added (lon lat : option float) (g : Overlay.Globe)
    (ref : gmap N nat) :
  let p' := Overlay.updateUavPin lon lat
              {| Overlay.globe := Some g; Overlay.droneEntityRef := None;
                 Overlay.droneEntitiesRef := ref |} in
  ∃ g', Overlay.globe p' = Some g'
        ∧ Overlay.droneEntitiesRef p' = ref
        ∧ Overlay.added g g' (option_list (Overlay.droneEntityRef p'))
        ∧ (is_Some (Overlay.droneEntityRef p')
           ↔ Overlay.isFiniteNumber lon && Overlay.isFiniteNumber lat = true).
Proof.
  cbn zeta. unfold Overlay.updateUavPin. simpl.
  assert (Hnone : ∀ b : bool, b = false → is_Some (@None nat) ↔ b = true).
  { intros b ->. split; [by intros []|done]. }
  destruct lon as [lon|].
  2:{ exists g. split_and!; [done|done|apply added_refl|by apply Hnone]. }
  destruct lat as [lat|].
  2:{ exists g. split_and!; [done|done|apply added_refl|].
      apply Hnone. apply andb_false_r. }
  destruct (Overlay.isFiniteNumber (Some lat)) eqn:Hlat;
    destruct (Overlay.isFiniteNumber (Some lon)) eqn:Hlon; simpl.
  - eexists. split_and!; [done|done| |done].
    unfold Overlay.added. simpl. split_and!; [done|done|lia].
  - exists g. split_and!; [done|done|apply added_refl|by apply Hnone].
  - exists g. split_and!; [done|done|apply added_refl|by apply Hnone].
  - exists g. split_and!; [done|done|apply added_refl|by apply Hnone].
Qed.

(** X19: with no generated path, on a viewer whose collection only holds
    handles it handed out, selecting a KML file removes the UAV pin, makes
    one entity per line and two per polygon (none for points) and, when the
    camera does not fly, re-creates the pin at once for a finite position;
    when the camera flies, the pin is left to the end of the flight.
    Clearing the KML right after it removes exactly the entities that
    selection rendered: [kmlEntitiesRef] is empty afterwards, the file is
    forgotten, and the viewer's collection is the one from before the
    selection without the old pin, followed by the pin that was re-created.
    Entities of a file selected earlier, which the ref no longer holds,
    therefore stay on the globe. *)
Theorem clear_kml_undoes_last_render (l : Overlay.Layer) (g : Overlay.Globe)
    (file : string) (data : Overlay.CesiumData) (lon lat : option float) :
  Overlay.layerGlobe l = Some g →
  Overlay.generatedPath l = None →
  (∀ h, h ∈ Overlay.shown g → h < Overlay.nextHandle g) →
  let l1 := Overlay.kmlFileSelected file data lon lat l in
  let l2 := Overlay.onClearKml l1 in
  length (Overlay.kmlEntitiesRef l1)
  = length (Overlay.kml_lines data) + 2 * length (Overlay.kml_polygons data)
  ∧ Overlay.uploadedKmlFile (Overlay.layerOverlay l1) = Some file
  ∧ Overlay.kmlEntitiesRef l2 = []
  ∧ Overlay.uploadedKmlFile (Overlay.layerOverlay l2) = None
  ∧ kmlUploaded (Overlay.layerCtx l2) = false
  ∧ Overlay.layerDroneEntityRef l2 = Overlay.layerDroneEntityRef l1
  ∧ (is_Some (Overlay.layerDroneEntityRef l1)
     ↔ Overlay.cameraFlies (Overlay.kml_bounds data) lon lat = false
       ∧ Overlay.isFiniteNumber lon && Overlay.isFiniteNumber lat = true)
  ∧ Overlay.flights l1
    = Overlay.flights l
      ++ (if Overlay.cameraFlies (Overlay.kml_bounds data) lon lat
          then [(lon, lat)] else [])
  ∧ ∃ g1 g2,
      Overlay.layerGlobe l1 = Some g1 ∧ Overlay.layerGlobe l2 = Some g2
      ∧ (∀ h, h ∈ Overlay.kmlEntitiesRef l1 →
              h ∈ Overlay.shown g1 ∧ h ∉ Overlay.shown g)
      ∧ (∀ h, Overlay.layerDroneEntityRef l1 = Some h →
              h ∈ Overlay.shown g1 ∧ h ∉ Overlay.shown g)
      ∧ Overlay.shown g2
        = filter (λ h, h ∉ Overlay.kmlEntitiesRef l1) (Overlay.shown g1)
      ∧ Overlay.shown g2
        = filter (λ h, Overlay.layerDroneEntityRef l ≠ Some h) (Overlay.shown g)
          ++ option_list (Overlay.layerDroneEntityRef l1).
Proof.
  intros Hg Hpath Hcons. cbn zeta.
  unfold Overlay.kmlFileSelected.
  destruct (removeUavPin_shown (Overlay.layerPins l) g Hg)
    as (ga & -> & Hpin & Hfleet & Hshown_a & Hnext_a).
  simpl in Hshown_a. simpl.
  destruct (renderKMLData_added Overlay.fileSelectOptions data ga eq_refl)
    as (ents & gb & -> & Hadd & Hlen).
  simpl in Hlen. rewrite Hpin, Hfleet. simpl.
  destruct Hadd as (Hshown_b & Hents & Hnext_b).
  assert (Hold : ∀ h, h ∈ Overlay.shown ga → h < Overlay.nextHandle g).
  { intros h Hh. rewrite Hshown_a in Hh. apply list_elem_of_filter in Hh as [_ Hh].
    by apply Hcons. }
  assert (Hnew : ∀ h, h ∈ ents → Overlay.nextHandle g ≤ h < Overlay.nextHandle gb).
  { intros h Hh. rewrite Hents in Hh. apply elem_of_seq in Hh. lia. }
  destruct (Overlay.cameraFlies (Overlay.kml_bounds data) lon lat) eqn:Hfly.
  - (* the camera flies: the pin waits for the end of the flight *)
    unfold Overlay.onClearKml. simpl. rewrite Hpath.
    split_and!; [done..| |done|].
    { split; [by intros []|by intros []]. }
    exists gb. eexists. split_and!; [done|done| |done|apply removeEach_shown|].
    + intros h Hh. split; [rewrite Hshown_b, elem_of_app; by right|].
      intros Hin%Hcons. apply Hnew in Hh. lia.
    + simpl. rewrite app_nil_r, <- Hshown_a.
      apply (remove_added gb (Overlay.shown ga) ents ents (Overlay.nextHandle g));
        [done|done| |done].
      intros h Hh. apply Hnew in Hh. lia.
  - (* no flight: the pin is re-created at once *)
    destruct (updateUavPin_added lon lat gb (Overlay.layerDroneEntitiesRef l))
      as (gc & Hgc & Hfleet_c & (Hshown_c & Hpin_c & Hnext_c) & Hsome).
    cbn zeta in Hgc, Hfleet_c, Hshown_c, Hpin_c, Hnext_c, Hsome.
    set (p3 := Overlay.updateUavPin lon lat _) in *.
    unfold Overlay.onClearKml. simpl. rewrite Hgc, Hpath.
    split_and!; [done..| |by rewrite app_nil_r|].
    { rewrite Hsome. split; [done|by intros [_ ?]]. }
    assert (Hpin_new : ∀ h, Overlay.droneEntityRef p3 = Some h →
                            h = Overlay.nextHandle gb).
    { intros h Hh. rewrite Hh in Hpin_c. simpl in Hpin_c. by injection Hpin_c. }
    exists gc. eexists. split_and!; [done|done| | |apply removeEach_shown|].
    + intros h Hh. split.
      * rewrite Hshown_c, Hshown_b, !elem_of_app. left. by right.
      * intros Hin%Hcons. apply Hnew in Hh. lia.
    + intros h Hh. pose proof (Hpin_new h Hh) as ->. split.
      * rewrite Hshown_c, Hh, elem_of_app. right. apply list_elem_of_here.
      * intros Hin%Hcons. lia.
    + simpl. rewrite removeEach_shown, Hshown_c, Hshown_b, !filter_app.
      rewrite (filter_all _ (Overlay.shown ga)), (filter_none _ ents),
        (filter_all _ (option_list _)), Hshown_a; [by rewrite app_nil_r|..].
      * intros h Hh Hin. destruct (Overlay.droneEntityRef p3) as [pin|] eqn:Hp3;
          simpl in Hh; [|by apply elem_of_nil in Hh].
        apply list_elem_of_singleton in Hh as ->.
        rewrite (Hpin_new pin eq_refl) in Hin. apply Hnew in Hin. lia.
      * intros h Hh Hn. by apply Hn.
      * intros h Hh Hin. apply Hold in Hh. apply Hnew in Hin. lia.
Qed.

Lemma clearSurveillancePath_shown (pd : Overlay.PathData) (g : Overlay.Globe) :
  Overlay.clearSurveillancePath pd g
  = foldl (λ g h, Overlay.globe_remove h g) g (Overlay.pathEntities (Some pd)).
Proof. done. Qed.

Lemma renderSurveillancePath_added (waypoints : option (list Overlay.PathWaypoint))
    (style : Overlay.PathStyle) (g : Overlay.Globe) :
  Overlay.showWaypoints style = true →
  Overlay.added g (Overlay.renderSurveillancePath waypoints style g).2
    (Overlay.pathEntities (Overlay.renderSurveillancePath waypoints style g).1)
  ∧ ∀ pd, (Overlay.renderSurveillancePath waypoints style g).1 = Some pd →
          waypoints = Some (Overlay.pd_waypoints pd)
          ∧ 2 ≤ length (Overlay.pd_waypoints pd)
          ∧ length (Overlay.waypointEntities pd) = length (Overlay.pd_waypoints pd).
Proof.
  intros Hshow. unfold Overlay.renderSurveillancePath.
  destruct waypoints as [wps|]; [|split; [apply added_refl|done]].
  case_bool_decide as Hlen; [split; [apply added_refl|done]|].
  rewrite Hshow.
  match goal with
  | |- context [Overlay.globe_add ?e g] =>
      pose proof (added_add e g) as Hpath; destruct (Overlay.globe_add e g) as [pe g1]
  end.
  simpl in Hpath.
  destruct (add_fold
              (λ iw g, Overlay.globe_add
                         (Overlay.waypointMarker style (length wps) iw.1 iw.2) g)
              (imap (λ index wp, (index, wp)) wps) [] g1)
    as (new & g2 & Hrun & Hadd & Hnew).
  { intros x g'. by eexists. }
  rewrite Hrun. simpl. split.
  - by apply (added_trans g g1 g2 [pe] new).
  - intros pd [= <-]. simpl. rewrite Hnew, length_imap. split_and!; [done|lia|done].
Qed.

Lemma removeEach_nextHandle (hs : list nat) (g : Overlay.Globe) :
  Overlay.nextHandle (foldl (λ g h, Overlay.globe_remove h g) g hs)
  = Overlay.nextHandle g.
Proof.
  revert g. induction hs as [|x hs IH]; intros g; [done|]. simpl. by rewrite IH.
Qed.

Lemma layerStep_inv (g0 : Overlay.Globe) (kml : list nat) (cleared : bool)
    (l : Overlay.Layer) (e : Overlay.LayerEvent) :
  (∀ h, h ∈ Overlay.shown g0 → h < Overlay.nextHandle g0) →
  Overlay.layer_inv g0 kml cleared l →
  Overlay.layer_inv g0 kml (cleared || Overlay.clearsKml e) (Overlay.layerStep l e).
Proof.
  intros Hcons Hinv. pose proof Hinv as
    (g & Hg & Hkml & Hshown & Hnext & Hfresh & Hwps & Hlen & Hbusy & Hcap).
  set (base := if cleared then filter (λ h, h ∉ kml) (Overlay.shown g0)
               else Overlay.shown g0) in *.
  assert (Hbase : ∀ h, h ∈ base → h < Overlay.nextHandle g0).
  { intros h Hh. apply Hcons. unfold base in Hh. destruct cleared; [|done].
    by apply list_elem_of_filter in Hh as [_ Hh]. }
  destruct l as [gl c o ref gp fl pin pins fls]. simpl in *. subst gl ref.
  destruct e as [hasGps|result|]; simpl; rewrite ?orb_false_r, ?orb_true_r.
  - unfold Overlay.generatePathRequested, Overlay.onGeneratePath. simpl.
    destruct (negb (Overlay.isKmlBlocked c)
              && bool_decide (is_Some (Overlay.uploadedKmlFile o))
              && negb (Overlay.isGeneratingPath o))%bool eqn:Hguard; [|done].
    destruct (bool_decide (is_Some (Overlay.uploadedKmlFile o)) && hasGps
              && true)%bool; [|done].
    apply andb_true_iff in Hguard as [_ Hidle]. apply negb_true_iff in Hidle.
    assert (fl = []) as ->.
    { destruct fl; [done|]. rewrite (proj2 Hbusy) in Hidle; done. }
    exists g. simpl. split_and!; try done.
    intros c' ->%list_elem_of_singleton. split; [by left|done].
  - unfold Overlay.generatePathSettles. simpl.
    destruct fl as [|captured rest]; [done|].
    assert (rest = []) as -> by (destruct rest; [done|simpl in Hlen; lia]).
    destruct (Hcap captured (list_elem_of_here _ _)) as [Hsame Hcfresh].
    destruct result as [waypoints|].
    2:{ exists g. simpl. split_and!; try done; try (simpl; lia).
        intros c' Hc'. by apply elem_of_nil in Hc'. }
    assert (Hcleared : ∃ g1,
              match captured with
              | Some pathData => Overlay.clearSurveillancePath pathData g
              | None => g
              end = g1
              ∧ Overlay.shown g1 = base
              ∧ Overlay.nextHandle g1 = Overlay.nextHandle g).
    { eexists. split; [done|]. destruct captured as [pd|].
      - rewrite clearSurveillancePath_shown. split.
        + destruct Hsame as [<- | ->].
          * by apply (remove_added g base
                        (Overlay.pathEntities (Some pd))
                        (Overlay.pathEntities (Some pd)) (Overlay.nextHandle g0)).
          * simpl in Hshown. rewrite app_nil_r in Hshown.
            apply (remove_added g base []
                     (Overlay.pathEntities (Some pd)) (Overlay.nextHandle g0));
              [done| |done|by rewrite app_nil_r].
            intros h Hh. by apply elem_of_nil in Hh.
        + apply removeEach_nextHandle.
      - destruct Hsame as [<- | ->]; simpl in Hshown; rewrite app_nil_r in Hshown; done. }
    destruct Hcleared as (g1 & -> & Hshown1 & Hnext1).
    destruct (renderSurveillancePath_added waypoints Overlay.generatedPathStyle g1
                eq_refl) as [Hadd Hdata].
    destruct (Overlay.renderSurveillancePath waypoints Overlay.generatedPathStyle g1)
      as [pathData g2]. simpl in Hadd, Hdata.
    exists g2. simpl. split_and!; try done.
    + destruct Hadd as (-> & _ & _). by rewrite Hshown1.
    + destruct Hadd as (_ & _ & ->). lia.
    + intros h Hh. pose proof (added_fresh _ _ _ _ Hadd Hh). lia.
    + intros pd Hpd. by destruct (Hdata pd Hpd) as (_ & ? & ?).
    + simpl. lia.
    + intros c' Hc'. by apply elem_of_nil in Hc'.
  - unfold Overlay.onClearKml. simpl. eexists. simpl. split; [done|].
    assert (Hpath_gone :
              Overlay.shown
                match gp with
                | Some pathData => Overlay.clearSurveillancePath pathData g
                | None => g
                end = base
              ∧ Overlay.nextHandle
                  match gp with
                  | Some pathData => Overlay.clearSurveillancePath pathData g
                  | None => g
                  end = Overlay.nextHandle g).
    { destruct gp as [pd|].
      - rewrite clearSurveillancePath_shown, removeEach_nextHandle. split; [|done].
        by apply (remove_added g base (Overlay.pathEntities (Some pd))
                    (Overlay.pathEntities (Some pd)) (Overlay.nextHandle g0)).
      - simpl in Hshown. by rewrite app_nil_r in Hshown. }
    destruct Hpath_gone as [Hshown1 Hnext1].
    split_and!; try done.
    + rewrite removeEach_shown, Hshown1, app_nil_r. unfold base.
      destruct cleared; [|done]. apply filter_all. intros h _. apply not_elem_of_nil.
    + by rewrite removeEach_nextHandle, Hnext1.
    + intros h Hh. by apply elem_of_nil in Hh.
    + intros c' Hc'. split; [by right|]. by apply Hcap.
Qed.

Lemma layerRun_inv (g0 : Overlay.Globe) (kml : list nat) (es : list Overlay.LayerEvent)
    (cleared : bool) (l : Overlay.Layer) :
  (∀ h, h ∈ Overlay.shown g0 → h < Overlay.nextHandle g0) →
  Overlay.layer_inv g0 kml cleared l →
  Overlay.layer_inv g0 kml (cleared || existsb Overlay.clearsKml es)
    (foldl Overlay.layerStep l es).
Proof.
  intros Hcons. revert cleared l.
  induction es as [|e es IH]; intros cleared l Hl; simpl.
  - by rewrite orb_false_r.
  - rewrite orb_assoc. by apply IH, layerStep_inv.
Qed.

(** X20: from a state with a viewer whose collection only holds handles
    it handed out, without a generated path and without a pending
    generation, whatever entities [kmlEntitiesRef] holds: for every sequence
    of path requests, settling path generations and clear-KML events, the
    viewer's collection is the one it started with, without the entities of
    [kmlEntitiesRef] once the KML was cleared, followed by the entities of
    the current [generatedPath] alone, one line and one marker per waypoint
    of a path of at least two waypoints; [kmlEntitiesRef] is what it was
    until the KML is cleared and empty from then on; at most one generation
    is pending, and [isGeneratingPath] is set exactly while one is. *)
Theorem one_surveillance_path_on_globe (l0 : Overlay.Layer) (g0 : Overlay.Globe)
    (es : list Overlay.LayerEvent) :
  Overlay.layerGlobe l0 = Some g0 →
  (∀ h, h ∈ Overlay.shown g0 → h < Overlay.nextHandle g0) →
  Overlay.generatedPath l0 = None →
  Overlay.inFlight l0 = [] →
  Overlay.isGeneratingPath (Overlay.layerOverlay l0) = false →
  let l := foldl Overlay.layerStep l0 es in
  let cleared := existsb Overlay.clearsKml es in
  (∃ g, Overlay.layerGlobe l = Some g
        ∧ Overlay.shown g
          = (if cleared
             then filter (λ h, h ∉ Overlay.kmlEntitiesRef l0) (Overlay.shown g0)
             else Overlay.shown g0)
            ++ Overlay.pathEntities (Overlay.generatedPath l))
  ∧ Overlay.kmlEntitiesRef l = (if cleared then [] else Overlay.kmlEntitiesRef l0)
  ∧ (∀ pd, Overlay.generatedPath l = Some pd →
       2 ≤ length (Overlay.pd_waypoints pd)
       ∧ length (Overlay.waypointEntities pd) = length (Overlay.pd_waypoints pd))
  ∧ length (Overlay.inFlight l) ≤ 1
  ∧ (Overlay.isGeneratingPath (Overlay.layerOverlay l) = true
     ↔ Overlay.inFlight l ≠ []).
Proof.
  intros Hg Hcons Hpath Hfl Hidle. cbn zeta.
  destruct (layerRun_inv g0 (Overlay.kmlEntitiesRef l0) es false l0 Hcons)
    as (g & Hg' & Hkml & Hshown & _ & _ & Hwps & Hlen & Hbusy & _).
  { exists g0. rewrite Hpath, Hfl, Hidle. simpl. rewrite app_nil_r.
    split_and!; try done; try lia.
    - intros h Hh. by apply elem_of_nil in Hh.
    - intros c Hc. by apply elem_of_nil in Hc. }
  simpl in Hkml, Hshown.
  split_and!; [by exists g|done..].
Qed.

End LayerProofs.

Lemma pinnedGlobe_consistent :
  ∀ h, h ∈ Overlay.shown Sample.pinnedGlobe → h < Overlay.nextHandle Sample.pinnedGlobe.
Proof. apply Forall_forall. vm_compute. repeat constructor. Defined.

Lemma kmlGlobe_consistent :
  ∀ h, h ∈ Overlay.shown Sample.kmlGlobe → h < Overlay.nextHandle Sample.kmlGlobe.
Proof. apply Forall_forall. vm_compute. repeat constructor. Defined.

Lemma clear_kml_undoes_last_render_witness :
  let l1 := Overlay.kmlFileSelected "area.kml" Sample.fieldKml
              (Some 77.5%float) (Some 12.5%float) Sample.pinnedLayer in
  length (Overlay.kmlEntitiesRef l1) = 3
  ∧ Overlay.kmlEntitiesRef (Overlay.onClearKml l1) = []
  ∧ ∃ g2, Overlay.layerGlobe (Overlay.onClearKml l1) = Some g2
          ∧ Overlay.shown g2 = [].
Proof.
  destruct (@clear_kml_undoes_last_render flatCesium Sample.pinnedLayer
              Sample.pinnedGlobe "area.kml" Sample.fieldKml
              (Some 77.5%float) (Some 12.5%float)
              eq_refl eq_refl pinnedGlobe_consistent)
    as (Hcount & _ & Hcleared & _ & _ & _ & _ & _ & g1 & g2 & _ & Hg2 & _ & _ & _ & Hshown).
  cbn zeta. split_and!; [exact Hcount|exact Hcleared|].
  exists g2. split; [exact Hg2|]. rewrite Hshown. vm_compute. reflexivity.
Defined.

Lemma one_surveillance_path_on_globe_witness :
  let l := foldl Overlay.layerStep Sample.kmlLayer
             [Overlay.GeneratePathRequested true;
              Overlay.GeneratePathSettles (Some (Some Sample.twoLegs));
              Overlay.ClearKmlRequested] in
  Overlay.kmlEntitiesRef Sample.kmlLayer = [1; 2; 3]
  ∧ Overlay.kmlEntitiesRef l = []
  ∧ ∃ g, Overlay.layerGlobe l = Some g ∧ Overlay.shown g = [].
Proof.
  destruct (@one_surveillance_path_on_globe flatCesium Sample.kmlLayer Sample.kmlGlobe
              [Overlay.GeneratePathRequested true;
               Overlay.GeneratePathSettles (Some (Some Sample.twoLegs));
               Overlay.ClearKmlRequested]
              eq_refl kmlGlobe_consistent eq_refl eq_refl eq_refl)
    as ((g & Hg & Hshown) & Hkml & _).
  cbn zeta. split_and!; [reflexivity|exact Hkml|].
  exists g. split; [exact Hg|]. rewrite Hshown. vm_compute. reflexivity.
Defined.
